(** * brig: the seekable stream pipeline

    A shallow embedding of three pieces of the repository:
    - [chunkbuf.ChunkBuffer]  (the fixed-capacity chunk buffer),
    - [encrypt.Writer]        (catfs/mio/encrypt/writer.go),
    - [compress.Reader]       (the decompressing reader),
    followed by the properties proved about them.

    Conventions.  Go's [int64] and [uint64] are [Z] with the wrap-around
    written out ([wrap64], [wrapu64]); byte slices are [list byte]; a Go
    [error] is [option error] with [None] for [nil].  A function that can
    panic, or that loops, returns an [outcome]. *)

From Stdlib Require Import ZArith List Bool Lia Arith Sorted.
From Stdlib Require Import Strings.Byte.
Import ListNotations.
Local Open Scope Z_scope.

(** ** Go run-time conventions *)

Module Go.

(** The result of running a piece of Go code: it returns, it panics
    (slice bounds or index out of range, nil dereference), or the loop budget
    given to the model ran out before the loop was left. *)
Inductive outcome (A : Type) : Type :=
| Done (a : A)
| Panic
| OutOfFuel.

Arguments Done {A} a.
Arguments Panic {A}.
Arguments OutOfFuel {A}.

Definition bind {A B : Type} (m : outcome A) (k : A -> outcome B) : outcome B :=
  match m with
  | Done a => k a
  | Panic => Panic
  | OutOfFuel => OutOfFuel
  end.

(** The error values that occur in the three packages. *)
Inductive error : Type :=
| EOF                       (* io.EOF *)
| ErrUnexpectedEOF          (* io.ErrUnexpectedEOF *)
| ErrNegativePosition       (* bytes.Reader.Seek: negative position *)
| ErrInvalidWhence          (* bytes.Reader.Seek: invalid whence *)
| ErrBadIndex               (* compress.ErrBadIndex *)
| ErrBadMagic               (* compress: readHeader rejects the magic *)
| ErrBadAlgo                (* compress: AlgorithmFromType rejects the type *)
| ErrTrailerTooSmall        (* compress: read trailer was too small *)
| ErrDecode                 (* compress: Algorithm.Decode failed *)
| ErrBadBlockSize           (* encrypt.ErrBadBlockSize *)
| ErrMixedMethods           (* encrypt.ErrMixedMethods *)
| ErrAlreadyClosed          (* compress: a write to a closed writer *)
| ErrOther (code : nat).    (* an error of a collaborator (sink, source) *)

Definition error_eqb (a b : error) : bool :=
  match a, b with
  | EOF, EOF | ErrUnexpectedEOF, ErrUnexpectedEOF
  | ErrNegativePosition, ErrNegativePosition
  | ErrInvalidWhence, ErrInvalidWhence
  | ErrBadIndex, ErrBadIndex | ErrBadMagic, ErrBadMagic
  | ErrBadAlgo, ErrBadAlgo | ErrTrailerTooSmall, ErrTrailerTooSmall
  | ErrDecode, ErrDecode | ErrBadBlockSize, ErrBadBlockSize
  | ErrMixedMethods, ErrMixedMethods
  | ErrAlreadyClosed, ErrAlreadyClosed => true
  | ErrOther m, ErrOther n => Nat.eqb m n
  | _, _ => false
  end.

(** [len s] is Go's [len(s)]. *)
Definition len {A : Type} (s : list A) : Z := Z.of_nat (length s).

(** Two's complement wrap-around of [int64] and [uint64] arithmetic. *)
Definition wrap64 (z : Z) : Z := (z + 2 ^ 63) mod 2 ^ 64 - 2 ^ 63.
Definition wrapu64 (z : Z) : Z := z mod 2 ^ 64.
Definition maxInt : Z := 2 ^ 63 - 1.

(** io.SeekStart, io.SeekCurrent, io.SeekEnd. *)
Definition SeekStart : Z := 0.
Definition SeekCurrent : Z := 1.
Definition SeekEnd : Z := 2.

(** [s[lo:hi]]: Go panics unless [0 <= lo <= hi <= cap(s)].  Every slice
    of the model is cut from a buffer that is full ([cap = len]). *)
Definition slice (s : list byte) (lo hi : Z) : outcome (list byte) :=
  if (0 <=? lo) && (lo <=? hi) && (hi <=? len s)
  then Done (firstn (Z.to_nat (hi - lo)) (skipn (Z.to_nat lo) s))
  else Panic.

(** Bytes and integers. *)
Definition byte_of_Z (z : Z) : byte :=
  match Byte.of_N (Z.to_N (z mod 256)) with
  | Some b => b
  | None => x00
  end.

Definition Z_of_byte (b : byte) : Z := Z.of_N (Byte.to_N b).

(** [binary.LittleEndian]: [n] bytes of [z], least significant first. *)
Fixpoint le_bytes (n : nat) (z : Z) : list byte :=
  match n with
  | O => []
  | S k => byte_of_Z z :: le_bytes k (z / 256)
  end.

Fixpoint le_value (bs : list byte) : Z :=
  match bs with
  | [] => 0
  | b :: t => Z_of_byte b + 256 * le_value t
  end.

(** [binary.BigEndian]: most significant byte first. *)
Definition be_bytes (n : nat) (z : Z) : list byte := rev (le_bytes n z).
Definition be_value (bs : list byte) : Z := le_value (rev bs).

(** A byte string [b] cut at the block size [bs]: the full blocks, what is
    left after them (the residue, [len b mod bs] bytes), and all the blocks
    in order, the residue last when it is not empty. *)
Definition full_blocks (bs : Z) (b : list byte) : list (list byte) :=
  map (fun i => firstn (Z.to_nat bs) (skipn (i * Z.to_nat bs) b))
      (seq 0 (Z.to_nat (len b / bs))).

Definition residue (bs : Z) (b : list byte) : list byte :=
  skipn (Z.to_nat (len b / bs) * Z.to_nat bs) b.

Definition blocks (bs : Z) (b : list byte) : list (list byte) :=
  full_blocks bs b ++ (if len b mod bs =? 0 then [] else [residue bs b]).

(** An [io.Writer] held in memory.  It logs the slices it accepted, one
    entry per [Write] call; [fault k] is the error with which it rejects its
    [k]-th call ([None]: the call is accepted in full). *)
Record Sink : Type := mkSink {
  accepted : list (list byte);
  calls : nat;
  fault : nat -> option error
}.

Definition sink_write (s : Sink) (p : list byte) : Sink * (Z * option error) :=
  match fault s (calls s) with
  | Some e => (mkSink (accepted s) (S (calls s)) (fault s), (0, Some e))
  | None => (mkSink (accepted s ++ [p]) (S (calls s)) (fault s), (len p, None))
  end.

(** A sink that never rejects a write. *)
Definition reliable (s : Sink) : Prop := forall k, fault s k = None.

Definition NewSink : Sink := mkSink [] 0 (fun _ => None).

(** A sink that rejects its [k]-th call and accepts the others. *)
Definition failing_at (k : nat) (log : list (list byte)) (n : nat) : Sink :=
  mkSink log n (fun i => if Nat.eqb i k then Some (ErrOther 1) else None).

(** An [io.Reader] held in memory: the bytes still to come, and how the
    stream ends ([None]: io.EOF, [Some e]: the error [e]). *)
Record Source : Type := mkSource {
  pending : list byte;
  final : option error
}.

(** [io.ReadFull(r, buf)] with [len(buf) = n]: the bytes read and the error. *)
Definition ReadFull (r : Source) (n : Z) : Source * (list byte * option error) :=
  if n <=? 0 then (r, ([], None))
  else if n <=? len (pending r)
  then (mkSource (skipn (Z.to_nat n) (pending r)) (final r),
        (firstn (Z.to_nat n) (pending r), None))
  else (mkSource [] (final r),
        (pending r,
         match final r with
         | Some e => Some e
         | None => match pending r with [] => Some EOF | _ => Some ErrUnexpectedEOF end
         end)).

End Go.

Export Go.

Declare Scope go_scope.
Notation "x <- m ;; k" := (bind m (fun x => k))
  (at level 61, m at next level, right associativity) : go_scope.
Notation "' p <- m ;; k" := (bind m (fun x => let p := x in k))
  (at level 61, p pattern, m at next level, right associativity) : go_scope.
Local Open Scope go_scope.

(** ** chunkbuf.ChunkBuffer *)

Module ChunkBuf.

Record ChunkBuffer : Type := mkChunkBuffer {
  buf : list byte;
  readOff : Z;
  writeOff : Z;
  size : Z
}.

Definition maxChunkSize : Z := 64 * 1024.

(** [Write]: [copy(c.buf[c.writeOff:c.size], p)] overwrites the backing
    bytes in place; the count copied is the shorter of the two lengths. *)
Definition Write (c : ChunkBuffer) (p : list byte)
  : outcome (ChunkBuffer * (Z * option error)) :=
  dst <- slice (buf c) (writeOff c) (size c) ;;
  let n := Z.min (len dst) (len p) in
  let buf' := firstn (Z.to_nat (writeOff c)) (buf c)
              ++ firstn (Z.to_nat n) p
              ++ skipn (Z.to_nat (writeOff c + n)) (buf c) in
  let writeOff' := wrap64 (writeOff c + n) in
  Done (mkChunkBuffer buf' (readOff c) writeOff' (Z.max (size c) writeOff'),
        (n, None)).

Definition Reset (c : ChunkBuffer) (data : list byte) : ChunkBuffer :=
  mkChunkBuffer data 0 0 (len data).

Definition Len (c : ChunkBuffer) : Z := size c - readOff c.

(** [Read] with [len(p) = plen]: the bytes copied into [p] and the error. *)
Definition Read (c : ChunkBuffer) (plen : Z)
  : outcome (ChunkBuffer * (list byte * option error)) :=
  src <- slice (buf c) (readOff c) (size c) ;;
  let n := Z.min plen (len src) in
  let c' := mkChunkBuffer (buf c) (wrap64 (readOff c + n)) (writeOff c) (size c) in
  Done (c', (firstn (Z.to_nat n) src, if n <? plen then Some EOF else None)).

Definition Seek (c : ChunkBuffer) (offset whence : Z) : ChunkBuffer * (Z * option error) :=
  let r1 :=
    if whence =? SeekCurrent then wrap64 (readOff c + offset)
    else if whence =? SeekEnd then wrap64 (size c + offset)
    else if whence =? SeekStart then offset
    else readOff c in
  let r2 := Z.min r1 (size c) in
  (mkChunkBuffer (buf c) r2 r2 (size c), (r2, None)).

Definition Close (c : ChunkBuffer) : option error := None.

(** [WriteTo]: hands [c.buf[c.readOff:]] to the writer in one call. *)
Definition WriteTo (c : ChunkBuffer) (w : Sink)
  : outcome (ChunkBuffer * Sink * (Z * option error)) :=
  rest <- slice (buf c) (readOff c) (len (buf c)) ;;
  let '(w', (n, err)) := sink_write w rest in
  match err with
  | Some e => Done (c, w', (0, Some e))
  | None =>
      Done (mkChunkBuffer (buf c) (wrap64 (readOff c + n)) (writeOff c) (size c),
            w', (n, None))
  end.

(** [NewChunkBuffer(data)]; [None] is Go's [nil] slice. *)
Definition NewChunkBuffer (data : option (list byte)) : ChunkBuffer :=
  let d := match data with
           | Some d => d
           | None => repeat x00 (Z.to_nat maxChunkSize)
           end in
  mkChunkBuffer d 0 0 (len d).

(** The operations of the buffer, for runs. *)
Inductive op : Type :=
| OpWrite (p : list byte)
| OpRead (plen : nat)
| OpSeek (offset whence : Z)
| OpWriteTo (w : Sink).

Definition step (c : ChunkBuffer) (o : op) : outcome ChunkBuffer :=
  match o with
  | OpWrite p => r <- Write c p ;; Done (fst r)
  | OpRead n => r <- Read c (Z.of_nat n) ;; Done (fst r)
  | OpSeek off wh => Done (fst (Seek c off wh))
  | OpWriteTo w => r <- WriteTo c w ;; Done (fst (fst r))
  end.

Fixpoint run (c : ChunkBuffer) (ops : list op) : outcome ChunkBuffer :=
  match ops with
  | [] => Done c
  | o :: rest => c' <- step c o ;; run c' rest
  end.

(** Every slice expression of the buffer is in bounds at [c]. *)
Definition in_bounds (c : ChunkBuffer) : Prop :=
  0 <= readOff c <= size c /\ 0 <= writeOff c <= size c /\
  size c = len (buf c) /\ size c <= maxInt.

(** A seek that a client can make without leaving the buffer of [sz]
    bytes: absolute and not negative, or relative to the end and inside. *)
Definition safe_op (sz : Z) (o : op) : Prop :=
  match o with
  | OpSeek off wh =>
      (wh = SeekStart /\ 0 <= off) \/ (wh = SeekEnd /\ - sz <= off <= 0)
  | _ => True
  end.

End ChunkBuf.

(** ** encrypt.Writer (catfs/mio/encrypt/writer.go) *)

Module Encrypt.

(** What the writer uses and the file does not define: the AEAD of
    [aeadCommon] ([cipher.AEAD.Seal], chosen from the key and the cipher bit
    of the flags) and [GenerateHeader].

    Modelled from the spec: the header of an encrypted object is 36 bytes,
    fixed. *)
Class Suite : Type := {
  Seal : list byte -> Z -> list byte -> list byte -> list byte;
  GenerateHeader : list byte -> Z -> Z -> list byte;
  GenerateHeader_length :
    forall key bs flags, length (GenerateHeader key bs flags) = 36%nat
}.

(** [defaultDecBufferSize]: the size of the scratch buffer of [ReadFrom].

    Modelled from the spec: the default block size is 64 KiB. *)
Definition defaultDecBufferSize : Z := 64 * 1024.

Record Writer : Type := mkWriter {
  sink : Sink;             (* the embedded io.Writer *)
  key : list byte;         (* aeadCommon.key *)
  nonce : list byte;       (* aeadCommon.nonce *)
  encBuf : list byte;      (* aeadCommon.encBuf *)
  rbuf : list byte;        (* the unread part of the bytes.Buffer *)
  blockCount : Z;          (* uint64 *)
  headerWritten : bool;
  maxBlockSize : Z;        (* int64 *)
  flags : Z
}.

Definition with_sink (w : Writer) (s : Sink) : Writer :=
  mkWriter s (key w) (nonce w) (encBuf w) (rbuf w) (blockCount w)
           (headerWritten w) (maxBlockSize w) (flags w).

Definition with_rbuf (w : Writer) (b : list byte) : Writer :=
  mkWriter (sink w) (key w) (nonce w) (encBuf w) b (blockCount w)
           (headerWritten w) (maxBlockSize w) (flags w).

Definition GoodDecBufferSize (w : Writer) : Z := maxBlockSize w.
Definition GoodEncBufferSize (w : Writer) : Z := wrap64 (maxBlockSize w + 40).

(** [binary.LittleEndian.PutUint64(b, v)] panics when [len(b) < 8]. *)
Definition PutUint64 (b : list byte) (v : Z) : outcome (list byte) :=
  if len b <? 8 then Panic else Done (le_bytes 8 v ++ skipn 8 b).

(** [bytes.Buffer.Next(n)]: the next [n] unread bytes (all of them when
    fewer remain) and the rest; a negative [n] is a slice out of range. *)
Definition Next (b : list byte) (n : Z) : outcome (list byte * list byte) :=
  if n <? 0 then Panic
  else Done (firstn (Z.to_nat n) b, skipn (Z.to_nat n) b).

Section WithSuite.
Context {suite : Suite}.

Definition emitHeaderIfNeeded (w : Writer) : Writer * option error :=
  if headerWritten w then (w, None)
  else
    let header := GenerateHeader (key w) (maxBlockSize w) (flags w) in
    let '(s', (_, err)) := sink_write (sink w) header in
    (mkWriter s' (key w) (nonce w) (encBuf w) (rbuf w) (blockCount w)
              true (maxBlockSize w) (flags w), err).

Definition flushPack (w : Writer) (pack : list byte)
  : outcome (Writer * (Z * option error)) :=
  nonce' <- PutUint64 (nonce w) (blockCount w) ;;
  let encBuf' := Seal (key w) (flags w) nonce' pack in
  let '(s1, (nNonce, err)) := sink_write (sink w) nonce' in
  match err with
  | Some e =>
      Done (mkWriter s1 (key w) nonce' encBuf' (rbuf w) (blockCount w)
                     (headerWritten w) (maxBlockSize w) (flags w),
            (nNonce, Some e))
  | None =>
      let '(s2, (nBuf, err2)) := sink_write s1 encBuf' in
      Done (mkWriter s2 (key w) nonce' encBuf' (rbuf w)
                     (wrapu64 (blockCount w + 1))
                     (headerWritten w) (maxBlockSize w) (flags w),
            (nNonce + nBuf, err2))
  end.

(** The loop of [Write]: flush the full blocks that are already buffered. *)
Fixpoint Write_loop (fuel : nat) (w : Writer) : outcome (Writer * option error) :=
  if len (rbuf w) >=? maxBlockSize w then
    match fuel with
    | O => OutOfFuel
    | S fuel' =>
        '(pack, rest) <- Next (rbuf w) (maxBlockSize w) ;;
        '(w1, (_, err)) <- flushPack (with_rbuf w rest) pack ;;
        match err with
        | Some e => Done (w1, Some e)
        | None => Write_loop fuel' w1
        end
    end
  else Done (w, None).

Definition Write (fuel : nat) (w : Writer) (p : list byte)
  : outcome (Writer * (Z * option error)) :=
  let '(w0, err) := emitHeaderIfNeeded w in
  match err with
  | Some e => Done (w0, (0, Some e))
  | None =>
      '(w1, err1) <- Write_loop fuel w0 ;;
      match err1 with
      | Some e => Done (w1, (0, Some e))
      | None => Done (with_rbuf w1 (rbuf w1 ++ p), (len p, None))
      end
  end.

(** The loop of [Close]: flush what is left, a block at a time. *)
Fixpoint Close_loop (fuel : nat) (w : Writer) : outcome (Writer * option error) :=
  if len (rbuf w) >? 0 then
    match fuel with
    | O => OutOfFuel
    | S fuel' =>
        let n := len (rbuf w) in
        let n := if n >? maxBlockSize w then maxBlockSize w else n in
        '(pack, rest) <- Next (rbuf w) n ;;
        '(w1, (_, err)) <- flushPack (with_rbuf w rest) pack ;;
        match err with
        | Some e => Done (w1, Some e)
        | None => Close_loop fuel' w1
        end
    end
  else Done (w, None).

Definition Close (fuel : nat) (w : Writer) : outcome (Writer * option error) :=
  let '(w0, err) := emitHeaderIfNeeded w in
  match err with
  | Some e => Done (w0, Some e)
  | None => Close_loop fuel w0
  end.

Definition is_eof (e : option error) : bool :=
  match e with
  | Some EOF | Some ErrUnexpectedEOF => true
  | _ => false
  end.

Definition is_nil (e : option error) : bool :=
  match e with
  | None => true
  | Some _ => false
  end.

(** The loop of [ReadFrom]; [n] and [nprev] are its two counters. *)
Fixpoint ReadFrom_loop (fuel : nat) (w : Writer) (r : Source) (n nprev : Z)
  : outcome (Writer * Source * (Z * option error)) :=
  match fuel with
  | O => OutOfFuel
  | S fuel' =>
      let '(r1, (chunk, rerr)) := ReadFull r defaultDecBufferSize in
      let nread := len chunk in
      if negb (is_nil rerr) && negb (is_eof rerr) then Done (w, r1, (n, rerr))
      else
        let n1 := wrap64 (n + nread) in
        (* Sanity check: was the previous block properly aligned? *)
        if (nprev >=? 0) && negb (nprev =? maxBlockSize w) && negb (is_eof rerr)
        then Done (w, r1, (n1, Some ErrBadBlockSize))
        else
          '(w2, werr) <-
             (if nread >? 0 then
                '(w1, (_, werr)) <- flushPack w chunk ;;
                Done (with_rbuf w1 [], werr)
              else Done (w, None)) ;;
          match werr with
          | Some e => Done (w2, r1, (n1, Some e))
          | None =>
              if is_eof rerr then Done (w2, r1, (n1, None))
              else ReadFrom_loop fuel' w2 r1 n1 nread
          end
  end.

Definition ReadFrom (fuel : nat) (w : Writer) (r : Source)
  : outcome (Writer * Source * (Z * option error)) :=
  let '(w0, err) := emitHeaderIfNeeded w in
  match err with
  | Some e => Done (w0, r, (0, Some e))
  | None =>
      if len (rbuf w0) >? 0 then Done (w0, r, (0, Some ErrMixedMethods))
      else ReadFrom_loop fuel w0 r 0 (-1)
  end.

(** [NewWriterWithBlockSize], once [cipherTypeBitFromFlags] and
    [initAeadCommon] have accepted the flags and the key.

    Modelled from the spec: the nonce is 12 bytes, and the 4 bytes after the
    counter are zero. *)
Definition NewWriterWithBlockSize (w : Sink) (k : list byte) (fl : Z) (bs : Z) : Writer :=
  mkWriter w k (repeat x00 12) [] [] 0 false bs fl.

Definition defaultMaxBlockSize : Z := 64 * 1024.

Definition NewWriter (w : Sink) (k : list byte) (fl : Z) : Writer :=
  NewWriterWithBlockSize w k fl defaultMaxBlockSize.

(** The calls a client can make, and the writers they lead to. *)
Inductive op : Type :=
| OpWrite (p : list byte)
| OpReadFrom (r : Source)
| OpClose.

Definition step (fuel : nat) (w : Writer) (o : op) : outcome Writer :=
  match o with
  | OpWrite p => r <- Write fuel w p ;; Done (fst r)
  | OpReadFrom src => r <- ReadFrom fuel w src ;; Done (fst (fst r))
  | OpClose => r <- Close fuel w ;; Done (fst r)
  end.

Inductive reachable (w0 : Writer) : Writer -> Prop :=
| reach_init : reachable w0 w0
| reach_step : forall w fuel o w',
    reachable w0 w -> step fuel w o = Done w' -> reachable w0 w'.

(** A client that hands the slices [ps] to [Write] one after the other and
    then calls [Close], stopping at the first error. *)
Fixpoint WriteAll (fuel : nat) (w : Writer) (ps : list (list byte))
  : outcome (Writer * option error) :=
  match ps with
  | [] => Close fuel w
  | p :: rest =>
      '(w1, (_, err)) <- Write fuel w p ;;
      match err with
      | Some e => Done (w1, Some e)
      | None => WriteAll fuel w1 rest
      end
  end.

End WithSuite.

(** The frames of an object, as the sink logged them: the write of the
    header, then for each frame the write of its nonce and the write of its
    sealed block. *)
Fixpoint frames_of (log : list (list byte)) : list (list byte * list byte) :=
  match log with
  | n :: c :: rest => (n, c) :: frames_of rest
  | _ => []
  end.

(** The nonce of the frame with index [i]. *)
Definition nonce_of (i : Z) : list byte := le_bytes 8 i ++ repeat x00 4.

(** The sink writes of the frames with the indices [start], [start + 1],
    ... over the plaintext blocks [packs]: for each one the nonce, then the
    sealed block.  [tail] is what follows the 8 counter bytes in the nonce. *)
Fixpoint frames_from {suite : Suite} (k : list byte) (fl : Z) (tail : list byte)
    (start : Z) (packs : list (list byte)) : list (list byte) :=
  match packs with
  | [] => []
  | p :: ps =>
      let n := le_bytes 8 start ++ tail in
      n :: Seal k fl n p :: frames_from k fl tail (start + 1) ps
  end.

(** The fields no operation assigns after construction. *)
Definition same_config (w w' : Writer) : Prop :=
  key w' = key w /\ flags w' = flags w /\ maxBlockSize w' = maxBlockSize w.

(** What a writer over a reliable sink has handed to it once the header is
    out: the header, then the frames of the blocks [packs] in order, numbered
    from 0, and the counter stands at their number. *)
Definition emitted {suite : Suite} (k : list byte) (fl bs : Z) (w : Writer)
    (packs : list (list byte)) : Prop :=
  key w = k /\ flags w = fl /\ maxBlockSize w = bs /\
  reliable (sink w) /\ headerWritten w = true /\
  8 <= len (nonce w) /\ skipn 8 (nonce w) = repeat x00 4 /\
  blockCount w = wrapu64 (len packs) /\
  accepted (sink w) =
    GenerateHeader k bs fl :: frames_from k fl (repeat x00 4) 0 packs.

(** A suite to run the model on: the sealed block is the plaintext followed
    by a 16-byte tag of zeros, the header 36 zero bytes. *)
#[local] Instance toy_suite : Suite := {|
  Seal := fun _ _ _ pt => pt ++ repeat x00 16;
  GenerateHeader := fun _ _ _ => repeat x00 36;
  GenerateHeader_length := fun _ _ _ => eq_refl
|}.

End Encrypt.

(** ** compress.Reader *)

Module Compress.

Import ChunkBuf.

(** An index record and the parsed trailer and header.  The Go types are
    [record], [trailer] and [header]; their files are not among the sources.

    Modelled from the spec: a record is two big-endian u64, [raw_off] then
    [zip_off] (the code holds them as int64: it compares them with -1 and
    with seek offsets); the trailer is [idx_sz] as a big-endian u64 followed
    by the 8 bytes "cztrail1"; the header is the 4 bytes "cz01", the
    algorithm as one byte, a flags byte and 6 reserved bytes. *)
Record record : Type := mkRecord { rawOff : Z; zipOff : Z }.
Record trailerT : Type := mkTrailer { indexSize : Z }.
Record headerT : Type := mkHeader { halgo : Z }.

Definition headerSize : Z := 12.
Definition trailerSize : Z := 16.
Definition indexChunkSize : Z := 16.

Definition magic : list byte := [x63; x7a; x30; x31].
Definition trailerMagic : list byte := [x63; x7a; x74; x72; x61; x69; x6c; x31].

Definition bytes_eqb (a b : list byte) : bool :=
  if list_eq_dec Byte.byte_eq_dec a b then true else false.

(** Modelled from the spec: [readHeader] validates the magic and reads the
    algorithm byte. *)
Definition readHeader (b : list byte) : headerT + error :=
  if bytes_eqb (firstn 4 b) magic
  then inl (mkHeader (Z_of_byte (nth 4 b x00)))
  else inr ErrBadMagic.

Definition makeHeader (algoType : Z) : list byte :=
  magic ++ [byte_of_Z algoType; x00] ++ repeat x00 6.

Definition record_unmarshal (b : list byte) : record :=
  mkRecord (wrap64 (be_value (firstn 8 b)))
           (wrap64 (be_value (firstn 8 (skipn 8 b)))).

Definition record_marshal (r : record) : list byte :=
  be_bytes 8 (rawOff r) ++ be_bytes 8 (zipOff r).

(** [trailer.unmarshal] returns nothing to its caller: it cannot reject. *)
Definition trailer_unmarshal (b : list byte) : trailerT :=
  mkTrailer (be_value (firstn 8 b)).

Definition trailer_marshal (t : trailerT) : list byte :=
  be_bytes 8 (indexSize t) ++ trailerMagic.

(** The [Algorithm] interface; [None] is a non-nil error. *)
Record Algorithm : Type := mkAlgorithm {
  Encode : list byte -> option (list byte);
  Decode : list byte -> option (list byte)
}.

(** [AlgorithmFromType], with the codecs it knows. *)
Class Codecs : Type := {
  AlgorithmFromType : Z -> option Algorithm
}.

(** The [io.ReadSeeker] under the reader, held in memory as [bytes.Reader]
    does: the object and the position of the next read. *)
Record RawR : Type := mkRawR { data : list byte; pos : Z }.

Definition raw_Seek (r : RawR) (offset whence : Z) : RawR * (Z * option error) :=
  if negb ((whence =? SeekStart) || (whence =? SeekCurrent) || (whence =? SeekEnd))
  then (r, (0, Some ErrInvalidWhence))
  else
    let abs :=
      if whence =? SeekStart then offset
      else if whence =? SeekCurrent then wrap64 (pos r + offset)
      else wrap64 (len (data r) + offset) in
    if abs <? 0 then (r, (0, Some ErrNegativePosition))
    else (mkRawR (data r) abs, (abs, None)).

(** The next [n] bytes from the position (fewer at the end of the data). *)
Definition raw_take (r : RawR) (n : Z) : list byte :=
  firstn (Z.to_nat n) (skipn (Z.to_nat (pos r)) (data r)).

(** [io.ReadFull(r.rawR, buf)] with [len(buf) = n]. *)
Definition raw_ReadFull (r : RawR) (n : Z) : RawR * (list byte * option error) :=
  if n <=? 0 then (r, ([], None))
  else
    let got := raw_take r n in
    (mkRawR (data r) (pos r + len got),
     (got, if len got =? n then None
           else if len got =? 0 then Some EOF else Some ErrUnexpectedEOF)).

(** [io.CopyN(dst, r.rawR, n)]: the bytes that reached [dst]. *)
Definition raw_CopyN (r : RawR) (n : Z) : RawR * (list byte * option error) :=
  if n <=? 0 then (r, ([], None))
  else
    let got := raw_take r n in
    (mkRawR (data r) (pos r + len got),
     (got, if len got =? n then None else Some EOF)).

Record Reader : Type := mkReader {
  rawR : RawR;
  index : list record;
  chunkBuf : ChunkBuffer;
  trailer : option trailerT;
  rawSeekOffset : Z;
  zipSeekOffset : Z;
  isInitialRead : bool;
  algo : option Algorithm;
  decodeBuf : list byte
}.

Definition set_rawR (r : Reader) (x : RawR) : Reader :=
  mkReader x (index r) (chunkBuf r) (trailer r) (rawSeekOffset r)
           (zipSeekOffset r) (isInitialRead r) (algo r) (decodeBuf r).
Definition set_index (r : Reader) (x : list record) : Reader :=
  mkReader (rawR r) x (chunkBuf r) (trailer r) (rawSeekOffset r)
           (zipSeekOffset r) (isInitialRead r) (algo r) (decodeBuf r).
Definition set_chunkBuf (r : Reader) (x : ChunkBuffer) : Reader :=
  mkReader (rawR r) (index r) x (trailer r) (rawSeekOffset r)
           (zipSeekOffset r) (isInitialRead r) (algo r) (decodeBuf r).
Definition set_trailer (r : Reader) (x : option trailerT) : Reader :=
  mkReader (rawR r) (index r) (chunkBuf r) x (rawSeekOffset r)
           (zipSeekOffset r) (isInitialRead r) (algo r) (decodeBuf r).
Definition set_rawSeekOffset (r : Reader) (x : Z) : Reader :=
  mkReader (rawR r) (index r) (chunkBuf r) (trailer r) x
           (zipSeekOffset r) (isInitialRead r) (algo r) (decodeBuf r).
Definition set_zipSeekOffset (r : Reader) (x : Z) : Reader :=
  mkReader (rawR r) (index r) (chunkBuf r) (trailer r) (rawSeekOffset r)
           x (isInitialRead r) (algo r) (decodeBuf r).
Definition set_isInitialRead (r : Reader) (x : bool) : Reader :=
  mkReader (rawR r) (index r) (chunkBuf r) (trailer r) (rawSeekOffset r)
           (zipSeekOffset r) x (algo r) (decodeBuf r).
Definition set_algo (r : Reader) (x : option Algorithm) : Reader :=
  mkReader (rawR r) (index r) (chunkBuf r) (trailer r) (rawSeekOffset r)
           (zipSeekOffset r) (isInitialRead r) x (decodeBuf r).
Definition set_decodeBuf (r : Reader) (x : list byte) : Reader :=
  mkReader (rawR r) (index r) (chunkBuf r) (trailer r) (rawSeekOffset r)
           (zipSeekOffset r) (isInitialRead r) (algo r) x.

(** [sort.Search(n, f)]: the binary search of Go's library. *)
Fixpoint search_loop (fuel i j : nat) (f : nat -> bool) : nat :=
  match fuel with
  | O => i
  | S fuel' =>
      if (i <? j)%nat then
        let h := ((i + j) / 2)%nat in
        if negb (f h) then search_loop fuel' (h + 1)%nat j f
        else search_loop fuel' i h f
      else i
  end.

Definition Search (n : nat) (f : nat -> bool) : nat := search_loop n 0%nat n f.

(** [r.index[i]], which panics out of range. *)
Definition index_at (l : list record) (i : nat) : outcome record :=
  match nth_error l i with
  | Some x => Done x
  | None => Panic
  end.

Definition chunkLookup (r : Reader) (currOff : Z) (isRawOff : bool)
  : outcome (record * record) :=
  let i := Search (length (index r)) (fun i =>
             let e := nth i (index r) (mkRecord 0 0) in
             if isRawOff then rawOff e >? currOff else zipOff e >? currOff) in
  if (i =? 0)%nat then
    a <- index_at (index r) i ;;
    b <- index_at (index r) (i + 1) ;;
    Done (a, b)
  else if (i =? length (index r))%nat then
    a <- index_at (index r) (i - 1) ;;
    Done (a, a)
  else
    a <- index_at (index r) (i - 1) ;;
    b <- index_at (index r) i ;;
    Done (a, b).

(** The loop that builds the index.  [prevRecord] is declared before the
    loop and is not assigned in it: every record is compared with the
    [record{-1, -1}] it starts as. *)
Fixpoint parse_index (count : nat) (indexBuf : list byte) (prevRecord : record)
    (idx : list record) : list record * option error :=
  match count with
  | O => (idx, None)
  | S count' =>
      let currRecord := record_unmarshal indexBuf in
      if rawOff prevRecord >=? rawOff currRecord then (idx, Some ErrBadIndex)
      else if zipOff prevRecord >=? zipOff currRecord then (idx, Some ErrBadIndex)
      else parse_index count' (skipn (Z.to_nat indexChunkSize) indexBuf)
                       prevRecord (idx ++ [currRecord])
  end.

(** The layout of a compressed object with the index [idx].

    Modelled from the spec: header, body, the index as a flat array of
    records, and the trailer that holds the size of the index in bytes. *)
Definition index_bytes (idx : list record) : list byte :=
  concat (map record_marshal idx).

Definition object (algoType : Z) (body : list byte) (idx : list record) : list byte :=
  makeHeader algoType ++ body ++ index_bytes idx
  ++ trailer_marshal (mkTrailer (len (index_bytes idx))).

(** Successive records do not decrease, in either field. *)
Definition ordered (idx : list record) : Prop :=
  StronglySorted (fun a b => rawOff a <= rawOff b /\ zipOff a <= zipOff b) idx.

(** The sentinels of an index: its last and its first record. *)
Definition last_record (idx : list record) : record := List.last idx (mkRecord 0 0).

Definition first_record (idx : list record) : record := hd (mkRecord 0 0) idx.

(** The field of a record that a lookup compares. *)
Definition field (isRawOff : bool) (e : record) : Z :=
  if isRawOff then rawOff e else zipOff e.

(** Where a seek is aimed at: the absolute offset that [Seek] computes. *)
Definition seek_target (endOff curOff : Z) (off whence : Z) : Z :=
  if whence =? SeekEnd then wrap64 (endOff + off)
  else if whence =? SeekCurrent then wrap64 (curOff + off)
  else off.

(** The reader after a seek to [dest], at or beyond the last record [l]:
    the compressed cursor is at the end of the body, the plaintext cursor is
    [dest], and the chunk buffer is empty. *)
Definition at_end (r : Reader) (l : record) (dest : Z) : Reader :=
  mkReader (rawR r) (index r) (mkChunkBuffer [] 0 0 0) (trailer r)
           (zipOff l) dest (isInitialRead r) (algo r) (decodeBuf r).

(** The codec gives back what it was given, and never encodes a chunk that
    is not empty as nothing. *)
Definition codec_ok (a : Algorithm) : Prop :=
  forall c, c <> [] -> exists z, Encode a c = Some z /\ z <> [] /\ Decode a z = Some c.

(** The records [recs], the first of them at the offsets [raw] and [zip],
    delimit in [obj] the compressed forms of the chunks [cs]: each one lies
    at its record's [zipOff], is not empty, ends where the next record says,
    and decodes to its chunk. *)
Inductive laid (a : Algorithm) (obj : list byte)
  : Z -> Z -> list record -> list (list byte) -> Prop :=
| laid_end : forall raw zip, laid a obj raw zip [mkRecord raw zip] []
| laid_cons : forall raw zip z c rest cs front back,
    obj = front ++ z ++ back -> len front = zip -> 0 < len z ->
    Decode a z = Some c ->
    laid a obj (raw + len c) (zip + len z) rest cs ->
    laid a obj raw zip (mkRecord raw zip :: rest) (c :: cs).

(** The reader between two reads of a sequential pass: the records before
    the cursor are [pre], the cursor is at the first record of [suffix], the
    chunks still to load are [cs], and the chunk buffer holds [cur]. *)
Definition reading (a : Algorithm) (obj : list byte) (r : Reader)
    (pre suffix : list record) (raw zip : Z) (cs : list (list byte))
    (cur : list byte) : Prop :=
  index r = pre ++ suffix /\
  laid a obj raw zip suffix cs /\
  (forall x, In x pre -> zipOff x <= zip) /\
  rawSeekOffset r = zip /\
  trailer r <> None /\ algo r = Some a /\ data (rawR r) = obj /\
  0 <= readOff (chunkBuf r) <= size (chunkBuf r) /\
  size (chunkBuf r) = len (buf (chunkBuf r)) /\
  size (chunkBuf r) < 2 ^ 63 /\
  skipn (Z.to_nat (readOff (chunkBuf r))) (buf (chunkBuf r)) = cur.

(** A reader that has parsed the index of [obj]: the index delimits the
    chunks [cs], the first of them at the compressed offset [zip0], and the
    chunk buffer is in bounds. *)
Definition opened (a : Algorithm) (obj : list byte) (r : Reader)
    (zip0 : Z) (cs : list (list byte)) : Prop :=
  laid a obj 0 zip0 (index r) cs /\ cs <> [] /\
  trailer r <> None /\ algo r = Some a /\ data (rawR r) = obj /\
  isInitialRead r = false /\
  0 <= readOff (chunkBuf r) <= size (chunkBuf r) /\
  size (chunkBuf r) = len (buf (chunkBuf r)) /\
  size (chunkBuf r) < 2 ^ 63.

Section WithCodecs.
Context {codecs : Codecs}.

Definition parseTrailerIfNeeded (r : Reader) : outcome (Reader * option error) :=
  match trailer r with
  | Some _ => Done (r, None)
  | None =>
      (* Attempt to read the front header. *)
      let '(raw1, (headerBuf, err)) := raw_ReadFull (rawR r) headerSize in
      let r := set_rawR r raw1 in
      match err with
      | Some e => Done (r, Some e)
      | None =>
      match readHeader headerBuf with
      | inr e => Done (r, Some e)
      | inl hdr =>
      (* Go to the end of the file and read the trailer buffer. *)
      let '(raw2, (_, err)) := raw_Seek (rawR r) (- trailerSize) SeekEnd in
      let r := set_rawR r raw2 in
      match err with
      | Some e => Done (r, Some e)
      | None =>
      let '(raw3, (tbuf, err)) := raw_ReadFull (rawR r) trailerSize in
      let r := set_rawR r raw3 in
      match err with
      | Some e => Done (r, Some e)
      | None =>
      if negb (len tbuf =? trailerSize) then Done (r, Some ErrTrailerTooSmall)
      else
      let t := trailer_unmarshal tbuf in
      let r := set_trailer r (Some t) in
      match AlgorithmFromType (halgo hdr) with
      | None => Done (r, Some ErrBadAlgo)
      | Some a =>
      let r := set_algo r (Some a) in
      (* Seek and read the index into a buffer. *)
      let seekIdx := wrap64 (- wrap64 (wrap64 (indexSize t) + trailerSize)) in
      let '(raw4, (_, err)) := raw_Seek (rawR r) seekIdx SeekEnd in
      let r := set_rawR r raw4 in
      match err with
      | Some e => Done (r, Some e)
      | None =>
      if indexSize t >? maxInt then Panic   (* make: len out of range *)
      else
      let '(raw5, (indexBuf, err)) := raw_ReadFull (rawR r) (indexSize t) in
      let r := set_rawR r raw5 in
      match err with
      | Some e => Done (r, Some e)
      | None =>
      let '(idx, err) :=
        parse_index (Z.to_nat (indexSize t / indexChunkSize)) indexBuf
                    (mkRecord (-1) (-1)) (index r) in
      let r := set_index r idx in
      match err with
      | Some e => Done (r, Some e)
      | None =>
      (* Set the reader to the beginning of the file. *)
      let '(raw6, (_, err)) := raw_Seek (rawR r) headerSize SeekStart in
      let r := set_rawR r raw6 in
      match err with
      | Some e => Done (r, Some e)
      | None =>
      Done (set_zipSeekOffset (set_rawSeekOffset r headerSize) 0, None)
      end end end end end end end end end
  end.

Definition fixZipChunk (r : Reader) : outcome (Reader * (Z * option error)) :=
  (* The start and end record of the chunk the offset is located in. *)
  '(prevRecord, currRecord) <- chunkLookup r (rawSeekOffset r) false ;;
  let chunkSize := wrap64 (zipOff currRecord - zipOff prevRecord) in
  if chunkSize =? 0 then Done (r, (0, Some EOF))
  else
    let '(raw1, (_, err)) := raw_Seek (rawR r) (zipOff prevRecord) SeekStart in
    let r := set_rawR r raw1 in
    match err with
    | Some e => Done (r, (0, Some e))
    | None =>
        let r := set_rawSeekOffset r (zipOff currRecord) in
        let r := set_zipSeekOffset r (rawOff prevRecord) in
        let r := set_isInitialRead r false in
        Done (r, (chunkSize, None))
    end.

(** [readZipChunk]; the decoded chunk is [None] for Go's [nil].  The call
    [r.chunkBuf.Reset()] empties the chunk buffer. *)
Definition readZipChunk (r : Reader)
  : outcome (Reader * (option (list byte) * option error)) :=
  let r := set_chunkBuf r (Reset (chunkBuf r) []) in
  '(r, (chunkSize, err)) <- fixZipChunk r ;;
  match err with
  | Some e => Done (r, (None, Some e))
  | None =>
      let '(raw1, (zipped, err)) := raw_CopyN (rawR r) chunkSize in
      let r := set_decodeBuf (set_rawR r raw1) zipped in
      match err with
      | Some e => Done (r, (None, Some e))
      | None =>
          match algo r with
          | None => Panic   (* a method call on a nil interface *)
          | Some a =>
              match Decode a (decodeBuf r) with
              | None => Done (r, (None, Some ErrDecode))
              | Some decData =>
                  Done (set_chunkBuf r (NewChunkBuffer (Some decData)),
                        (Some decData, None))
              end
          end
      end
  end.

Definition seekStart (r : Reader) (destOff : Z) : outcome (Reader * (Z * option error)) :=
  '(r, err) <- parseTrailerIfNeeded r ;;
  match err with
  | Some e => Done (r, (0, Some e))
  | None =>
      if destOff <? 0 then Done (r, (0, Some EOF))
      else
        '(destRecord, _) <- chunkLookup r destOff true ;;
        '(currRecord, _) <- chunkLookup r (zipSeekOffset r) true ;;
        let r := set_rawSeekOffset r (zipOff destRecord) in
        let r := set_zipSeekOffset r destOff in
        (* Don't re-read if the offset is in the current chunk. *)
        '(r, stop) <-
           (if negb (rawOff currRecord =? rawOff destRecord) || negb (isInitialRead r)
            then
              '(r, (_, err)) <- readZipChunk r ;;
              match err with
              | Some EOF | None => Done (r, None)
              | Some e => Done (r, Some e)
              end
            else Done (r, None)) ;;
        match stop with
        | Some e => Done (r, (0, Some e))
        | None =>
            let toRead := wrap64 (destOff - rawOff destRecord) in
            let '(cb, (_, err)) := ChunkBuf.Seek (chunkBuf r) toRead SeekStart in
            let r := set_chunkBuf r cb in
            match err with
            | Some e => Done (r, (0, Some e))
            | None => Done (r, (destOff, None))
            end
        end
  end.

(** [Seek]: the end-relative and the current-relative case compute an
    absolute offset and call [Seek] again with [io.SeekStart]; every other
    [whence] runs the body below the switch. *)
Definition Seek (r : Reader) (destOff whence : Z) : outcome (Reader * (Z * option error)) :=
  if whence =? SeekEnd then
    if destOff >? 0 then Done (r, (0, Some EOF))
    else
      '(r, err) <- parseTrailerIfNeeded r ;;
      match err with
      | Some e => Done (r, (0, Some e))
      | None =>
          last <- index_at (index r) (length (index r) - 1) ;;
          seekStart r (wrap64 (rawOff last + destOff))
      end
  else if whence =? SeekCurrent then
    seekStart r (wrap64 (zipSeekOffset r + destOff))
  else seekStart r destOff.

(** The first block of the loop of [Read]: serve from the chunk buffer when
    it holds bytes.  [plen] is what is left of [p], [acc] the bytes put into
    [p] so far; the last component is the error the loop returns with. *)
Definition serveChunk (r : Reader) (plen : Z) (acc : list byte)
  : outcome (Reader * Z * list byte * option error) :=
  if negb (Len (chunkBuf r) =? 0) then
    '(cb, (got, err)) <- ChunkBuf.Read (chunkBuf r) plen ;;
    let r := set_chunkBuf r cb in
    match err with
    | Some EOF | None =>
        (* io.EOF says that the chunk is exhausted: look at the next one. *)
        let n := len got in
        Done (set_zipSeekOffset r (wrap64 (zipSeekOffset r + n)),
              plen - n, acc ++ got, None)
    | Some e => Done (r, plen, firstn (length got) (acc ++ got), Some e)
    end
  else Done (r, plen, acc, None).

(** The loop of [Read]. *)
Fixpoint Read_loop (fuel : nat) (r : Reader) (plen : Z) (acc : list byte)
  : outcome (Reader * (list byte * option error)) :=
  match fuel with
  | O => OutOfFuel
  | S fuel' =>
      '(r, plen, acc, stop) <- serveChunk r plen acc ;;
      match stop with
      | Some e => Done (r, (acc, Some e))
      | None =>
          if plen =? 0 then Done (r, (acc, None))
          else
            '(r, (_, err)) <- readZipChunk r ;;
            match err with
            | Some e => Done (r, (acc, Some e))
            | None => Read_loop fuel' r plen acc
            end
      end
  end.

(** [Read] with [len(p) = plen]: the bytes read into [p] and the error. *)
Definition Read (fuel : nat) (r : Reader) (plen : Z)
  : outcome (Reader * (list byte * option error)) :=
  '(r, err) <- parseTrailerIfNeeded r ;;
  match err with
  | Some e => Done (r, ([], Some e))
  | None => Read_loop fuel r plen []
  end.

Definition NewReader (r : RawR) : Reader :=
  mkReader r [] (NewChunkBuffer (Some [])) None 0 0 false None [].

(** Reading a stream to its end, as [io.ReadAll] does: [Read] is called
    with a buffer of [plen] bytes until it returns an error, and io.EOF is
    the good end. *)
Fixpoint ReadAll (fuel readFuel : nat) (r : Reader) (plen : Z) (acc : list byte)
  : outcome (Reader * (list byte * option error)) :=
  match fuel with
  | O => OutOfFuel
  | S fuel' =>
      '(r, (got, err)) <- Read readFuel r plen ;;
      match err with
      | Some EOF => Done (r, (acc ++ got, None))
      | Some e => Done (r, (acc ++ got, Some e))
      | None => ReadAll fuel' readFuel r plen (acc ++ got)
      end
  end.

(** The loop of [WriteTo]: load the next chunk and hand it to the writer. *)
Fixpoint WriteTo_loop (fuel : nat) (r : Reader) (w : Sink) (written : Z)
  : outcome (Reader * Sink * (Z * option error)) :=
  match fuel with
  | O => OutOfFuel
  | S fuel' =>
      '(r, (decData, rerr)) <- readZipChunk r ;;
      match rerr with
      | Some EOF => Done (r, w, (written, None))
      | Some e => Done (r, w, (written, Some e))
      | None =>
          let '(w, (n, werr)) :=
            sink_write w (match decData with Some d => d | None => [] end) in
          let written := wrap64 (written + n) in
          match werr with
          | Some e => Done (r, w, (written, Some e))
          | None => WriteTo_loop fuel' r w written
          end
      end
  end.

(** [WriteTo]; [io.Copy(w, r.chunkBuf)] is [r.chunkBuf.WriteTo(w)], since
    the chunk buffer implements [io.WriterTo]. *)
Definition WriteTo (fuel : nat) (r : Reader) (w : Sink)
  : outcome (Reader * Sink * (Z * option error)) :=
  '(r, err) <- parseTrailerIfNeeded r ;;
  match err with
  | Some e => Done (r, w, (0, Some e))
  | None =>
      '(cb, w, (n, cerr)) <- ChunkBuf.WriteTo (chunkBuf r) w ;;
      let r := set_chunkBuf r cb in
      match cerr with
      | Some e => Done (r, w, (n, Some e))
      | None => WriteTo_loop fuel r w (wrap64 (0 + n))
      end
  end.

(** A compressed object with the index [idx] over [total] plaintext bytes,
    as the data model of the specification describes it: the layout, an
    index of two records or more whose fields do not decrease, the first
    record at raw offset 0, the last at raw offset [total]. *)
Definition well_formed (obj : list byte) (idx : list record) (total : Z) : Prop :=
  (exists t body, obj = object t body idx /\ 0 <= t < 256 /\
                  AlgorithmFromType t <> None) /\
  (2 <= length idx)%nat /\ ordered idx /\
  rawOff (first_record idx) = 0 /\ 0 <= zipOff (first_record idx) /\
  rawOff (last_record idx) = total /\
  total < 2 ^ 63 /\ zipOff (last_record idx) < 2 ^ 63 /\
  len obj < 2 ^ 63.

(** A reader over [obj]: a new one, or one that has parsed the index. *)
Definition attached (obj : list byte) (idx : list record) (r : Reader) : Prop :=
  r = NewReader (mkRawR obj 0) \/
  (trailer r <> None /\ index r = idx /\ isInitialRead r = false).

End WithCodecs.

End Compress.

(** ** The compressor, from the specification *)

Module CompressWriter.

Import Compress.

(** Modelled from the spec: the compressing [Writer] is not among the
    sources.  Section 4.2 of the specification describes it: constructed
    with a sink and an algorithm choice, it emits the 12-byte header at once,
    buffers its input into chunks of a target size (64 KiB), and on each
    flush (1) records [(raw_off, zip_off)] of the current position, (2)
    compresses the chunk, (3) writes the compressed bytes, (4) advances both
    offsets.  On close it writes a final sentinel record, then the index as
    a flat array, then the trailer.  The index holds at least two records,
    the start sentinel at offset 0 and the end sentinel, even for empty
    input.

    [zip0] is the [zip_off] of the first record.  The data model of the
    specification says that [zip_off] is an offset in the body and that the
    first record has [zip_off = 0]: that writer is [NewWriter].  The sink is
    held in memory and accepts every write. *)
Record Writer : Type := mkWriter {
  out : list byte;
  pendingBuf : list byte;
  windex : list record;
  raw_off : Z;
  zip_off : Z;
  walgo : Algorithm;
  chunkSize : Z;
  closed : bool
}.

Definition targetChunkSize : Z := 64 * 1024.

Section WithCodecs.
Context {codecs : Codecs}.

(** Modelled from the spec: fails with UnknownAlgorithm ([None]). *)
Definition NewWriterAt (zip0 : Z) (algoType : Z) (cs : Z) : option Writer :=
  match AlgorithmFromType algoType with
  | None => None
  | Some a => Some (mkWriter (makeHeader (algoType)) [] [] 0 zip0 a cs false)
  end.

Definition NewWriter (algoType : Z) (cs : Z) : option Writer :=
  NewWriterAt 0 algoType cs.

Definition addRecord (w : Writer) : Writer :=
  mkWriter (out w) (pendingBuf w) (windex w ++ [mkRecord (raw_off w) (zip_off w)])
           (raw_off w) (zip_off w) (walgo w) (chunkSize w) (closed w).

(** Modelled from the spec: one flush, steps (1) to (4). *)
Definition flush (w : Writer) (chunk : list byte) : option Writer :=
  let w := addRecord w in
  match Encode (walgo w) chunk with
  | None => None
  | Some z =>
      Some (mkWriter (out w ++ z) (pendingBuf w) (windex w)
                     (raw_off w + len chunk) (zip_off w + len z)
                     (walgo w) (chunkSize w) (closed w))
  end.

Definition set_pending (w : Writer) (b : list byte) : Writer :=
  mkWriter (out w) b (windex w) (raw_off w) (zip_off w) (walgo w)
           (chunkSize w) (closed w).

(** Flush the chunks [cs] one after the other. *)
Fixpoint flush_all (w : Writer) (cs : list (list byte)) : option Writer :=
  match cs with
  | [] => Some w
  | c :: rest =>
      match flush w c with
      | None => None
      | Some w' => flush_all w' rest
      end
  end.

(** Modelled from the spec: the input is buffered, every full chunk that
    is buffered is flushed, and the residue stays in the buffer.  Fails with
    AlreadyClosed on a closed writer. *)
Definition Write (w : Writer) (p : list byte) : option Writer :=
  if closed w then None
  else
    let b := pendingBuf w ++ p in
    flush_all (set_pending w (residue (chunkSize w) b)) (full_blocks (chunkSize w) b).

(** Modelled from the spec: flush what is left, make sure the start
    sentinel is there, add the end sentinel, write index and trailer. *)
Definition Close (w : Writer) : option Writer :=
  if closed w then None
  else
    match (match pendingBuf w with
           | [] => Some w
           | _ => flush (set_pending w []) (pendingBuf w)
           end) with
    | None => None
    | Some w =>
        let w := match windex w with [] => addRecord w | _ => w end in
        let w := addRecord w in
        let indexBuf := concat (map record_marshal (windex w)) in
        let t := mkTrailer (len indexBuf) in
        Some (mkWriter (out w ++ indexBuf ++ trailer_marshal t) [] (windex w)
                       (raw_off w) (zip_off w) (walgo w) (chunkSize w) true)
    end.

(** The object the compressor produces for the plaintext [p]. *)
Definition compress_at (zip0 algoType cs : Z) (p : list byte) : option (list byte) :=
  match NewWriterAt zip0 algoType cs with
  | None => None
  | Some w =>
      match Write w p with
      | None => None
      | Some w =>
          match Close w with
          | None => None
          | Some w => Some (out w)
          end
      end
  end.

Definition compress (algoType cs : Z) (p : list byte) : option (list byte) :=
  compress_at 0 algoType cs p.

End WithCodecs.

(** The body and the records that flushing the chunks [cs] adds, from the
    offsets [raw] and [zip] on, and the offsets after the last chunk. *)
Fixpoint lay (a : Algorithm) (raw zip : Z) (cs : list (list byte))
  : option (list byte * list record * (Z * Z)) :=
  match cs with
  | [] => Some ([], [], (raw, zip))
  | c :: rest =>
      match Encode a c with
      | None => None
      | Some z =>
          match lay a (raw + len c) (zip + len z) rest with
          | None => None
          | Some (body, recs, fin) => Some (z ++ body, mkRecord raw zip :: recs, fin)
          end
      end
  end.

(** The index the writer closes with: the records of the chunks (the start
    sentinel if there is none) and the end sentinel. *)
Definition closing_index (recs : list record) (fin : Z * Z) : list record :=
  match recs with
  | [] => [mkRecord (fst fin) (snd fin); mkRecord (fst fin) (snd fin)]
  | _ => recs ++ [mkRecord (fst fin) (snd fin)]
  end.

(** Codecs to run the model on: type 0 stores the chunk as it is, type 1
    puts a marker byte in front of it. *)
Definition toy_none : Algorithm := mkAlgorithm (fun c => Some c) (fun z => Some z).

Definition toy_mark : Algorithm :=
  mkAlgorithm (fun c => Some (x01 :: c))
              (fun z => match z with
                        | x01 :: c => Some c
                        | _ => None
                        end).

#[local] Instance toy_codecs : Codecs := {|
  AlgorithmFromType := fun t =>
    if t =? 0 then Some toy_none
    else if t =? 1 then Some toy_mark
    else None
|}.


(** A small object to run the reader on: one stored byte, the index
    [(0, 12); (1, 13)]. *)
Definition sample_index : list record := [mkRecord 0 12; mkRecord 1 13].
Definition sample_object : list byte := object 0 [x41] sample_index.

(** An object whose index goes down: the second record is before the
    first in both fields. *)
Definition decreasing_index : list record := [mkRecord 4 16; mkRecord 0 12].
Definition decreasing_object : list byte :=
  object 0 [x41; x42; x43; x44] decreasing_index.

(** An object of two stored chunks of two bytes each, and the reader that
    has parsed it. *)
Definition two_chunk_index : list record :=
  [mkRecord 0 12; mkRecord 2 14; mkRecord 4 16].

Definition two_chunks : list (list byte) := [[x41; x42]; [x43; x44]].

Definition two_chunk_object : list byte := object 0 (concat two_chunks) two_chunk_index.

Definition two_chunk_reader : Reader :=
  mkReader (mkRawR two_chunk_object headerSize) two_chunk_index
           (ChunkBuf.NewChunkBuffer (Some [])) (Some (mkTrailer 48))
           headerSize 0 false (Some toy_none) [].

(** An object with an index of no record, and the reader that has parsed
    it. *)
Definition no_record_object : list byte := object 0 [] [].

Definition no_record_reader : Reader :=
  mkReader (mkRawR no_record_object headerSize) []
           (ChunkBuf.NewChunkBuffer (Some [])) (Some (mkTrailer 0))
           headerSize 0 false (Some toy_none) [].

(** An object whose index says that the only chunk ends at the compressed
    offset 1000, far behind the end of the object. *)
Definition overlong_index : list record := [mkRecord 0 12; mkRecord 4 1000].

Definition overlong_object : list byte := object 0 [x41] overlong_index.

Definition overlong_reader : Reader :=
  mkReader (mkRawR overlong_object headerSize) overlong_index
           (ChunkBuf.NewChunkBuffer (Some [])) (Some (mkTrailer 32))
           headerSize 0 false (Some toy_none) [].

End CompressWriter.


(** * Properties *)

(** ** Lists, lengths and machine integers *)

Module GoFacts.

Lemma len_nonneg {A : Type} (s : list A) : 0 <= len s.
Proof. unfold len. lia. Qed.

Lemma len_nil {A : Type} : len (@nil A) = 0.
Proof. reflexivity. Qed.

Lemma len_app {A : Type} (s t : list A) : len (s ++ t) = len s + len t.
Proof. unfold len. rewrite length_app. lia. Qed.

Lemma len_cons {A : Type} (a : A) (s : list A) : len (a :: s) = 1 + len s.
Proof. unfold len. cbn [length]. lia. Qed.

Lemma len_firstn {A : Type} (n : Z) (s : list A) :
  0 <= n -> len (firstn (Z.to_nat n) s) = Z.min n (len s).
Proof. intros Hn. unfold len. rewrite length_firstn. lia. Qed.

Lemma len_skipn {A : Type} (n : Z) (s : list A) :
  0 <= n -> len (skipn (Z.to_nat n) s) = Z.max 0 (len s - n).
Proof. intros Hn. unfold len. rewrite length_skipn. lia. Qed.

Lemma len_zero_nil {A : Type} (s : list A) : len s = 0 -> s = [].
Proof. destruct s; [reflexivity | unfold len; cbn [length]; lia]. Qed.

Lemma len_repeat {A : Type} (a : A) (n : nat) : len (repeat a n) = Z.of_nat n.
Proof. unfold len. now rewrite repeat_length. Qed.

Lemma wrap64_small (z : Z) : - 2 ^ 63 <= z < 2 ^ 63 -> wrap64 z = z.
Proof.
  intros H. unfold wrap64.
  rewrite Z.mod_small by lia. lia.
Qed.

Lemma wrap64_range (z : Z) : - 2 ^ 63 <= wrap64 z < 2 ^ 63.
Proof.
  unfold wrap64.
  pose proof (Z.mod_pos_bound (z + 2 ^ 63) (2 ^ 64) ltac:(lia)). lia.
Qed.

Lemma wrapu64_small (z : Z) : 0 <= z < 2 ^ 64 -> wrapu64 z = z.
Proof. intros H. unfold wrapu64. now apply Z.mod_small. Qed.

Lemma slice_ok (s : list byte) (lo hi : Z) :
  0 <= lo <= hi -> hi <= len s ->
  slice s lo hi = Done (firstn (Z.to_nat (hi - lo)) (skipn (Z.to_nat lo) s)).
Proof.
  intros H1 H2. unfold slice.
  replace (0 <=? lo) with true by (symmetry; apply Z.leb_le; lia).
  replace (lo <=? hi) with true by (symmetry; apply Z.leb_le; lia).
  replace (hi <=? len s) with true by (symmetry; apply Z.leb_le; lia).
  reflexivity.
Qed.

Lemma slice_negative (s : list byte) (lo hi : Z) : lo < 0 -> slice s lo hi = Panic.
Proof.
  intros H. unfold slice.
  replace (0 <=? lo) with false by (symmetry; apply Z.leb_gt; lia).
  reflexivity.
Qed.

Lemma len_slice (s : list byte) (lo hi : Z) :
  0 <= lo <= hi -> hi <= len s ->
  len (firstn (Z.to_nat (hi - lo)) (skipn (Z.to_nat lo) s)) = hi - lo.
Proof.
  intros H1 H2. rewrite len_firstn by lia. rewrite len_skipn by lia. lia.
Qed.

Lemma Z_of_byte_range (b : byte) : 0 <= Z_of_byte b < 256.
Proof.
  unfold Z_of_byte. pose proof (Byte.to_N_bounded b). lia.
Qed.

Lemma Z_of_byte_of_Z (z : Z) : Z_of_byte (byte_of_Z z) = z mod 256.
Proof.
  unfold Z_of_byte, byte_of_Z.
  pose proof (Z.mod_pos_bound z 256 ltac:(lia)) as Hb.
  destruct (Byte.of_N (Z.to_N (z mod 256))) as [b|] eqn:E.
  - apply Byte.to_of_N in E. rewrite E. lia.
  - apply Byte.of_N_None_iff in E. lia.
Qed.

Lemma byte_of_Z_mod (z : Z) : byte_of_Z (z mod 256) = byte_of_Z z.
Proof. unfold byte_of_Z. now rewrite Z.mod_mod by lia. Qed.

Lemma length_le_bytes (n : nat) (z : Z) : length (le_bytes n z) = n.
Proof. revert z. induction n; intros z; cbn [le_bytes length]; auto. Qed.

Lemma le_value_le_bytes (n : nat) (z : Z) :
  le_value (le_bytes n z) = z mod 256 ^ Z.of_nat n.
Proof.
  revert z. induction n as [|n IH]; intros z.
  - cbn. now rewrite Z.mod_1_r.
  - cbn [le_bytes le_value]. rewrite IH, Z_of_byte_of_Z.
    rewrite Nat2Z.inj_succ, Z.pow_succ_r by lia.
    rewrite Z.rem_mul_r by lia. reflexivity.
Qed.

Lemma le_bytes_mod (n : nat) (z : Z) :
  le_bytes n (z mod 256 ^ Z.of_nat n) = le_bytes n z.
Proof.
  revert z. induction n as [|n IH]; intros z; [reflexivity|].
  cbn [le_bytes].
  rewrite Nat2Z.inj_succ, Z.pow_succ_r by lia.
  assert (Hp : 0 < 256 ^ Z.of_nat n) by (apply Z.pow_pos_nonneg; lia).
  f_equal.
  - rewrite <- (byte_of_Z_mod (z mod _)), <- (byte_of_Z_mod z). f_equal.
    rewrite Z.rem_mul_r by lia.
    rewrite (Z.mul_comm 256), Z.mod_add by lia. now rewrite Z.mod_mod by lia.
  - replace (z mod (256 * 256 ^ Z.of_nat n) / 256)
      with ((z / 256) mod 256 ^ Z.of_nat n); [apply IH|].
    rewrite Z.rem_mul_r by lia.
    rewrite (Z.mul_comm 256), Z.div_add by lia.
    rewrite (Z.div_small (z mod 256)) by (apply Z.mod_pos_bound; lia).
    reflexivity.
Qed.

Lemma le_bytes_inj (n : nat) (a b : Z) :
  0 <= a < 256 ^ Z.of_nat n -> 0 <= b < 256 ^ Z.of_nat n ->
  le_bytes n a = le_bytes n b -> a = b.
Proof.
  intros Ha Hb H. apply (f_equal le_value) in H.
  rewrite !le_value_le_bytes in H.
  now rewrite !Z.mod_small in H by assumption.
Qed.

Lemma be_value_be_bytes (n : nat) (z : Z) :
  be_value (be_bytes n z) = z mod 256 ^ Z.of_nat n.
Proof. unfold be_value, be_bytes. rewrite rev_involutive. apply le_value_le_bytes. Qed.

Lemma length_be_bytes (n : nat) (z : Z) : length (be_bytes n z) = n.
Proof. unfold be_bytes. rewrite length_rev. apply length_le_bytes. Qed.

(** Cutting into blocks. *)

Lemma blocks_nil (bs : Z) : 0 < bs -> blocks bs [] = [].
Proof.
  intros H. unfold blocks, full_blocks. rewrite (@len_nil byte).
  rewrite Z.div_0_l, Z.mod_0_l by lia. reflexivity.
Qed.

Lemma blocks_short (bs : Z) (b : list byte) :
  0 < len b < bs -> blocks bs b = [b].
Proof.
  intros H. unfold blocks, full_blocks, residue.
  rewrite Z.div_small, Z.mod_small by lia.
  replace (len b =? 0) with false by (symmetry; apply Z.eqb_neq; lia).
  reflexivity.
Qed.

Lemma blocks_step (bs : Z) (b : list byte) :
  0 < bs <= len b ->
  blocks bs b =
  firstn (Z.to_nat bs) b :: blocks bs (skipn (Z.to_nat bs) b).
Proof.
  intros H. unfold blocks, full_blocks, residue.
  rewrite len_skipn by lia. rewrite Z.max_r by lia.
  assert (Hq : len b / bs = (len b - bs) / bs + 1).
  { replace (len b) with ((len b - bs) + 1 * bs) at 1 by lia.
    now rewrite Z.div_add by lia. }
  assert (Hm : len b mod bs = (len b - bs) mod bs).
  { replace (len b) with ((len b - bs) + 1 * bs) at 1 by lia.
    now rewrite Z.mod_add by lia. }
  assert (Hq0 : 0 <= (len b - bs) / bs) by (apply Z.div_pos; lia).
  rewrite Hq, Hm.
  replace (Z.to_nat ((len b - bs) / bs + 1)) with (S (Z.to_nat ((len b - bs) / bs))) by lia.
  cbn [seq map app]. f_equal.
  rewrite <- seq_shift, map_map.
  f_equal.
  - apply map_ext. intros i. rewrite skipn_skipn. do 2 f_equal. lia.
  - destruct ((len b - bs) mod bs =? 0); [reflexivity|].
    rewrite skipn_skipn. do 2 f_equal. lia.
Qed.

Lemma blocks_unfold (bs : Z) (b : list byte) :
  0 < bs -> 0 < len b ->
  let n := Z.to_nat (if len b >? bs then bs else len b) in
  blocks bs b = firstn n b :: blocks bs (skipn n b).
Proof.
  intros Hbs Hb. cbv zeta.
  destruct (len b >? bs) eqn:E.
  - apply blocks_step. apply Z.gtb_lt in E. lia.
  - assert (len b <= bs) by (destruct (Z.gtb_spec (len b) bs); [discriminate | lia]).
    unfold len at 1 2. rewrite Nat2Z.id.
    rewrite firstn_all, skipn_all, blocks_nil by lia.
    destruct (Z.eq_dec (len b) bs) as [Heq|Hne].
    + rewrite blocks_step by lia.
      replace (Z.to_nat bs) with (length b) by (unfold len in Heq; lia).
      rewrite firstn_all, skipn_all. now rewrite blocks_nil by lia.
    + apply blocks_short. lia.
Qed.

Lemma full_blocks_length (bs : Z) (b : list byte) :
  len (full_blocks bs b) = Z.max 0 (len b / bs).
Proof. unfold full_blocks, len. rewrite length_map, length_seq. lia. Qed.

Lemma full_blocks_full (bs : Z) (b x : list byte) :
  0 < bs -> In x (full_blocks bs b) -> len x = bs.
Proof.
  intros Hbs Hin. unfold full_blocks in Hin.
  apply in_map_iff in Hin. destruct Hin as (i & <- & Hi).
  apply in_seq in Hi.
  pose proof (Z.mul_div_le (len b) bs Hbs) as Hle.
  assert (Hi' : Z.of_nat i + 1 <= len b / bs) by lia.
  assert (Z.of_nat i * bs + bs <= len b) by nia.
  rewrite len_firstn by lia.
  replace (i * Z.to_nat bs)%nat with (Z.to_nat (Z.of_nat i * bs)) by lia.
  rewrite len_skipn by lia. lia.
Qed.

Lemma residue_length (bs : Z) (b : list byte) :
  0 < bs -> len (residue bs b) = len b mod bs.
Proof.
  intros Hbs. unfold residue.
  assert (0 <= len b / bs) by (apply Z.div_pos; [apply len_nonneg | lia]).
  replace (Z.to_nat (len b / bs) * Z.to_nat bs)%nat
    with (Z.to_nat (len b / bs * bs)) by lia.
  pose proof (Z.mul_div_le (len b) bs Hbs).
  rewrite len_skipn by lia.
  rewrite Z.mod_eq by lia. lia.
Qed.

End GoFacts.

(** ** The chunk buffer *)

Module ChunkBufFacts.

Import ChunkBuf GoFacts.

(** A buffer made by [NewChunkBuffer] is in bounds. *)
Lemma NewChunkBuffer_in_bounds (d : list byte) :
  len d <= maxInt -> in_bounds (NewChunkBuffer (Some d)).
Proof.
  intros H. unfold in_bounds, NewChunkBuffer.
  cbn [buf readOff writeOff size].
  pose proof (len_nonneg d). lia.
Qed.

(** [Seek] clamps the read offset from above only. *)
Lemma Seek_upper (c : ChunkBuffer) (offset whence : Z) :
  readOff (fst (Seek c offset whence)) <= size c.
Proof. unfold Seek. cbn. lia. Qed.

Lemma Seek_start_value (c : ChunkBuffer) (offset : Z) :
  readOff (fst (Seek c offset SeekStart)) = Z.min offset (size c).
Proof. reflexivity. Qed.

(** C9, at the failing input: a buffer over three bytes, [Seek(-1,
    io.SeekStart)], then [Read] into a one-byte slice.  The seek stores the
    read offset -1 (it is clamped at [size] only), and the slice expression
    [c.buf[c.readOff:c.size]] of the read panics. *)
Example Seek_negative_then_Read_panics :
  let c := NewChunkBuffer (Some [x01; x02; x03]) in
  readOff (fst (Seek c (-1) SeekStart)) = -1 /\
  run c [OpSeek (-1) SeekStart; OpRead 1] = Panic /\
  run c [OpSeek (-1) SeekStart; OpWrite [x09]] = Panic /\
  run c [OpSeek (-1) SeekStart; OpWriteTo NewSink] = Panic.
Proof. repeat split. Qed.



End ChunkBufFacts.

(** ** The encrypting writer *)

Module EncryptFacts.

Import Encrypt GoFacts.

Section WithSuite.
Context {suite : Suite}.

(** *** The sink *)

Lemma sink_write_reliable (s : Sink) (p : list byte) :
  reliable s ->
  sink_write s p = (mkSink (accepted s ++ [p]) (S (calls s)) (fault s), (len p, None)).
Proof. intros H. unfold sink_write. now rewrite H. Qed.

Lemma sink_write_keeps_reliable (s : Sink) (p : list byte) :
  reliable s -> reliable (fst (sink_write s p)).
Proof.
  intros H. rewrite sink_write_reliable by assumption. exact H.
Qed.

(** *** What the operations leave alone *)

Lemma same_config_refl (w : Writer) : same_config w w.
Proof. repeat split. Qed.

Lemma same_config_trans (a b c : Writer) :
  same_config a b -> same_config b c -> same_config a c.
Proof. unfold same_config. intuition congruence. Qed.

Lemma emitHeaderIfNeeded_header (w : Writer) :
  headerWritten (fst (emitHeaderIfNeeded w)) = true.
Proof.
  unfold emitHeaderIfNeeded. destruct (headerWritten w) eqn:E; [exact E|].
  destruct (sink_write _ _) as [s' [n e]]. reflexivity.
Qed.

Lemma emitHeaderIfNeeded_frame (w : Writer) :
  same_config w (fst (emitHeaderIfNeeded w)) /\
  rbuf (fst (emitHeaderIfNeeded w)) = rbuf w.
Proof.
  unfold emitHeaderIfNeeded. destruct (headerWritten w).
  - repeat split.
  - destruct (sink_write _ _) as [s' [n e]]. repeat split.
Qed.

Lemma emitHeaderIfNeeded_written (w : Writer) :
  headerWritten w = true -> emitHeaderIfNeeded w = (w, None).
Proof. intros H. unfold emitHeaderIfNeeded. now rewrite H. Qed.

Lemma flushPack_frame (w w' : Writer) (pack : list byte) res :
  flushPack w pack = Done (w', res) ->
  same_config w w' /\ headerWritten w' = headerWritten w /\ rbuf w' = rbuf w.
Proof.
  unfold flushPack, PutUint64.
  destruct (len (nonce w) <? 8); [discriminate|]. cbn [bind].
  destruct (sink_write (sink w) _) as [s1 [n1 [e1|]]].
  - intros H. injection H as <- _. repeat split.
  - destruct (sink_write s1 _) as [s2 [n2 e2]].
    intros H. injection H as <- _. repeat split.
Qed.

Ltac frame_simpl :=
  unfold same_config in *;
  cbn [with_rbuf key flags maxBlockSize headerWritten rbuf fst snd] in *.

Lemma Write_loop_frame (fuel : nat) (w w' : Writer) e :
  Write_loop fuel w = Done (w', e) ->
  same_config w w' /\ headerWritten w' = headerWritten w.
Proof.
  revert w. induction fuel as [|fuel IH]; intros w; cbn [Write_loop].
  - destruct (len (rbuf w) >=? maxBlockSize w); [discriminate|].
    intros H. injection H as <- _. split; [apply same_config_refl | reflexivity].
  - destruct (len (rbuf w) >=? maxBlockSize w).
    2:{ intros H. injection H as <- _. split; [apply same_config_refl | reflexivity]. }
    unfold Next. destruct (maxBlockSize w <? 0); [discriminate|]. cbn [bind].
    destruct (flushPack _ _) as [[w1 [n1 e1]]| |] eqn:F; try discriminate. cbn [bind].
    apply flushPack_frame in F. destruct F as (F1 & F2 & F3).
    destruct e1.
    + intros H. injection H as <- _. frame_simpl. intuition congruence.
    + intros H. apply IH in H. destruct H as [H1 H2].
      frame_simpl. intuition congruence.
Qed.

Lemma Close_loop_frame (fuel : nat) (w w' : Writer) e :
  Close_loop fuel w = Done (w', e) ->
  same_config w w' /\ headerWritten w' = headerWritten w.
Proof.
  revert w. induction fuel as [|fuel IH]; intros w; cbn [Close_loop].
  - destruct (len (rbuf w) >? 0); [discriminate|].
    intros H. injection H as <- _. split; [apply same_config_refl | reflexivity].
  - destruct (len (rbuf w) >? 0).
    2:{ intros H. injection H as <- _. split; [apply same_config_refl | reflexivity]. }
    unfold Next. destruct (_ <? 0); [discriminate|]. cbn [bind].
    destruct (flushPack _ _) as [[w1 [n1 e1]]| |] eqn:F; try discriminate. cbn [bind].
    apply flushPack_frame in F. destruct F as (F1 & F2 & F3).
    destruct e1.
    + intros H. injection H as <- _. frame_simpl. intuition congruence.
    + intros H. apply IH in H. destruct H as [H1 H2].
      frame_simpl. intuition congruence.
Qed.

Lemma ReadFrom_loop_frame (fuel : nat) (w w' : Writer) (r r' : Source) n nprev res :
  ReadFrom_loop fuel w r n nprev = Done (w', r', res) ->
  same_config w w' /\ headerWritten w' = headerWritten w.
Proof.
  revert w r n nprev. induction fuel as [|fuel IH]; intros w r n nprev; cbn [ReadFrom_loop];
    [discriminate|].
  destruct (ReadFull r defaultDecBufferSize) as [r1 [chunk rerr]].
  destruct (negb (is_nil rerr) && negb (is_eof rerr)).
  { intros H. injection H as <- _ _. split; [apply same_config_refl | reflexivity]. }
  destruct ((nprev >=? 0) && negb (nprev =? maxBlockSize w) && negb (is_eof rerr)).
  { intros H. injection H as <- _ _. split; [apply same_config_refl | reflexivity]. }
  destruct (len chunk >? 0).
  - destruct (flushPack w chunk) as [[w1 [n1 e1]]| |] eqn:F; try discriminate. cbn [bind].
    apply flushPack_frame in F. destruct F as (F1 & F2 & F3).
    destruct e1.
    + intros H. injection H as <- _ _. frame_simpl. intuition congruence.
    + destruct (is_eof rerr).
      * intros H. injection H as <- _ _. frame_simpl. intuition congruence.
      * intros H. apply IH in H. destruct H as [H1 H2].
        frame_simpl. intuition congruence.
  - cbn [bind]. destruct (is_eof rerr).
    + intros H. injection H as <- _ _. split; [apply same_config_refl | reflexivity].
    + apply IH.
Qed.

(** After any call the header has been handed to the sink. *)
Lemma step_header (fuel : nat) (w w' : Writer) (o : op) :
  step fuel w o = Done w' -> headerWritten w' = true.
Proof.
  pose proof (emitHeaderIfNeeded_header w) as Hh.
  destruct o as [p | src |]; cbn [step].
  - unfold Write. destruct (emitHeaderIfNeeded w) as [w0 [e|]]; cbn [fst] in Hh.
    + cbn. intros H. injection H as <-. exact Hh.
    + destruct (Write_loop fuel w0) as [[w1 e1]| |] eqn:L; try discriminate. cbn [bind].
      apply Write_loop_frame in L. destruct L as [_ L].
      destruct e1; cbn; intros H; injection H as <-; cbn; congruence.
  - unfold ReadFrom. destruct (emitHeaderIfNeeded w) as [w0 [e|]]; cbn [fst] in Hh.
    + cbn. intros H. injection H as <-. exact Hh.
    + destruct (len (rbuf w0) >? 0).
      * cbn. intros H. injection H as <-. exact Hh.
      * destruct (ReadFrom_loop fuel w0 src 0 (-1)) as [[[w1 r1] res]| |] eqn:L; try discriminate.
        cbn. intros H. injection H as <-.
        apply ReadFrom_loop_frame in L. destruct L as [_ L]. congruence.
  - unfold Close. destruct (emitHeaderIfNeeded w) as [w0 [e|]]; cbn [fst] in Hh.
    + cbn. intros H. injection H as <-. exact Hh.
    + destruct (Close_loop fuel w0) as [[w1 e1]| |] eqn:L; try discriminate.
      cbn. intros H. injection H as <-.
      apply Close_loop_frame in L. destruct L as [_ L]. congruence.
Qed.

(** Bytes are buffered only after the header went out. *)
Lemma reachable_buffered_header (s : Sink) (k : list byte) (fl bs : Z) (w : Writer) :
  reachable (NewWriterWithBlockSize s k fl bs) w ->
  rbuf w <> [] -> headerWritten w = true.
Proof.
  intros R. induction R as [|w fuel o w' R IH S].
  - cbn. congruence.
  - intros _. eapply step_header; eassumption.
Qed.

(** C6.  On every writer that calls of [Write], [ReadFrom] and [Close] can
    lead to from a new one, and whose buffer holds bytes, [ReadFrom] returns
    0 and [ErrMixedMethods]; it reads nothing from the source and leaves the
    writer as it was (the header went out when the bytes were buffered). *)
Theorem ReadFrom_mixed_methods (s : Sink) (k : list byte) (fl bs : Z)
    (w : Writer) (fuel : nat) (src : Source) :
  reachable (NewWriterWithBlockSize s k fl bs) w ->
  rbuf w <> [] ->
  ReadFrom fuel w src = Done (w, src, (0, Some ErrMixedMethods)).
Proof.
  intros R Hb.
  pose proof (reachable_buffered_header _ _ _ _ _ R Hb) as Hh.
  unfold ReadFrom. rewrite emitHeaderIfNeeded_written by exact Hh.
  replace (len (rbuf w) >? 0) with true; [reflexivity|].
  symmetry. apply Z.gtb_lt. destruct (rbuf w); [congruence|].
  rewrite len_cons. pose proof (len_nonneg l). lia.
Qed.

(** *** Frames on a reliable sink *)

Lemma flushPack_reliable (w : Writer) (pack : list byte) :
  reliable (sink w) -> 8 <= len (nonce w) ->
  let n' := le_bytes 8 (blockCount w) ++ skipn 8 (nonce w) in
  let c' := Seal (key w) (flags w) n' pack in
  flushPack w pack =
  Done (mkWriter (mkSink (accepted (sink w) ++ [n'; c'])
                         (S (S (calls (sink w)))) (fault (sink w)))
                 (key w) n' c' (rbuf w) (wrapu64 (blockCount w + 1))
                 (headerWritten w) (maxBlockSize w) (flags w),
        (len n' + len c', None)).
Proof.
  intros Hr Hn n' c'. unfold flushPack, PutUint64.
  replace (len (nonce w) <? 8) with false by (symmetry; apply Z.ltb_ge; lia).
  cbn [bind]. fold n'. fold c'.
  rewrite sink_write_reliable by assumption.
  unfold sink_write. cbn [fault calls accepted]. rewrite Hr.
  rewrite <- app_assoc. reflexivity.
Qed.

Lemma flushPack_reliable_fields (w : Writer) (pack : list byte) :
  reliable (sink w) -> 8 <= len (nonce w) ->
  let n' := le_bytes 8 (blockCount w) ++ skipn 8 (nonce w) in
  exists w' res,
    flushPack w pack = Done (w', (res, None)) /\
    accepted (sink w') = accepted (sink w) ++ [n'; Seal (key w) (flags w) n' pack] /\
    fault (sink w') = fault (sink w) /\
    nonce w' = n' /\
    blockCount w' = wrapu64 (blockCount w + 1) /\
    key w' = key w /\ flags w' = flags w /\ maxBlockSize w' = maxBlockSize w /\
    headerWritten w' = headerWritten w /\ rbuf w' = rbuf w.
Proof.
  intros Hr Hn n'. rewrite flushPack_reliable by assumption.
  do 2 eexists. split; [reflexivity|]. repeat split.
Qed.

Lemma frames_from_app (k : list byte) (fl : Z) (t : list byte) (s : Z)
    (a b : list (list byte)) :
  frames_from k fl t s (a ++ b) =
  frames_from k fl t s a ++ frames_from k fl t (s + len a) b.
Proof.
  revert s. induction a as [|p a IH]; intros s.
  - cbn [app frames_from]. now rewrite (@len_nil (list byte)), Z.add_0_r.
  - cbn [app frames_from]. rewrite IH, len_cons.
    replace (s + 1 + len a) with (s + (1 + len a)) by lia. reflexivity.
Qed.

Lemma le_bytes_8_congr (a b : Z) :
  a mod 2 ^ 64 = b mod 2 ^ 64 -> le_bytes 8 a = le_bytes 8 b.
Proof.
  intros H. rewrite <- (le_bytes_mod 8 a), <- (le_bytes_mod 8 b).
  change (256 ^ Z.of_nat 8) with (2 ^ 64). now rewrite H.
Qed.

Lemma frames_from_congr (k : list byte) (fl : Z) (t : list byte) (a b : Z)
    (ps : list (list byte)) :
  a mod 2 ^ 64 = b mod 2 ^ 64 ->
  frames_from k fl t a ps = frames_from k fl t b ps.
Proof.
  revert a b. induction ps as [|p ps IH]; intros a b H; [reflexivity|].
  cbn [frames_from]. rewrite (le_bytes_8_congr a b H).
  rewrite (IH (a + 1) (b + 1)); [reflexivity|].
  rewrite <- Zplus_mod_idemp_l, H, Zplus_mod_idemp_l. reflexivity.
Qed.

Lemma skipn_8_counter (v : Z) (t : list byte) : skipn 8 (le_bytes 8 v ++ t) = t.
Proof.
  rewrite skipn_app.
  rewrite skipn_all2 by (rewrite length_le_bytes; lia).
  rewrite length_le_bytes. reflexivity.
Qed.

(** *** [Close] on a reliable sink *)

Lemma Close_loop_spec (fuel : nat) (w : Writer) :
  reliable (sink w) -> 0 < maxBlockSize w -> 8 <= len (nonce w) ->
  (length (rbuf w) < fuel)%nat ->
  exists w',
    Close_loop fuel w = Done (w', None) /\
    rbuf w' = [] /\
    headerWritten w' = headerWritten w /\
    accepted (sink w') =
      accepted (sink w)
      ++ frames_from (key w) (flags w) (skipn 8 (nonce w)) (blockCount w)
                     (blocks (maxBlockSize w) (rbuf w)).
Proof.
  revert w. induction fuel as [|fuel IH]; intros w Hr Hbs Hn Hf; [lia|].
  cbn [Close_loop].
  destruct (len (rbuf w) >? 0) eqn:E.
  2:{ assert (len (rbuf w) = 0).
      { pose proof (len_nonneg (rbuf w)).
        destruct (Z.gtb_spec (len (rbuf w)) 0); [discriminate | lia]. }
      exists w. rewrite (len_zero_nil _ H), blocks_nil by lia.
      cbn [frames_from]. rewrite app_nil_r. repeat split. }
  apply Z.gtb_lt in E.
  rewrite (blocks_unfold (maxBlockSize w) (rbuf w)) by lia.
  set (n := if len (rbuf w) >? maxBlockSize w then maxBlockSize w else len (rbuf w)).
  assert (Hn0 : 0 < n) by (unfold n; destruct (_ >? _); lia).
  unfold Next. replace (n <? 0) with false by (symmetry; apply Z.ltb_ge; lia).
  cbn [bind].
  rewrite flushPack_reliable by assumption.
  cbn [bind with_rbuf sink nonce key flags rbuf blockCount headerWritten maxBlockSize].
  match goal with |- context [Close_loop fuel ?w1] => destruct (IH w1) as (w' & H1 & H2 & H3 & H4) end.
  - exact Hr.
  - exact Hbs.
  - cbn [nonce]. rewrite len_app. unfold len at 1. rewrite length_le_bytes.
    pose proof (len_nonneg (skipn 8 (nonce w))). lia.
  - cbn [rbuf]. rewrite length_skipn. unfold len in E. lia.
  - exists w'. split; [exact H1|]. split; [exact H2|]. split; [exact H3|].
    rewrite H4.
    cbn [sink accepted nonce key flags rbuf blockCount maxBlockSize frames_from].
    rewrite skipn_8_counter. rewrite <- app_assoc. cbn [app].
    do 3 f_equal. apply frames_from_congr.
    unfold wrapu64. now rewrite Z.mod_mod by lia.
Qed.

(** C5.  [Close] on a writer over a reliable sink, with a positive block
    size: it returns nil with the buffer drained, and what it hands to the
    sink is the header (if it had not gone out yet), one frame for each full
    block still buffered, and after them ONE more frame, of [len mod bs]
    bytes (fewer than a block), exactly when that residue is not zero; with
    a zero residue there is no trailing frame.  A new writer that is closed
    at once has written the 36 bytes of the header and nothing else. *)
Theorem Close_emits_residue (fuel : nat) (w : Writer) :
  reliable (sink w) -> 0 < maxBlockSize w -> 8 <= len (nonce w) ->
  (length (rbuf w) < fuel)%nat ->
  let bs := maxBlockSize w in
  let hdr := if headerWritten w then []
             else [GenerateHeader (key w) (maxBlockSize w) (flags w)] in
  let last := if len (rbuf w) mod bs =? 0 then [] else [residue bs (rbuf w)] in
  (exists w',
     Close fuel w = Done (w', None) /\
     rbuf w' = [] /\
     accepted (sink w') =
       accepted (sink w) ++ hdr
       ++ frames_from (key w) (flags w) (skipn 8 (nonce w)) (blockCount w)
                      (full_blocks bs (rbuf w) ++ last) /\
     (rbuf w = [] -> headerWritten w = false -> accepted (sink w) = [] ->
      len (concat (accepted (sink w'))) = 36)) /\
  (forall x, In x (full_blocks bs (rbuf w)) -> len x = bs) /\
  len (full_blocks bs (rbuf w)) = len (rbuf w) / bs /\
  (forall x, In x last -> 0 < len x < bs /\ len x = len (rbuf w) mod bs).
Proof.
  intros Hr Hbs Hn Hf bs hdr last.
  assert (Hdiv : 0 <= len (rbuf w) / bs) by (apply Z.div_pos; [apply len_nonneg | lia]).
  split; [|split; [|split]].
  - unfold Close, emitHeaderIfNeeded.
    destruct (headerWritten w) eqn:Hh.
    + destruct (Close_loop_spec fuel w Hr Hbs Hn Hf) as (w' & H1 & H2 & H3 & H4).
      exists w'. split; [exact H1|]. split; [exact H2|]. split.
      * rewrite H4. reflexivity.
      * intros _ Hc. discriminate.
    + rewrite sink_write_reliable by assumption.
      match goal with |- context [Close_loop fuel ?w1] =>
        destruct (Close_loop_spec fuel w1) as (w' & H1 & H2 & H3 & H4) end;
        try assumption.
      exists w'. split; [exact H1|]. split; [exact H2|]. split.
      * rewrite H4.
        cbn [sink accepted nonce key flags rbuf blockCount maxBlockSize].
        unfold hdr. rewrite <- app_assoc. reflexivity.
      * intros Hb _ Ha. rewrite H4.
        cbn [sink accepted nonce key flags rbuf blockCount maxBlockSize].
        rewrite Hb, Ha, blocks_nil by lia. cbn [app frames_from concat].
        rewrite app_nil_r. unfold len. now rewrite GenerateHeader_length.
  - intros x Hx. apply (full_blocks_full bs (rbuf w)); assumption.
  - rewrite full_blocks_length. lia.
  - intros x Hx. unfold last in Hx.
    destruct (len (rbuf w) mod bs =? 0) eqn:E; [contradiction|].
    destruct Hx as [<-|[]]. apply Z.eqb_neq in E.
    rewrite residue_length by lia.
    pose proof (Z.mod_pos_bound (len (rbuf w)) bs Hbs). lia.
Qed.

(** *** The nonces of an object *)

Lemma emitted_with_rbuf k fl bs w packs b :
  emitted k fl bs w packs -> emitted k fl bs (with_rbuf w b) packs.
Proof. unfold emitted. cbn. tauto. Qed.

Lemma emitted_header k fl bs w packs :
  emitted k fl bs w packs -> emitHeaderIfNeeded w = (w, None).
Proof. intros H. apply emitHeaderIfNeeded_written, H. Qed.

Lemma emitted_init (s : Sink) k fl bs :
  reliable s -> accepted s = [] ->
  exists w, emitHeaderIfNeeded (NewWriterWithBlockSize s k fl bs) = (w, None) /\
            emitted k fl bs w [] /\ rbuf w = [].
Proof.
  intros Hr Ha. unfold emitHeaderIfNeeded, NewWriterWithBlockSize.
  cbn [headerWritten sink key maxBlockSize flags nonce encBuf rbuf blockCount].
  rewrite sink_write_reliable by assumption.
  eexists. split; [reflexivity|]. split; [|reflexivity].
  unfold emitted. cbn. rewrite Ha. repeat split; try assumption; try lia.
Qed.

Lemma flushPack_emitted k fl bs w packs pack w' res :
  emitted k fl bs w packs ->
  flushPack w pack = Done (w', res) ->
  emitted k fl bs w' (packs ++ [pack]) /\ rbuf w' = rbuf w.
Proof.
  intros (Hk & Hf & Hb & Hr & Hh & Hn & Ht & Hc & Ha) F.
  destruct (flushPack_reliable_fields w pack Hr Hn)
    as (w1 & r1 & F1 & A1 & A2 & A3 & A4 & A5 & A6 & A7 & A8 & A9).
  rewrite F1 in F. injection F as <- _. split; [|exact A9].
  unfold emitted. rewrite A1, A3, A4, A5, A6, A7, A8.
  rewrite skipn_8_counter.
  repeat split; try assumption.
  - intros j. unfold reliable in Hr. now rewrite A2.
  - rewrite len_app. unfold len at 1. rewrite length_le_bytes.
    pose proof (len_nonneg (skipn 8 (nonce w))). lia.
  - rewrite Hc, len_app, len_cons, (@len_nil (list byte)). unfold wrapu64.
    rewrite Zplus_mod_idemp_l. f_equal; lia.
  - rewrite Ha, frames_from_app. cbn [app frames_from]. rewrite Z.add_0_l.
    rewrite Ht, Hk, Hf, Hc.
    rewrite (le_bytes_8_congr (wrapu64 (len packs)) (len packs))
      by (unfold wrapu64; now rewrite Z.mod_mod by lia).
    reflexivity.
Qed.

Lemma Write_loop_emitted k fl bs fuel w packs w' e :
  emitted k fl bs w packs ->
  Write_loop fuel w = Done (w', e) ->
  exists packs', emitted k fl bs w' packs'.
Proof.
  revert w packs. induction fuel as [|fuel IH]; intros w packs He; cbn [Write_loop].
  - destruct (_ >=? _); [discriminate|]. intros H. injection H as <- _. eauto.
  - destruct (_ >=? _).
    2:{ intros H. injection H as <- _. eauto. }
    unfold Next. destruct (_ <? 0); [discriminate|]. cbn [bind].
    destruct (flushPack _ _) as [[w1 [n1 e1]]| |] eqn:F; try discriminate. cbn [bind].
    eapply flushPack_emitted in F; [|apply emitted_with_rbuf; eassumption].
    destruct F as [F _].
    destruct e1.
    + intros H. injection H as <- _. eauto.
    + intros H. eapply IH; eassumption.
Qed.

Lemma Close_loop_emitted k fl bs fuel w packs w' e :
  emitted k fl bs w packs ->
  Close_loop fuel w = Done (w', e) ->
  exists packs', emitted k fl bs w' packs'.
Proof.
  revert w packs. induction fuel as [|fuel IH]; intros w packs He; cbn [Close_loop].
  - destruct (_ >? _); [discriminate|]. intros H. injection H as <- _. eauto.
  - destruct (_ >? _).
    2:{ intros H. injection H as <- _. eauto. }
    unfold Next. destruct (_ <? 0); [discriminate|]. cbn [bind].
    destruct (flushPack _ _) as [[w1 [n1 e1]]| |] eqn:F; try discriminate. cbn [bind].
    eapply flushPack_emitted in F; [|apply emitted_with_rbuf; eassumption].
    destruct F as [F _].
    destruct e1.
    + intros H. injection H as <- _. eauto.
    + intros H. eapply IH; eassumption.
Qed.

Lemma ReadFrom_loop_emitted k fl bs fuel w packs r n nprev w' r' res :
  emitted k fl bs w packs ->
  ReadFrom_loop fuel w r n nprev = Done (w', r', res) ->
  exists packs', emitted k fl bs w' packs'.
Proof.
  revert w packs r n nprev.
  induction fuel as [|fuel IH]; intros w packs r n nprev He; cbn [ReadFrom_loop];
    [discriminate|].
  destruct (ReadFull r defaultDecBufferSize) as [r1 [chunk rerr]].
  destruct (negb (is_nil rerr) && negb (is_eof rerr)).
  { intros H. injection H as <- _ _. eauto. }
  destruct ((nprev >=? 0) && negb (nprev =? maxBlockSize w) && negb (is_eof rerr)).
  { intros H. injection H as <- _ _. eauto. }
  destruct (len chunk >? 0).
  - destruct (flushPack w chunk) as [[w1 [n1 e1]]| |] eqn:F; try discriminate. cbn [bind].
    eapply flushPack_emitted in F; [|eassumption]. destruct F as [F _].
    apply (emitted_with_rbuf _ _ _ _ _ []) in F.
    destruct e1.
    + intros H. injection H as <- _ _. eauto.
    + destruct (is_eof rerr).
      * intros H. injection H as <- _ _. eauto.
      * intros H. eapply IH; eassumption.
  - cbn [bind]. destruct (is_eof rerr).
    + intros H. injection H as <- _ _. eauto.
    + intros H. eapply IH; eassumption.
Qed.

Lemma step_emitted (s : Sink) k fl bs fuel w o w' :
  reliable s -> accepted s = [] ->
  w = NewWriterWithBlockSize s k fl bs \/ (exists packs, emitted k fl bs w packs) ->
  step fuel w o = Done w' ->
  exists packs', emitted k fl bs w' packs'.
Proof.
  intros Hr Ha Hw.
  assert (Hh : exists w0 packs, emitHeaderIfNeeded w = (w0, None) /\ emitted k fl bs w0 packs).
  { destruct Hw as [->|[packs He]].
    - destruct (emitted_init s k fl bs Hr Ha) as (w0 & E1 & E2 & _). eauto.
    - exists w, packs. split; [eapply emitted_header; eassumption | assumption]. }
  destruct Hh as (w0 & packs & E & He).
  destruct o as [p | src |]; cbn [step].
  - unfold Write. rewrite E.
    destruct (Write_loop fuel w0) as [[w1 e1]| |] eqn:L; try discriminate. cbn [bind].
    eapply Write_loop_emitted in L; [|eassumption]. destruct L as [packs' L].
    destruct e1; cbn; intros H; injection H as <-; cbn [fst];
      eauto using emitted_with_rbuf.
  - unfold ReadFrom. rewrite E.
    destruct (len (rbuf w0) >? 0).
    + cbn. intros H. injection H as <-. eauto.
    + destruct (ReadFrom_loop fuel w0 src 0 (-1)) as [[[w1 r1] res]| |] eqn:L; try discriminate.
      cbn. intros H. injection H as <-.
      eapply ReadFrom_loop_emitted; eassumption.
  - unfold Close. rewrite E.
    destruct (Close_loop fuel w0) as [[w1 e1]| |] eqn:L; try discriminate.
    cbn. intros H. injection H as <-.
    eapply Close_loop_emitted; eassumption.
Qed.

Lemma reachable_emitted (s : Sink) k fl bs w :
  reliable s -> accepted s = [] ->
  reachable (NewWriterWithBlockSize s k fl bs) w ->
  w = NewWriterWithBlockSize s k fl bs \/ (exists packs, emitted k fl bs w packs).
Proof.
  intros Hr Ha R. induction R as [|w fuel o w' R IH S].
  - now left.
  - right. eapply step_emitted; eassumption.
Qed.

Lemma nonces_frames_from (k : list byte) (fl : Z) (t : list byte) (s : Z)
    (packs : list (list byte)) :
  map fst (frames_of (frames_from k fl t s packs)) =
  map (fun i => le_bytes 8 (s + Z.of_nat i) ++ t) (seq 0 (length packs)).
Proof.
  revert s. induction packs as [|p ps IH]; intros s; [reflexivity|].
  cbn [frames_from frames_of map fst length seq].
  rewrite Z.add_0_r. f_equal.
  rewrite IH, <- seq_shift, map_map.
  apply map_ext. intros i. do 2 f_equal. lia.
Qed.

Lemma nonce_of_counter (i : Z) :
  firstn 8 (nonce_of i) = le_bytes 8 i /\ skipn 8 (nonce_of i) = repeat x00 4 /\
  length (nonce_of i) = 12%nat.
Proof.
  unfold nonce_of. repeat split.
Qed.

Lemma nonce_of_inj (i j : Z) :
  0 <= i < 2 ^ 64 -> 0 <= j < 2 ^ 64 -> nonce_of i = nonce_of j -> i = j.
Proof.
  intros Hi Hj H. unfold nonce_of in H.
  apply app_inv_tail in H. now apply (le_bytes_inj 8).
Qed.

(** C4.  In the object a writer over a reliable sink has produced (by any
    calls of [Write], [ReadFrom] and [Close]), the nonce of the [i]-th frame,
    counted from 0, is the 8 little-endian bytes of [i] followed by 4 zero
    bytes; the writer's counter is the number of frames (as a uint64); and
    the nonces of an object of at most 2^64 frames are pairwise distinct. *)
Theorem nonce_discipline (s : Sink) (k : list byte) (fl bs : Z) (w : Writer) :
  reliable s -> accepted s = [] ->
  reachable (NewWriterWithBlockSize s k fl bs) w ->
  let nonces := map fst (frames_of (tl (accepted (sink w)))) in
  (forall i : nat, (i < length nonces)%nat ->
     nth i nonces [] = nonce_of (Z.of_nat i) /\
     firstn 8 (nth i nonces []) = le_bytes 8 (Z.of_nat i)) /\
  blockCount w = wrapu64 (len nonces) /\
  (len nonces <= 2 ^ 64 -> NoDup nonces).
Proof.
  intros Hr Ha R nonces.
  assert (Hn : exists n : nat,
             nonces = map (fun i => nonce_of (Z.of_nat i)) (seq 0 n) /\
             blockCount w = wrapu64 (Z.of_nat n)).
  { destruct (reachable_emitted s k fl bs w Hr Ha R) as [->|[packs He]].
    - exists 0%nat. unfold nonces. cbn. rewrite Ha. split; reflexivity.
    - destruct He as (_ & _ & _ & _ & _ & _ & _ & Hc & Hacc).
      exists (length packs). unfold nonces. rewrite Hacc. cbn [tl].
      rewrite nonces_frames_from. split; [|exact Hc].
      apply map_ext. intros i. now rewrite Z.add_0_l. }
  destruct Hn as (n & Hn & Hc).
  assert (Hlen : length nonces = n) by (rewrite Hn, length_map, length_seq; reflexivity).
  split; [|split].
  - intros i Hi. rewrite Hlen in Hi.
    assert (E : nth i nonces [] = nonce_of (Z.of_nat i)).
    { rewrite Hn.
      rewrite (nth_indep _ [] (nonce_of (Z.of_nat 0)))
        by (rewrite length_map, length_seq; exact Hi).
      rewrite (map_nth (fun i => nonce_of (Z.of_nat i))).
      rewrite seq_nth by exact Hi. reflexivity. }
    split; [exact E|]. rewrite E. apply nonce_of_counter.
  - unfold len. now rewrite Hlen.
  - intros Hle. unfold len in Hle. rewrite Hlen in Hle. rewrite Hn.
    apply NoDup_map_NoDup_ForallPairs; [|apply seq_NoDup].
    intros i j Hi Hj E. apply in_seq in Hi, Hj.
    apply nonce_of_inj in E; lia.
Qed.

End WithSuite.

(** A run of C4: a block size of 2, five bytes written, then [Close]. *)
Lemma nonce_discipline_witness :
  exists w,
    reachable (suite := toy_suite) (NewWriterWithBlockSize NewSink [] 0 2) w /\
    map fst (frames_of (tl (accepted (sink w)))) = [nonce_of 0; nonce_of 1; nonce_of 2] /\
    NoDup (map fst (frames_of (tl (accepted (sink w))))).
Proof.
  assert (R : exists w,
             reachable (suite := toy_suite) (NewWriterWithBlockSize NewSink [] 0 2) w /\
             map fst (frames_of (tl (accepted (sink w))))
             = [nonce_of 0; nonce_of 1; nonce_of 2]).
  { eexists. split.
    - eapply (reach_step _ _ 4 OpClose).
      + eapply (reach_step _ _ 4 (OpWrite [x01; x02; x03; x04; x05])).
        * apply reach_init.
        * vm_compute. reflexivity.
      + vm_compute. reflexivity.
    - vm_compute. reflexivity. }
  destruct R as (w & R & E). exists w. split; [exact R|]. split; [exact E|].
  destruct (nonce_discipline (suite := toy_suite) NewSink [] 0 2 w) as (_ & _ & H).
  - intros j. reflexivity.
  - reflexivity.
  - exact R.
  - apply H. rewrite E. vm_compute. discriminate.
Defined.

(** A run of C5: five bytes buffered, a block size of 2. *)
Lemma Close_emits_residue_witness :
  let w := mkWriter NewSink [] (repeat x00 12) [] [x01; x02; x03; x04; x05] 0 false 2 0 in
  exists w',
    Close (suite := toy_suite) 6 w = Done (w', None) /\ rbuf w' = [] /\
    len (accepted (sink w')) = 7.
Proof.
  intros w.
  destruct (Close_emits_residue (suite := toy_suite) 6 w) as ((w' & H1 & H2 & H3 & _) & _).
  - intros j. reflexivity.
  - reflexivity.
  - vm_compute. discriminate.
  - cbn. lia.
  - exists w'. split; [exact H1|]. split; [exact H2|]. rewrite H3. reflexivity.
Defined.

(** A run of C6: one byte written, then [ReadFrom]. *)
Lemma ReadFrom_mixed_methods_witness :
  exists w,
    step (suite := toy_suite) 1 (NewWriterWithBlockSize NewSink [] 0 4) (OpWrite [x01]) = Done w /\
    rbuf w = [x01] /\
    ReadFrom (suite := toy_suite) 1 w (mkSource [x02] None)
    = Done (w, mkSource [x02] None, (0, Some ErrMixedMethods)).
Proof.
  eexists. split; [vm_compute; reflexivity|]. split; [reflexivity|].
  apply (ReadFrom_mixed_methods (suite := toy_suite) NewSink [] 0 4).
  - eapply (reach_step _ _ 1 (OpWrite [x01])); [apply reach_init | vm_compute; reflexivity].
  - discriminate.
Defined.

End EncryptFacts.

(** ** The decompressing reader *)

Module CompressFacts.

Import GoFacts ChunkBuf Compress CompressWriter.

(** Normalising a reader: by computation, and by simplification. *)
Ltac step_reader :=
  cbv beta iota zeta delta
    [set_rawR set_index set_chunkBuf set_trailer set_rawSeekOffset
     set_zipSeekOffset set_isInitialRead set_algo set_decodeBuf
     rawR index chunkBuf trailer rawSeekOffset zipSeekOffset isInitialRead
     algo decodeBuf halgo indexSize data pos].

Ltac simpl_reader :=
  cbn
    [set_rawR set_index set_chunkBuf set_trailer set_rawSeekOffset
     set_zipSeekOffset set_isInitialRead set_algo set_decodeBuf
     rawR index chunkBuf trailer rawSeekOffset zipSeekOffset isInitialRead
     algo decodeBuf halgo indexSize data pos bind].

Lemma search_loop_bounds (fuel i j : nat) (f : nat -> bool) :
  (i <= j)%nat -> (i <= search_loop fuel i j f <= j)%nat.
Proof.
  revert i j. induction fuel as [|fuel IH]; intros i j Hij; cbn [search_loop]; [lia|].
  destruct (Nat.ltb_spec i j) as [Hlt|Hge]; [|lia].
  assert (Hh : (i <= (i + j) / 2 < j)%nat).
  { split; [apply Nat.div_le_lower_bound | apply Nat.Div0.div_lt_upper_bound]; lia. }
  destruct (f ((i + j) / 2)%nat); cbn [negb].
  - specialize (IH i ((i + j) / 2)%nat ltac:(lia)). lia.
  - specialize (IH ((i + j) / 2 + 1)%nat j ltac:(lia)). lia.
Qed.

Lemma search_loop_spec (fuel i j m : nat) (f : nat -> bool) :
  (i <= m <= j)%nat -> (j - i <= fuel)%nat ->
  (forall x, (x < m)%nat -> f x = false) ->
  (forall x, (m <= x < j)%nat -> f x = true) ->
  search_loop fuel i j f = m.
Proof.
  revert i j. induction fuel as [|fuel IH]; intros i j Him Hf Hlo Hhi; cbn [search_loop]; [lia|].
  destruct (Nat.ltb_spec i j) as [Hlt|Hge]; [|lia].
  assert (Hh : (i <= (i + j) / 2 < j)%nat).
  { split; [apply Nat.div_le_lower_bound | apply Nat.Div0.div_lt_upper_bound]; lia. }
  destruct (f ((i + j) / 2)%nat) eqn:E; cbn [negb].
  - assert (m <= (i + j) / 2)%nat.
    { destruct (Nat.le_gt_cases m ((i + j) / 2)) as [|C]; [assumption|].
      rewrite Hlo in E by exact C. discriminate. }
    apply IH; try lia; try assumption. intros x Hx. apply Hhi. lia.
  - assert ((i + j) / 2 < m)%nat.
    { destruct (Nat.le_gt_cases m ((i + j) / 2)) as [C|]; [|assumption].
      rewrite Hhi in E by lia. discriminate. }
    apply IH; try lia; assumption.
Qed.

Lemma Search_spec (n m : nat) (f : nat -> bool) :
  (m <= n)%nat ->
  (forall x, (x < m)%nat -> f x = false) ->
  (forall x, (m <= x < n)%nat -> f x = true) ->
  Search n f = m.
Proof. intros. unfold Search. apply search_loop_spec; try lia; assumption. Qed.

Lemma Search_le (n : nat) (f : nat -> bool) : (Search n f <= n)%nat.
Proof. unfold Search. pose proof (search_loop_bounds n 0 n f). lia. Qed.

Lemma index_at_app_r (pre : list record) (x : record) (post : list record) :
  index_at (pre ++ x :: post) (length pre) = Done x.
Proof. unfold index_at. now rewrite nth_error_app2, Nat.sub_diag by lia. Qed.

Lemma index_at_lt (l : list record) (i : nat) :
  (i < length l)%nat -> exists x, index_at l i = Done x /\ In x l.
Proof.
  intros H. unfold index_at. destruct (nth_error l i) as [x|] eqn:E.
  - exists x. split; [reflexivity | eapply nth_error_In; eassumption].
  - apply nth_error_None in E. lia.
Qed.

Lemma chunkLookup_unfold (r : Reader) (off : Z) (isRawOff : bool) :
  chunkLookup r off isRawOff =
  let i := Search (length (index r))
             (fun i => field isRawOff (nth i (index r) (mkRecord 0 0)) >? off) in
  if (i =? 0)%nat then
    a <- index_at (index r) i ;; b <- index_at (index r) (i + 1) ;; Done (a, b)
  else if (i =? length (index r))%nat then
    a <- index_at (index r) (i - 1) ;; Done (a, a)
  else a <- index_at (index r) (i - 1) ;; b <- index_at (index r) i ;; Done (a, b).
Proof.
  unfold chunkLookup, field. destruct isRawOff; reflexivity.
Qed.

(** At or beyond the last record: both ends of the chunk are the last
    record. *)
Lemma chunkLookup_end (r : Reader) (off : Z) (isRawOff : bool)
    (pre : list record) (l : record) :
  index r = pre ++ [l] ->
  (forall x, In x (index r) -> field isRawOff x <= off) ->
  chunkLookup r off isRawOff = Done (l, l).
Proof.
  intros Hi Hall. rewrite chunkLookup_unfold. cbv zeta.
  rewrite (Search_spec _ (length (index r))).
  - rewrite Nat.eqb_refl. rewrite !Hi. rewrite length_app. cbn [length].
    replace (length pre + 1 =? 0)%nat with false by (symmetry; apply Nat.eqb_neq; lia).
    replace (length pre + 1 - 1)%nat with (length pre) by lia.
    rewrite index_at_app_r. reflexivity.
  - lia.
  - intros x Hx. rewrite Z.gtb_ltb. apply Z.ltb_ge. apply Hall. apply nth_In. exact Hx.
  - intros x Hx. lia.
Qed.

(** Inside the index: the last record at or before the offset, and the
    next one. *)
Lemma chunkLookup_mid (r : Reader) (off : Z) (isRawOff : bool)
    (pre : list record) (a b : record) (post : list record) :
  index r = pre ++ a :: b :: post ->
  (forall x, In x (pre ++ [a]) -> field isRawOff x <= off) ->
  (forall x, In x (b :: post) -> off < field isRawOff x) ->
  chunkLookup r off isRawOff = Done (a, b).
Proof.
  intros Hi Hlo Hhi. rewrite chunkLookup_unfold. cbv zeta.
  assert (Hi' : index r = (pre ++ [a]) ++ b :: post) by (rewrite Hi, <- app_assoc; reflexivity).
  rewrite (Search_spec _ (S (length pre))).
  - replace (S (length pre) =? 0)%nat with false by reflexivity.
    replace (S (length pre) =? length (index r))%nat with false.
    2:{ symmetry. apply Nat.eqb_neq. rewrite Hi, length_app. cbn [length]. lia. }
    replace (S (length pre) - 1)%nat with (length pre) by lia.
    rewrite Hi at 1. rewrite index_at_app_r. cbn [bind].
    rewrite Hi'. replace (S (length pre)) with (length (pre ++ [a]))
      by (rewrite length_app; cbn [length]; lia).
    rewrite index_at_app_r. reflexivity.
  - rewrite Hi, length_app. cbn [length]. lia.
  - intros x Hx. rewrite Z.gtb_ltb. apply Z.ltb_ge. apply Hlo.
    rewrite Hi'. rewrite app_nth1 by (rewrite length_app; cbn [length]; lia).
    apply nth_In. rewrite length_app. cbn [length]. lia.
  - intros x Hx. rewrite Z.gtb_ltb. apply Z.ltb_lt. apply Hhi.
    rewrite Hi'. rewrite app_nth2 by (rewrite length_app; cbn [length]; lia).
    apply nth_In. rewrite Hi, length_app in Hx. rewrite length_app.
    cbn [length] in *. lia.
Qed.

(** With two records or more, a lookup never indexes out of range. *)
Lemma chunkLookup_total (r : Reader) (off : Z) (isRawOff : bool) :
  (2 <= length (index r))%nat ->
  exists a b, chunkLookup r off isRawOff = Done (a, b) /\ In a (index r) /\ In b (index r).
Proof.
  intros H2. rewrite chunkLookup_unfold. cbv zeta.
  set (i := Search _ _). pose proof (Search_le (length (index r))
    (fun i => field isRawOff (nth i (index r) (mkRecord 0 0)) >? off)) as Hle.
  fold i in Hle.
  destruct (Nat.eqb_spec i 0) as [E0|N0].
  - destruct (index_at_lt (index r) i ltac:(lia)) as (a & Ha & Ia).
    destruct (index_at_lt (index r) (i + 1) ltac:(lia)) as (b & Hb & Ib).
    rewrite Ha, Hb. cbn [bind]. eauto.
  - destruct (Nat.eqb_spec i (length (index r))) as [El|Nl].
    + destruct (index_at_lt (index r) (i - 1) ltac:(lia)) as (a & Ha & Ia).
      rewrite Ha. cbn [bind]. eauto.
    + destruct (index_at_lt (index r) (i - 1) ltac:(lia)) as (a & Ha & Ia).
      destruct (index_at_lt (index r) i ltac:(lia)) as (b & Hb & Ib).
      rewrite Ha, Hb. cbn [bind]. eauto.
Qed.

(** *** The object held in memory *)

Lemma firstn_exact {A : Type} (n : nat) (b c : list A) :
  length b = n -> firstn n (b ++ c) = b.
Proof.
  intros <-. rewrite firstn_app, firstn_all, Nat.sub_diag.
  cbn [firstn]. apply app_nil_r.
Qed.

Lemma skipn_exact {A : Type} (n : nat) (b c : list A) :
  length b = n -> skipn n (b ++ c) = c.
Proof.
  intros <-. rewrite skipn_app, skipn_all, Nat.sub_diag. reflexivity.
Qed.

Lemma skipn_len_app {A : Type} (a x : list A) : skipn (Z.to_nat (len a)) (a ++ x) = x.
Proof.
  unfold len. rewrite Nat2Z.id, skipn_app, skipn_all, Nat.sub_diag. reflexivity.
Qed.

Lemma firstn_len_app {A : Type} (b c : list A) : firstn (Z.to_nat (len b)) (b ++ c) = b.
Proof.
  unfold len. rewrite Nat2Z.id, firstn_app, firstn_all, Nat.sub_diag.
  cbn [firstn]. apply app_nil_r.
Qed.

Lemma raw_take_at (d a b c : list byte) :
  d = a ++ b ++ c -> raw_take (mkRawR d (len a)) (len b) = b.
Proof.
  intros ->. unfold raw_take. cbn [data pos].
  now rewrite skipn_len_app, firstn_len_app.
Qed.

Lemma raw_ReadFull_at (d a b c : list byte) :
  d = a ++ b ++ c ->
  raw_ReadFull (mkRawR d (len a)) (len b) = (mkRawR d (len a + len b), (b, None)).
Proof.
  intros Hd. unfold raw_ReadFull.
  destruct (Z.leb_spec (len b) 0) as [H0|Hpos].
  - assert (len b = 0) by (pose proof (len_nonneg b); lia).
    rewrite (len_zero_nil b) by assumption.
    rewrite (@len_nil byte), Z.add_0_r. reflexivity.
  - rewrite (raw_take_at d a b c Hd). cbn [data pos].
    rewrite Z.eqb_refl. reflexivity.
Qed.

Lemma raw_CopyN_at (d a b c : list byte) :
  d = a ++ b ++ c ->
  raw_CopyN (mkRawR d (len a)) (len b) = (mkRawR d (len a + len b), (b, None)).
Proof.
  intros Hd. unfold raw_CopyN.
  destruct (Z.leb_spec (len b) 0) as [H0|Hpos].
  - assert (len b = 0) by (pose proof (len_nonneg b); lia).
    rewrite (len_zero_nil b) by assumption.
    rewrite (@len_nil byte), Z.add_0_r. reflexivity.
  - rewrite (raw_take_at d a b c Hd). cbn [data pos].
    rewrite Z.eqb_refl. reflexivity.
Qed.

Lemma raw_Seek_start (r : RawR) (off : Z) :
  0 <= off -> raw_Seek r off SeekStart = (mkRawR (data r) off, (off, None)).
Proof.
  intros H.
  cbv beta iota zeta delta [raw_Seek SeekStart SeekCurrent SeekEnd Z.eqb Pos.eqb orb negb].
  replace (off <? 0) with false by (symmetry; apply Z.ltb_ge; lia). reflexivity.
Qed.

Lemma raw_Seek_end (r : RawR) (off : Z) :
  0 <= len (data r) + off < 2 ^ 63 ->
  raw_Seek r off SeekEnd = (mkRawR (data r) (len (data r) + off), (len (data r) + off, None)).
Proof.
  intros H.
  cbv beta iota zeta delta [raw_Seek SeekStart SeekCurrent SeekEnd Z.eqb Pos.eqb orb negb].
  rewrite wrap64_small by lia.
  replace (len (data r) + off <? 0) with false by (symmetry; apply Z.ltb_ge; lia).
  reflexivity.
Qed.

(** *** Marshalling *)

Lemma bytes_eqb_refl (a : list byte) : bytes_eqb a a = true.
Proof. unfold bytes_eqb. destruct (list_eq_dec _ a a); congruence. Qed.

Lemma len_makeHeader (t : Z) : len (makeHeader t) = headerSize.
Proof. reflexivity. Qed.

Lemma readHeader_makeHeader (t : Z) :
  0 <= t < 256 -> readHeader (makeHeader t) = inl (mkHeader t).
Proof.
  intros H. unfold readHeader, makeHeader. cbn [firstn app magic].
  rewrite bytes_eqb_refl. cbn [nth]. rewrite Z_of_byte_of_Z.
  now rewrite Z.mod_small by lia.
Qed.

Lemma len_be_bytes (n : nat) (z : Z) : len (be_bytes n z) = Z.of_nat n.
Proof. unfold len. now rewrite length_be_bytes. Qed.

Lemma firstn_be_bytes_app (z : Z) (rest : list byte) :
  firstn 8 (be_bytes 8 z ++ rest) = be_bytes 8 z.
Proof.
  apply firstn_exact, length_be_bytes.
Qed.

Lemma skipn_be_bytes_app (z : Z) (rest : list byte) :
  skipn 8 (be_bytes 8 z ++ rest) = rest.
Proof.
  apply skipn_exact, length_be_bytes.
Qed.

Lemma len_trailer_marshal (t : trailerT) : len (trailer_marshal t) = trailerSize.
Proof. unfold trailer_marshal. rewrite len_app, len_be_bytes. reflexivity. Qed.

Lemma trailer_unmarshal_marshal (sz : Z) :
  0 <= sz < 2 ^ 64 -> trailer_unmarshal (trailer_marshal (mkTrailer sz)) = mkTrailer sz.
Proof.
  intros H. unfold trailer_unmarshal, trailer_marshal. cbn [indexSize].
  rewrite firstn_be_bytes_app, be_value_be_bytes.
  change (256 ^ Z.of_nat 8) with (2 ^ 64). now rewrite Z.mod_small by lia.
Qed.

Lemma len_record_marshal (x : record) : len (record_marshal x) = indexChunkSize.
Proof. unfold record_marshal. rewrite len_app, !len_be_bytes. reflexivity. Qed.

Lemma record_unmarshal_marshal (x : record) (rest : list byte) :
  0 <= rawOff x < 2 ^ 63 -> 0 <= zipOff x < 2 ^ 63 ->
  record_unmarshal (record_marshal x ++ rest) = x.
Proof.
  intros Hr Hz. unfold record_unmarshal, record_marshal.
  rewrite <- app_assoc, firstn_be_bytes_app, skipn_be_bytes_app, firstn_be_bytes_app.
  rewrite !be_value_be_bytes. change (256 ^ Z.of_nat 8) with (2 ^ 64).
  rewrite !Z.mod_small by lia. rewrite !wrap64_small by lia.
  destruct x; reflexivity.
Qed.

Lemma skipn_record_marshal (x : record) (rest : list byte) :
  skipn (Z.to_nat indexChunkSize) (record_marshal x ++ rest) = rest.
Proof.
  rewrite <- (len_record_marshal x). apply skipn_len_app.
Qed.

Lemma len_index_bytes (idx : list record) : len (index_bytes idx) = 16 * len idx.
Proof.
  induction idx as [|x idx IH]; [reflexivity|].
  unfold index_bytes in *. cbn [map concat].
  rewrite len_app, IH, len_record_marshal, len_cons. unfold indexChunkSize. lia.
Qed.

(** The index loop accepts every record whose two fields are not negative:
    it compares each one with [record{-1, -1}], never with its
    predecessor. *)
Lemma parse_index_ok (idx acc : list record) (rest : list byte) :
  (forall x, In x idx -> 0 <= rawOff x < 2 ^ 63 /\ 0 <= zipOff x < 2 ^ 63) ->
  parse_index (length idx) (index_bytes idx ++ rest) (mkRecord (-1) (-1)) acc
  = (acc ++ idx, None).
Proof.
  revert acc. induction idx as [|x idx IH]; intros acc H.
  - cbn. now rewrite app_nil_r.
  - cbn [length parse_index]. unfold index_bytes. cbn [map concat].
    rewrite <- app_assoc.
    destruct (H x (or_introl eq_refl)) as [Hr Hz].
    rewrite record_unmarshal_marshal by assumption.
    cbn [rawOff zipOff].
    replace (-1 >=? rawOff x) with false
      by (symmetry; rewrite Z.geb_leb; apply Z.leb_gt; lia).
    replace (-1 >=? zipOff x) with false
      by (symmetry; rewrite Z.geb_leb; apply Z.leb_gt; lia).
    rewrite skipn_record_marshal.
    fold (index_bytes idx). rewrite IH by (intros y Hy; apply H; now right).
    now rewrite <- app_assoc.
Qed.

Section WithCodecs.
Context {codecs : Codecs}.

Lemma parse_object (t : Z) (a : Algorithm) (body : list byte) (idx : list record) :
  0 <= t < 256 -> AlgorithmFromType t = Some a ->
  (forall x, In x idx -> 0 <= rawOff x < 2 ^ 63 /\ 0 <= zipOff x < 2 ^ 63) ->
  len (object t body idx) < 2 ^ 63 ->
  parseTrailerIfNeeded (NewReader (mkRawR (object t body idx) 0)) =
  Done (mkReader (mkRawR (object t body idx) headerSize) idx
                 (NewChunkBuffer (Some []))
                 (Some (mkTrailer (len (index_bytes idx))))
                 headerSize 0 false (Some a) [], None).
Proof.
  intros Ht Ha Hidx Hlen.
  set (obj := object t body idx) in *.
  set (hdr := makeHeader t).
  set (ib := index_bytes idx).
  set (tr := trailer_marshal (mkTrailer (len ib))).
  assert (Hobj : obj = hdr ++ body ++ ib ++ tr) by reflexivity.
  assert (Lh : len hdr = 12) by reflexivity.
  assert (Lt : len tr = 16) by apply len_trailer_marshal.
  assert (Lb := len_nonneg body). assert (Li := len_nonneg ib).
  assert (Lo : len obj = 12 + len body + len ib + 16).
  { rewrite Hobj, !len_app. lia. }
  assert (E1 : raw_ReadFull (mkRawR obj 0) headerSize = (mkRawR obj 12, (hdr, None))).
  { exact (raw_ReadFull_at obj [] hdr (body ++ ib ++ tr) Hobj). }
  assert (E2 : raw_Seek (mkRawR obj 12) (- trailerSize) SeekEnd
               = (mkRawR obj (len obj - 16), (len obj - 16, None))).
  { rewrite raw_Seek_end; cbn [data]; unfold trailerSize; [reflexivity | lia]. }
  assert (E3 : raw_ReadFull (mkRawR obj (len obj - 16)) trailerSize
               = (mkRawR obj (len obj), (tr, None))).
  { replace (len obj - 16) with (len (hdr ++ body ++ ib)) by (rewrite !len_app; lia).
    rewrite <- Lt at 1.
    rewrite (raw_ReadFull_at obj (hdr ++ body ++ ib) tr []).
    - do 2 f_equal. rewrite !len_app. lia.
    - rewrite Hobj, app_nil_r, <- !app_assoc. reflexivity. }
  unfold parseTrailerIfNeeded, NewReader. step_reader.
  rewrite E1. step_reader. fold hdr.
  unfold hdr at 1. rewrite readHeader_makeHeader by assumption. step_reader.
  rewrite E2. step_reader. rewrite E3. step_reader.
  rewrite Lt. cbn [trailerSize Z.eqb Pos.eqb negb].
  unfold tr at 1 2 3 4 5 6 7 8 9.
  rewrite trailer_unmarshal_marshal by lia. step_reader.
  rewrite Ha.
  assert (E4 : raw_Seek (mkRawR obj (len obj))
                 (wrap64 (- wrap64 (wrap64 (len ib) + trailerSize))) SeekEnd
               = (mkRawR obj (12 + len body), (12 + len body, None))).
  { unfold trailerSize.
    rewrite (wrap64_small (len ib)) by lia.
    rewrite (wrap64_small (len ib + 16)) by lia.
    rewrite (wrap64_small (- (len ib + 16))) by lia.
    rewrite raw_Seek_end; cbn [data]; [do 2 f_equal; lia | lia]. }
  rewrite E4. step_reader.
  replace (len ib >? maxInt) with false
    by (symmetry; rewrite Z.gtb_ltb; apply Z.ltb_ge; unfold maxInt; lia).
  assert (E5 : raw_ReadFull (mkRawR obj (12 + len body)) (len ib)
               = (mkRawR obj (12 + len body + len ib), (ib, None))).
  { replace (12 + len body) with (len (hdr ++ body)) by (rewrite len_app; lia).
    apply (raw_ReadFull_at obj (hdr ++ body) ib tr).
    rewrite Hobj, <- app_assoc. reflexivity. }
  rewrite E5. step_reader.
  assert (E6 : parse_index (Z.to_nat (len ib / indexChunkSize)) ib
                 (mkRecord (-1) (-1)) [] = (idx, None)).
  { unfold ib at 1. rewrite len_index_bytes. unfold indexChunkSize.
    rewrite Z.mul_comm, Z.div_mul by lia. unfold len. rewrite Nat2Z.id.
    rewrite <- (app_nil_r ib). unfold ib. rewrite parse_index_ok by assumption.
    reflexivity. }
  rewrite E6.
  rewrite raw_Seek_start by (unfold headerSize; lia).
  reflexivity.
Qed.


(** *** Seeking to the end and beyond *)

Lemma parse_opened (r : Reader) :
  trailer r <> None -> parseTrailerIfNeeded r = Done (r, None).
Proof.
  intros H. unfold parseTrailerIfNeeded. destruct (trailer r); [reflexivity | congruence].
Qed.

Lemma readZipChunk_at_end (r : Reader) (pre : list record) (l : record) :
  index r = pre ++ [l] ->
  (forall x, In x (index r) -> zipOff x <= zipOff l) ->
  rawSeekOffset r = zipOff l ->
  readZipChunk r = Done (set_chunkBuf r (mkChunkBuffer [] 0 0 0), (None, Some EOF)).
Proof.
  intros Hi Hz Hs. unfold readZipChunk, fixZipChunk.
  rewrite (chunkLookup_end _ _ false pre l).
  - cbn [bind]. rewrite Z.sub_diag. reflexivity.
  - exact Hi.
  - cbn [index set_chunkBuf rawSeekOffset]. rewrite Hs. exact Hz.
Qed.

Lemma seekStart_at_end (r : Reader) (pre : list record) (l : record) (dest : Z) :
  trailer r <> None -> isInitialRead r = false ->
  index r = pre ++ [l] -> (2 <= length (index r))%nat ->
  (forall x, In x (index r) -> rawOff x <= rawOff l /\ zipOff x <= zipOff l) ->
  0 <= rawOff l -> rawOff l <= dest < 2 ^ 63 ->
  seekStart r dest = Done (at_end r l dest, (dest, None)).
Proof.
  intros Ht Hinit Hi H2 Hmax Hl Hd. unfold seekStart.
  rewrite parse_opened by assumption. cbn [bind].
  replace (dest <? 0) with false by (symmetry; apply Z.ltb_ge; lia).
  rewrite (chunkLookup_end r dest true pre l Hi)
    by (intros x Hx; cbn [field]; specialize (Hmax x Hx); lia).
  cbn [bind].
  destruct (chunkLookup_total r (zipSeekOffset r) true H2) as (a & b & Hc & _).
  rewrite Hc. cbn [bind].
  cbn [isInitialRead set_zipSeekOffset set_rawSeekOffset]. rewrite Hinit.
  rewrite orb_true_r.
  rewrite (readZipChunk_at_end _ pre l).
  - cbn [bind]. rewrite wrap64_small by lia.
    unfold ChunkBuf.Seek, SeekStart, SeekCurrent, SeekEnd.
    cbn [Z.eqb Pos.eqb chunkBuf set_chunkBuf ChunkBuf.size ChunkBuf.buf].
    replace (Z.min (dest - rawOff l) 0) with 0 by lia.
    unfold at_end. step_reader. reflexivity.
  - exact Hi.
  - intros x Hx. apply Hmax. exact Hx.
  - reflexivity.
Qed.

Lemma Read_at_end (fuel : nat) (r : Reader) (pre : list record) (l : record)
    (dest plen : Z) :
  trailer r <> None -> index r = pre ++ [l] ->
  (forall x, In x (index r) -> zipOff x <= zipOff l) ->
  0 < plen ->
  Read (S fuel) (at_end r l dest) plen = Done (at_end r l dest, ([], Some EOF)).
Proof.
  intros Ht Hi Hz Hp. unfold Read.
  rewrite parse_opened by exact Ht. cbn [bind Read_loop].
  unfold serveChunk. cbn [chunkBuf at_end]. unfold Len. cbn [ChunkBuf.size ChunkBuf.readOff].
  change (0 - 0 =? 0) with true. cbn [negb bind].
  replace (plen =? 0) with false by (symmetry; apply Z.eqb_neq; lia).
  rewrite (readZipChunk_at_end _ pre l); [reflexivity | exact Hi | exact Hz | reflexivity].
Qed.


Lemma ordered_hd (idx : list record) (x : record) :
  ordered idx -> In x idx ->
  rawOff (first_record idx) <= rawOff x /\ zipOff (first_record idx) <= zipOff x.
Proof.
  intros Ho Hx. destruct idx as [|a idx]; [contradiction|].
  cbn [first_record hd]. destruct Hx as [<-|Hx]; [lia|].
  apply StronglySorted_inv in Ho. destruct Ho as [_ Hall].
  rewrite Forall_forall in Hall. exact (Hall x Hx).
Qed.

Lemma ordered_last (idx : list record) (x : record) :
  ordered idx -> In x idx ->
  rawOff x <= rawOff (last_record idx) /\ zipOff x <= zipOff (last_record idx).
Proof.
  unfold last_record. intros Ho. revert x.
  induction Ho as [|a idx Ho IH Hall]; intros x Hx; [contradiction|].
  destruct idx as [|b idx].
  - destruct Hx as [<-|[]]. cbn. lia.
  - change (last (a :: b :: idx) (mkRecord 0 0)) with (last (b :: idx) (mkRecord 0 0)).
    destruct Hx as [<-|Hx]; [|exact (IH x Hx)].
    rewrite Forall_forall in Hall.
    pose proof (Hall b (or_introl eq_refl)) as Hab.
    pose proof (IH b (or_introl eq_refl)). lia.
Qed.

Lemma index_split_last (idx : list record) :
  idx <> [] -> idx = removelast idx ++ [last_record idx].
Proof. intros H. apply app_removelast_last. exact H. Qed.

Lemma index_at_last (idx : list record) :
  idx <> [] -> index_at idx (length idx - 1) = Done (last_record idx).
Proof.
  intros H. rewrite (index_split_last idx H) at 1 2.
  rewrite length_app. cbn [length].
  replace (length (removelast idx) + 1 - 1)%nat with (length (removelast idx)) by lia.
  apply index_at_app_r.
Qed.

Lemma well_formed_bounds obj idx total :
  well_formed obj idx total ->
  idx <> [] /\ 0 <= total < 2 ^ 63 /\
  (forall x, In x idx -> 0 <= rawOff x < 2 ^ 63 /\ 0 <= zipOff x < 2 ^ 63) /\
  (forall x, In x idx -> rawOff x <= rawOff (last_record idx) /\
                         zipOff x <= zipOff (last_record idx)).
Proof.
  intros (_ & H2 & Ho & Hf & Hz & Hl & Ht & Hzl & _).
  assert (Hne : idx <> []) by (destruct idx; [cbn in H2; lia | discriminate]).
  assert (Hb : forall x, In x idx ->
             0 <= rawOff x <= total /\ 0 <= zipOff x <= zipOff (last_record idx)).
  { intros x Hx. pose proof (ordered_hd idx x Ho Hx). pose proof (ordered_last idx x Ho Hx). lia. }
  split; [exact Hne|]. split; [|split].
  - assert (In (last_record idx) idx).
    { rewrite (index_split_last idx Hne) at 2. apply in_or_app. right. now left. }
    specialize (Hb _ H). lia.
  - intros x Hx. specialize (Hb x Hx). lia.
  - intros x Hx. now apply ordered_last.
Qed.

Lemma attached_parse obj idx total r :
  well_formed obj idx total -> attached obj idx r ->
  exists r0,
    parseTrailerIfNeeded r = Done (r0, None) /\
    trailer r0 <> None /\ index r0 = idx /\ isInitialRead r0 = false /\
    zipSeekOffset r0 = zipSeekOffset r /\ (trailer r <> None -> r0 = r).
Proof.
  intros Hwf Hat.
  destruct (well_formed_bounds _ _ _ Hwf) as (Hne & Htot & Hb & _).
  destruct Hat as [->|(Ht & Hi & Hinit)].
  - destruct Hwf as ((t & body & -> & Ht & Ha) & _ & _ & _ & _ & _ & _ & _ & Hlen).
    destruct (AlgorithmFromType t) as [a|] eqn:Ea; [|congruence].
    eexists. split; [apply (parse_object t a); assumption|].
    cbn. repeat split; try congruence.
  - exists r. split; [now apply parse_opened|]. repeat split; assumption.
Qed.

(** C7.  For every well-formed compressed object whose last index record
    is at raw offset [total] (the uncompressed size), [Seek(0, io.SeekEnd)]
    on a reader over it returns [total] and a nil error. *)
Theorem Seek_end_is_size (obj : list byte) (idx : list record) (total : Z) (r : Reader) :
  well_formed obj idx total -> attached obj idx r ->
  exists r', Seek r 0 SeekEnd = Done (r', (total, None)) /\
             total = rawOff (last_record idx).
Proof.
  intros Hwf Hat.
  destruct (well_formed_bounds _ _ _ Hwf) as (Hne & Htot & Hb & Hmax).
  destruct (attached_parse _ _ _ _ Hwf Hat) as (r0 & Hp & Ht0 & Hi0 & Hinit0 & _ & _).
  assert (Hl : rawOff (last_record idx) = total) by apply Hwf.
  assert (H2 : (2 <= length idx)%nat) by apply Hwf.
  unfold Seek. rewrite Z.eqb_refl. change (0 >? 0) with false. cbv iota.
  rewrite Hp. cbn [bind]. rewrite Hi0, index_at_last by exact Hne. cbn [bind].
  rewrite Z.add_0_r, wrap64_small by lia.
  rewrite (seekStart_at_end r0 (removelast idx) (last_record idx)); try assumption.
  - rewrite Hl. eexists. split; [reflexivity | reflexivity].
  - rewrite Hi0. now apply index_split_last.
  - rewrite Hi0. exact H2.
  - rewrite Hi0. exact Hmax.
  - lia.
  - lia.
Qed.

(** C2, as the code has it.  A seek whose target is at or beyond the
    uncompressed size succeeds when it is absolute or relative to the
    cursor, and relative to the end with the offset 0: it returns the target
    and stores it as the plaintext cursor (the cursor is not clamped to the
    size), leaves the compressed cursor at the end of the body with an empty
    chunk buffer, and the next [Read] into a buffer that is not empty returns
    0 bytes and io.EOF.  Relative to the end with a positive offset it fails
    with io.EOF and leaves the reader as it was. *)
Theorem Seek_beyond_end (obj : list byte) (idx : list record) (total : Z)
    (r : Reader) (off whence : Z) :
  well_formed obj idx total -> attached obj idx r ->
  - 2 ^ 63 <= off < 2 ^ 63 ->
  let target := seek_target total (zipSeekOffset r) off whence in
  total <= target ->
  if (whence =? SeekEnd) && (off >? 0)
  then Seek r off whence = Done (r, (0, Some EOF))
  else exists r',
         Seek r off whence = Done (r', (target, None)) /\
         zipSeekOffset r' = target /\
         rawSeekOffset r' = zipOff (last_record idx) /\
         Len (chunkBuf r') = 0 /\
         (forall fuel plen, 0 < plen ->
            Read (S fuel) r' plen = Done (r', ([], Some EOF))).
Proof.
  intros Hwf Hat Hoff target Htarget.
  destruct (well_formed_bounds _ _ _ Hwf) as (Hne & Htot & Hb & Hmax).
  destruct (attached_parse _ _ _ _ Hwf Hat) as (r0 & Hp & Ht0 & Hi0 & Hinit0 & Hz0 & Hsame).
  assert (Hl : rawOff (last_record idx) = total) by apply Hwf.
  assert (H2 : (2 <= length idx)%nat) by apply Hwf.
  assert (Hsplit : index r0 = removelast idx ++ [last_record idx])
    by (rewrite Hi0; now apply index_split_last).
  assert (Hmax0 : forall x, In x (index r0) ->
            rawOff x <= rawOff (last_record idx) /\ zipOff x <= zipOff (last_record idx))
    by (rewrite Hi0; exact Hmax).
  assert (Hrange : target < 2 ^ 63).
  { unfold target, seek_target.
    destruct (whence =? SeekEnd); [apply wrap64_range|].
    destruct (whence =? SeekCurrent); [apply wrap64_range | lia]. }
  assert (Hgo : forall rr, parseTrailerIfNeeded rr = Done (r0, None) ->
            exists r', (x <- parseTrailerIfNeeded rr ;; seekStart (fst x) target)
                       = Done (r', (target, None)) /\
              zipSeekOffset r' = target /\
              rawSeekOffset r' = zipOff (last_record idx) /\
              Len (chunkBuf r') = 0 /\
              (forall fuel plen, 0 < plen ->
                 Read (S fuel) r' plen = Done (r', ([], Some EOF)))).
  { intros rr Hrr. rewrite Hrr. cbn [bind fst].
    rewrite (seekStart_at_end r0 (removelast idx) (last_record idx));
      try assumption; try lia; [|rewrite Hi0; exact H2].
    eexists. split; [reflexivity|]. repeat split.
    intros fuel plen Hplen.
    apply (Read_at_end fuel r0 (removelast idx)); try assumption.
    intros x Hx. apply Hmax0. exact Hx. }
  assert (Hstart : forall rr, parseTrailerIfNeeded rr = Done (r0, None) ->
            seekStart rr target = (x <- parseTrailerIfNeeded rr ;; seekStart (fst x) target)).
  { intros rr Hrr. rewrite Hrr. cbn [bind fst]. unfold seekStart at 1.
    rewrite Hrr. cbn [bind]. unfold seekStart.
    rewrite (parse_opened r0 Ht0). reflexivity. }
  unfold Seek. unfold target, seek_target in *.
  destruct (whence =? SeekEnd) eqn:Ee; cbn [andb].
  - destruct (off >? 0) eqn:Ep; [reflexivity|].
    rewrite Hp. cbn [bind]. rewrite Hi0, index_at_last by exact Hne. cbn [bind].
    rewrite Hl. destruct (Hgo r0 (parse_opened r0 Ht0)) as (r' & E & Rest).
    rewrite (parse_opened r0 Ht0) in E. cbn [bind fst] in E.
    exists r'. split; [exact E | exact Rest].
  - destruct (whence =? SeekCurrent) eqn:Ec.
    + rewrite Hstart by exact Hp. apply Hgo. exact Hp.
    + rewrite Hstart by exact Hp. apply Hgo. exact Hp.
Qed.


(** *** Seeking before the start *)

(** A parse that reports no error has set the trailer. *)
Lemma parse_sets_trailer (r r0 : Reader) :
  parseTrailerIfNeeded r = Done (r0, None) -> trailer r0 <> None.
Proof.
  unfold parseTrailerIfNeeded.
  destruct (trailer r) eqn:Et.
  { intros H. injection H as <-. congruence. }
  repeat match goal with
         | |- context [match ?x with _ => _ end] =>
             match type of x with
             | _ => destruct x eqn:?
             end
         end; try discriminate.
  intros H. injection H as <-. cbn. discriminate.
Qed.

(** A parse that reports no error leaves the plaintext cursor where it
    was, or at 0 when it was the first one. *)
Lemma parse_keeps_cursor (r r0 : Reader) :
  parseTrailerIfNeeded r = Done (r0, None) ->
  zipSeekOffset r0 = zipSeekOffset r \/ zipSeekOffset r0 = 0.
Proof.
  unfold parseTrailerIfNeeded.
  destruct (trailer r) eqn:Et.
  { intros H. injection H as <-. now left. }
  repeat match goal with
         | |- context [match ?x with _ => _ end] =>
             match type of x with
             | _ => destruct x eqn:?
             end
         end; try discriminate.
  intros H. injection H as <-. now right.
Qed.

(** C8, as the code has it.  For a reader whose parse of header, trailer
    and index reports no error, a seek whose target is negative returns 0
    and io.EOF, the value the code uses for this (there is no error of its
    own for a negative offset); the reader is left as it was, or as the
    parse left it when this seek was its first use, the plaintext cursor
    at 0 if it was there. *)
Theorem Seek_negative_target (r r0 : Reader) (off whence : Z) :
  parseTrailerIfNeeded r = Done (r0, None) ->
  (whence = SeekEnd -> index r0 <> []) ->
  seek_target (rawOff (last_record (index r0))) (zipSeekOffset r) off whence < 0 ->
  exists r',
    Seek r off whence = Done (r', (0, Some EOF)) /\
    (r' = r \/ r' = r0) /\
    (trailer r <> None -> r' = r) /\
    (zipSeekOffset r = 0 -> zipSeekOffset r' = 0).
Proof.
  intros Hp Hne Hneg.
  assert (Hcur : zipSeekOffset r = 0 -> zipSeekOffset r0 = 0).
  { intros Hz. destruct (parse_keeps_cursor _ _ Hp) as [H|H]; congruence. }
  assert (Ht0 : trailer r0 <> None) by (eapply parse_sets_trailer; eassumption).
  assert (Hsame : trailer r <> None -> r0 = r).
  { intros Ht. rewrite (parse_opened r Ht) in Hp. congruence. }
  assert (Hgo : forall rr t, parseTrailerIfNeeded rr = Done (r0, None) -> t < 0 ->
            seekStart rr t = Done (r0, (0, Some EOF))).
  { intros rr t Hrr Hlt. unfold seekStart. rewrite Hrr. cbn [bind].
    replace (t <? 0) with true by (symmetry; apply Z.ltb_lt; lia). reflexivity. }
  unfold Seek. unfold seek_target in Hneg.
  destruct (whence =? SeekEnd) eqn:Ee.
  - apply Z.eqb_eq in Ee. specialize (Hne Ee).
    destruct (off >? 0).
    + exists r. split; [reflexivity|]. split; [now left|]. split; [reflexivity|]. exact (fun H => H).
    + rewrite Hp. cbn [bind]. rewrite index_at_last by exact Hne. cbn [bind].
      rewrite (Hgo r0 _ (parse_opened r0 Ht0) Hneg).
      exists r0. split; [reflexivity|]. split; [now right|]. split; assumption.
  - destruct (whence =? SeekCurrent).
    + rewrite (Hgo r _ Hp Hneg).
      exists r0. split; [reflexivity|]. split; [now right|]. split; assumption.
    + rewrite (Hgo r _ Hp Hneg).
      exists r0. split; [reflexivity|]. split; [now right|]. split; assumption.
Qed.

Lemma flush_all_lay (cs : list (list byte)) (w : Writer) :
  flush_all w cs =
  match lay (walgo w) (raw_off w) (zip_off w) cs with
  | None => None
  | Some (body, recs, fin) =>
      Some (mkWriter (out w ++ body) (pendingBuf w) (windex w ++ recs)
                     (fst fin) (snd fin) (walgo w) (chunkSize w) (closed w))
  end.
Proof.
  revert w. induction cs as [|c cs IH]; intros w.
  - cbn. rewrite !app_nil_r. destruct w; reflexivity.
  - cbn [flush_all lay]. unfold flush, addRecord.
    cbn [walgo out pendingBuf windex raw_off zip_off chunkSize closed].
    destruct (Encode (walgo w) c) as [z|]; [|reflexivity].
    rewrite IH. cbn [walgo out pendingBuf windex raw_off zip_off chunkSize closed].
    destruct (lay (walgo w) (raw_off w + len c) (zip_off w + len z) cs)
      as [[[body recs] fin]|]; [|reflexivity].
    now rewrite <- !app_assoc.
Qed.

Lemma lay_app (a : Algorithm) (raw zip : Z) (cs1 cs2 : list (list byte)) :
  lay a raw zip (cs1 ++ cs2) =
  match lay a raw zip cs1 with
  | None => None
  | Some (body1, recs1, fin1) =>
      match lay a (fst fin1) (snd fin1) cs2 with
      | None => None
      | Some (body2, recs2, fin2) => Some (body1 ++ body2, recs1 ++ recs2, fin2)
      end
  end.
Proof.
  revert raw zip. induction cs1 as [|c cs1 IH]; intros raw zip.
  - cbn. destruct (lay a raw zip cs2) as [[[b r] f]|]; reflexivity.
  - cbn [app lay]. destruct (Encode a c) as [z|]; [|reflexivity].
    rewrite IH. destruct (lay a (raw + len c) (zip + len z) cs1) as [[[b1 r1] f1]|]; [|reflexivity].
    destruct (lay a (fst f1) (snd f1) cs2) as [[[b2 r2] f2]|]; [|reflexivity].
    now rewrite <- app_assoc.
Qed.

Lemma residue_nil_iff (bs : Z) (b : list byte) :
  0 < bs -> (residue bs b = [] <-> len b mod bs = 0).
Proof.
  intros H. pose proof (residue_length bs b H) as L. split.
  - intros E. rewrite E in L. rewrite <- L. reflexivity.
  - intros E. apply len_zero_nil. lia.
Qed.

Lemma closing_index_app (r1 r2 : list record) (fin : Z * Z) :
  r2 <> [] ->
  closing_index (r1 ++ r2) fin = (r1 ++ r2) ++ [mkRecord (fst fin) (snd fin)].
Proof.
  intros H. unfold closing_index.
  destruct (r1 ++ r2) eqn:E; [|reflexivity].
  apply app_eq_nil in E. tauto.
Qed.

(** What [Close] hands to the sink. *)
Lemma Close_out (w : Writer) :
  closed w = false ->
  option_map out (Close w) =
  match lay (walgo w) (raw_off w) (zip_off w)
            (match pendingBuf w with [] => [] | _ => [pendingBuf w] end) with
  | None => None
  | Some (body, recs, fin) =>
      let idx := closing_index (windex w ++ recs) fin in
      Some (out w ++ body ++ index_bytes idx
            ++ trailer_marshal (mkTrailer (len (index_bytes idx))))
  end.
Proof.
  intros Hc. unfold Close. rewrite Hc.
  destruct (pendingBuf w) as [|y ys] eqn:Ep.
  - cbn [lay]. rewrite app_nil_r. cbv zeta. unfold closing_index, index_bytes.
    destruct (windex w) eqn:Ew; unfold addRecord;
      cbn [windex out raw_off zip_off walgo chunkSize closed pendingBuf fst snd
           app option_map];
      rewrite ?Ew; reflexivity.
  - cbn [lay]. unfold flush, addRecord.
    cbn [windex out raw_off zip_off walgo chunkSize closed pendingBuf set_pending].
    destruct (Encode (walgo w) (y :: ys)) as [z|]; [|reflexivity].
    cbv zeta. rewrite closing_index_app by discriminate.
    cbn [windex out raw_off zip_off walgo chunkSize closed pendingBuf fst snd].
    destruct (windex w ++ [mkRecord (raw_off w) (zip_off w)]) eqn:E.
    { apply app_eq_nil in E. destruct E; discriminate. }
    cbn [windex out raw_off zip_off walgo chunkSize closed pendingBuf fst snd option_map].
    unfold index_bytes. rewrite app_nil_r, <- !app_assoc. reflexivity.
Qed.

(** The object the writer produces, by the layout of its chunks. *)
Lemma compress_at_lay (zip0 t cs : Z) (a : Algorithm) (p : list byte) :
  0 < cs -> AlgorithmFromType t = Some a ->
  compress_at zip0 t cs p =
  match lay a 0 zip0 (blocks cs p) with
  | None => None
  | Some (body, recs, fin) => Some (object t body (closing_index recs fin))
  end.
Proof.
  intros Hcs Ha. unfold compress_at, NewWriterAt. rewrite Ha.
  unfold Write. cbn [closed pendingBuf chunkSize app].
  rewrite flush_all_lay.
  cbn [walgo raw_off zip_off out pendingBuf windex chunkSize closed set_pending app].
  unfold blocks. rewrite lay_app.
  destruct (lay a 0 zip0 (full_blocks cs p)) as [[[b1 r1] f1]|]; [|reflexivity].
  match goal with |- match Close ?w with _ => _ end = _ =>
    change (option_map out (Close w) = 
      match
        match lay a (fst f1) (snd f1) (if len p mod cs =? 0 then [] else [residue cs p]) with
        | Some (body2, recs2, fin2) => Some (b1 ++ body2, r1 ++ recs2, fin2)
        | None => None
        end
      with
      | Some (body, recs, fin) => Some (object t body (closing_index recs fin))
      | None => None
      end);
    rewrite (Close_out w eq_refl)
  end.
  cbn [walgo raw_off zip_off out pendingBuf windex chunkSize closed].
  replace (match residue cs p with [] => [] | _ :: _ => [residue cs p] end)
    with (if len p mod cs =? 0 then [] else [residue cs p]).
  2:{ destruct (len p mod cs =? 0) eqn:E.
      - apply Z.eqb_eq in E. apply (residue_nil_iff cs p Hcs) in E. now rewrite E.
      - apply Z.eqb_neq in E. destruct (residue cs p) eqn:Er; [|reflexivity].
        apply (residue_nil_iff cs p Hcs) in Er. contradiction. }
  destruct (lay a (fst f1) (snd f1) _) as [[[b2 r2] f2]|]; [|reflexivity].
  cbv zeta. unfold object. rewrite <- !app_assoc. reflexivity.
Qed.


(** *** Reading the chunks in order *)

Lemma laid_zip_lower a obj raw zip recs cs :
  laid a obj raw zip recs cs -> forall x, In x recs -> zip <= zipOff x.
Proof.
  induction 1 as [raw zip | raw zip z c rest cs front back Ho Hf Hz Hd Hl IH];
    intros x Hx.
  - destruct Hx as [<-|[]]. cbn. lia.
  - destruct Hx as [<-|Hx]; [cbn; lia|]. specialize (IH x Hx). lia.
Qed.

Lemma lay_laid (a : Algorithm) (obj : list byte) (cs : list (list byte)) :
  codec_ok a -> Forall (fun c => c <> []) cs ->
  forall raw zip front back,
    len front = zip ->
    exists body recs fin,
      lay a raw zip cs = Some (body, recs, fin) /\
      fst fin = raw + len (concat cs) /\ snd fin = zip + len body /\
      (obj = front ++ body ++ back ->
       laid a obj raw zip (recs ++ [mkRecord (fst fin) (snd fin)]) cs) /\
      (forall x, In x recs -> raw <= rawOff x <= fst fin /\ zip <= zipOff x <= snd fin) /\
      (cs <> [] -> recs <> []).
Proof.
  intros Hok Hne. induction Hne as [|c cs Hc Hne IH]; intros raw zip front back Hf.
  - exists [], [], (raw, zip). cbn. repeat split; try lia; try tauto.
    intros _. apply laid_end.
  - destruct (Hok c Hc) as (z & He & Hz & Hd).
    destruct (IH (raw + len c) (zip + len z) (front ++ z) back) as
      (body & recs & fin & Hl & Hr & Hzp & Hlaid & Hb & _).
    { rewrite len_app. lia. }
    exists (z ++ body), (mkRecord raw zip :: recs), fin.
    cbn [lay]. rewrite He, Hl.
    assert (0 < len z).
    { destruct z; [congruence|]. rewrite len_cons. pose proof (len_nonneg z). lia. }
    pose proof (len_nonneg c). pose proof (len_nonneg body).
    pose proof (len_nonneg (concat cs)).
    split; [reflexivity|]. split; [|split; [|split; [|split]]].
    + cbn [concat]. rewrite len_app. lia.
    + rewrite len_app. lia.
    + intros Ho. cbn [app]. apply (laid_cons a obj raw zip z c _ cs front (body ++ back));
        try assumption.
      * rewrite Ho, <- app_assoc. reflexivity.
      * apply Hlaid. rewrite Ho, <- !app_assoc. reflexivity.
    + intros x [<-|Hx]; [cbn; lia|]. specialize (Hb x Hx). lia.
    + discriminate.
Qed.

Lemma reading_len_cur a obj r pre suffix raw zip cs cur :
  reading a obj r pre suffix raw zip cs cur ->
  len cur = size (chunkBuf r) - readOff (chunkBuf r).
Proof.
  intros (_ & _ & _ & _ & _ & _ & _ & Hr & Hs & _ & <-).
  rewrite len_skipn by lia. lia.
Qed.

(** Serving from the chunk buffer gives the next bytes of [cur]. *)
Lemma serveChunk_reading a obj r pre suffix raw zip cs cur plen acc :
  reading a obj r pre suffix raw zip cs cur -> 0 <= plen ->
  let n := Z.min plen (len cur) in
  exists r1,
    serveChunk r plen acc = Done (r1, plen - n, acc ++ firstn (Z.to_nat n) cur, None) /\
    reading a obj r1 pre suffix raw zip cs (skipn (Z.to_nat n) cur).
Proof.
  intros R Hp n.
  pose proof (reading_len_cur _ _ _ _ _ _ _ _ _ R) as Hlen.
  destruct R as (Hi & Hl & Hpre & Hraw & Ht & Ha & Hd & Hr & Hs & Hlt & Hcur).
  unfold serveChunk, Len.
  destruct (Z.eqb_spec (size (chunkBuf r) - readOff (chunkBuf r)) 0) as [E|E]; cbn [negb].
  - assert (Hn : n = 0) by lia. rewrite Hn.
    exists r. cbn [Z.to_nat firstn skipn]. rewrite app_nil_r, Z.sub_0_r.
    split; [reflexivity|]. repeat split; try assumption; lia.
  - unfold ChunkBuf.Read. rewrite slice_ok by lia. cbn [bind].
    rewrite len_slice by lia.
    replace (Z.min plen (size (chunkBuf r) - readOff (chunkBuf r))) with n by lia.
    assert (Hgot : firstn (Z.to_nat n)
                     (firstn (Z.to_nat (size (chunkBuf r) - readOff (chunkBuf r)))
                        (skipn (Z.to_nat (readOff (chunkBuf r))) (buf (chunkBuf r))))
                   = firstn (Z.to_nat n) cur).
    { rewrite firstn_firstn. rewrite Hcur. f_equal. lia. }
    rewrite Hgot.
    assert (Hlg : len (firstn (Z.to_nat n) cur) = n) by (rewrite len_firstn; lia).
    rewrite wrap64_small by lia.
    eexists. split.
    + destruct (n <? plen); rewrite Hlg; reflexivity.
    + destruct (n <? plen);
        (unfold reading;
         cbn [index rawSeekOffset trailer algo rawR chunkBuf set_chunkBuf
              set_zipSeekOffset readOff size buf];
         repeat split; try assumption; try lia;
         rewrite <- Hcur, skipn_skipn; f_equal; lia).
Qed.

(** Loading the next chunk. *)
Lemma readZipChunk_reading a obj r pre raw zip rest c cs cur :
  len obj < 2 ^ 63 -> len c < 2 ^ 63 ->
  reading a obj r pre (mkRecord raw zip :: rest) raw zip (c :: cs) cur ->
  exists r1 raw1 zip1,
    readZipChunk r = Done (r1, (Some c, None)) /\
    reading a obj r1 (pre ++ [mkRecord raw zip]) rest raw1 zip1 cs c.
Proof.
  intros Hobj Hc (Hi & Hl & Hpre & Hraw & Ht & Ha & Hd & Hr & Hs & Hlt & Hcur).
  inversion Hl as [|raw' zip' z c' rest' cs' front back Ho Hf Hz Hdec Hl' E1 E2 E3 E4].
  subst raw' zip' c' rest' cs'.
  assert (Hzb : len front + len z <= len obj).
  { rewrite Ho, !len_app. pose proof (len_nonneg back). lia. }
  assert (Hf0 := len_nonneg front).
  destruct rest as [|r2 rest2]; [inversion Hl'|].
  assert (Hr2 : r2 = mkRecord (raw + len c) (zip + len z)) by (inversion Hl'; reflexivity).
  unfold readZipChunk, fixZipChunk.
  cbn [rawSeekOffset set_chunkBuf]. rewrite Hraw.
  rewrite (chunkLookup_mid _ zip false pre (mkRecord raw zip) r2 rest2).
  2:{ cbn [index]. exact Hi. }
  2:{ intros x Hx. apply in_app_or in Hx. cbn [field].
      destruct Hx as [Hx|[<-|[]]]; [apply Hpre; exact Hx | cbn; lia]. }
  2:{ intros x Hx. cbn [field]. pose proof (laid_zip_lower _ _ _ _ _ _ Hl' x Hx). lia. }
  cbn [bind].
  assert (Hz2 : zipOff r2 = zip + len z) by (rewrite Hr2; reflexivity).
  cbn [zipOff rawOff]. rewrite Hz2.
  replace (zip + len z - zip) with (len z) by lia.
  rewrite wrap64_small by lia.
  replace (len z =? 0) with false by (symmetry; apply Z.eqb_neq; lia).
  rewrite raw_Seek_start by lia.
  simpl_reader. rewrite Hd.
  pose proof (raw_CopyN_at obj front z back Ho) as Hcopy. rewrite Hf in Hcopy.
  rewrite Hcopy. simpl_reader. rewrite Ha, Hdec.
  eexists. exists (raw + len c), (zip + len z). split; [reflexivity|].
  unfold reading, NewChunkBuffer.
  simpl_reader. cbn [readOff size buf Z.to_nat skipn].
  split; [rewrite Hi, <- app_assoc; reflexivity|].
  split; [exact Hl'|].
  split.
  { intros x Hx. apply in_app_or in Hx.
    destruct Hx as [Hx|[<-|[]]]; [specialize (Hpre x Hx); lia | cbn; lia]. }
  pose proof (len_nonneg c).
  repeat split; try assumption; try lia.
Qed.


Lemma firstn_app_le {A : Type} (n : Z) (l1 l2 : list A) :
  0 <= n <= len l1 -> firstn (Z.to_nat n) (l1 ++ l2) = firstn (Z.to_nat n) l1.
Proof.
  intros H. rewrite firstn_app.
  replace (Z.to_nat n - length l1)%nat with 0%nat by (unfold len in H; lia).
  cbn [firstn]. apply app_nil_r.
Qed.

Lemma skipn_app_le {A : Type} (n : Z) (l1 l2 : list A) :
  0 <= n <= len l1 -> skipn (Z.to_nat n) (l1 ++ l2) = skipn (Z.to_nat n) l1 ++ l2.
Proof.
  intros H. rewrite skipn_app.
  replace (Z.to_nat n - length l1)%nat with 0%nat by (unfold len in H; lia).
  reflexivity.
Qed.

Lemma firstn_app_ge {A : Type} (n : Z) (l1 l2 : list A) :
  len l1 <= n ->
  firstn (Z.to_nat n) (l1 ++ l2) = l1 ++ firstn (Z.to_nat (n - len l1)) l2.
Proof.
  intros H. rewrite firstn_app.
  rewrite firstn_all2 by (unfold len in H; lia).
  do 2 f_equal. unfold len. lia.
Qed.

Lemma skipn_app_ge {A : Type} (n : Z) (l1 l2 : list A) :
  len l1 <= n ->
  skipn (Z.to_nat n) (l1 ++ l2) = skipn (Z.to_nat (n - len l1)) l2.
Proof.
  intros H. rewrite skipn_app.
  rewrite skipn_all2 by (unfold len in H; lia).
  cbn [app]. f_equal. unfold len. lia.
Qed.

Lemma firstn_len_all {A : Type} (l : list A) : firstn (Z.to_nat (len l)) l = l.
Proof. unfold len. rewrite Nat2Z.id. apply firstn_all. Qed.

Lemma skipn_len_all {A : Type} (l : list A) : skipn (Z.to_nat (len l)) l = [].
Proof. unfold len. rewrite Nat2Z.id. apply skipn_all. Qed.

(** One call of the loop of [Read] on a reader in a sequential pass: it
    returns the next [plen] bytes of what is left of the plaintext, with
    io.EOF when fewer are left. *)
Lemma Read_loop_reading (a : Algorithm) (obj : list byte) :
  len obj < 2 ^ 63 ->
  forall cs, Forall (fun c => len c < 2 ^ 63) cs ->
  forall r pre suffix raw zip cur fuel plen acc,
    reading a obj r pre suffix raw zip cs cur -> 0 <= plen ->
    (length cs < fuel)%nat ->
    exists r' pre' suffix' raw' zip' cs' cur',
      Read_loop fuel r plen acc =
        Done (r', (acc ++ firstn (Z.to_nat plen) (cur ++ concat cs),
                   if len (cur ++ concat cs) <? plen then Some EOF else None)) /\
      reading a obj r' pre' suffix' raw' zip' cs' cur' /\
      cur' ++ concat cs' = skipn (Z.to_nat plen) (cur ++ concat cs) /\
      (length cs' <= length cs)%nat /\
      Forall (fun c => len c < 2 ^ 63) cs'.
Proof.
  intros Hobj cs Hall.
  induction Hall as [|c cs Hc Hall IH];
    intros r pre suffix raw zip cur fuel plen acc R Hp Hfuel;
    (destruct fuel as [|fuel]; [cbn [length] in Hfuel; lia|]);
    cbn [Read_loop];
    destruct (serveChunk_reading _ _ _ _ _ _ _ _ _ plen acc R Hp) as (r1 & Hs & R1);
    rewrite Hs; cbn [bind];
    pose proof (len_nonneg cur) as Hcur0;
    destruct (Z.eqb_spec (plen - Z.min plen (len cur)) 0) as [E|E].
  - (* served from the buffer, no chunk left *)
    assert (Hle : plen <= len cur) by lia.
    replace (Z.min plen (len cur)) with plen in * by lia.
    exists r1, pre, suffix, raw, zip, [], (skipn (Z.to_nat plen) cur).
    cbn [concat]. rewrite !app_nil_r.
    replace (len cur <? plen) with false by (symmetry; apply Z.ltb_ge; lia).
    split; [reflexivity|]. split; [exact R1|]. split; [reflexivity|].
    split; [lia | constructor].
  - (* the buffer is exhausted and so is the index *)
    assert (Hgt : len cur < plen) by lia.
    replace (Z.min plen (len cur)) with (len cur) in * by lia.
    rewrite skipn_len_all in R1. rewrite firstn_len_all.
    destruct R1 as (Hi & Hl & Hpre & Hraw & Ht & Ha & Hd & Hr & Hsz & Hlt & Hc1).
    inversion Hl as [raw' zip' E1 E2 E3 E4|]. subst raw' zip' suffix.
    rewrite (readZipChunk_at_end r1 pre (mkRecord raw zip)); try assumption.
    2:{ intros x Hx. rewrite Hi in Hx. apply in_app_or in Hx.
        destruct Hx as [Hx|[<-|[]]]; [apply Hpre; exact Hx | cbn; lia]. }
    cbn [bind concat]. rewrite !app_nil_r.
    exists (set_chunkBuf r1 (mkChunkBuffer [] 0 0 0)), pre, [mkRecord raw zip], raw, zip,
           [], [].
    replace (len cur <? plen) with true by (symmetry; apply Z.ltb_lt; lia).
    rewrite firstn_all2 by (unfold len in *; lia).
    rewrite skipn_all2 by (unfold len in *; lia).
    split; [reflexivity|].
    split; [|split; [reflexivity | split; [lia | constructor]]].
    unfold reading. simpl_reader. cbn [readOff size buf Z.to_nat skipn].
    repeat split; try assumption; try lia.
  - (* served from the buffer, chunks left *)
    assert (Hle : plen <= len cur) by lia.
    replace (Z.min plen (len cur)) with plen in * by lia.
    exists r1, pre, suffix, raw, zip, (c :: cs), (skipn (Z.to_nat plen) cur).
    pose proof (len_nonneg (concat (c :: cs))).
    replace (len (cur ++ concat (c :: cs)) <? plen) with false
      by (symmetry; apply Z.ltb_ge; rewrite len_app; lia).
    rewrite firstn_app_le, skipn_app_le by lia.
    split; [reflexivity|]. split; [exact R1|]. split; [reflexivity|].
    split; [lia | constructor; assumption].
  - (* the buffer is exhausted: load the next chunk and go on *)
    assert (Hgt : len cur < plen) by lia.
    replace (Z.min plen (len cur)) with (len cur) in * by lia.
    rewrite skipn_len_all in R1. rewrite firstn_len_all.
    assert (Hsuf : exists rest, suffix = mkRecord raw zip :: rest).
    { destruct R1 as (_ & Hl & _). inversion Hl. eauto. }
    destruct Hsuf as (rest & ->).
    destruct (readZipChunk_reading _ _ _ _ _ _ _ _ _ _ Hobj Hc R1)
      as (r2 & raw1 & zip1 & Hz & R2).
    rewrite Hz. cbn [bind].
    destruct (IH r2 _ _ _ _ _ fuel (plen - len cur) (acc ++ cur) R2)
      as (r' & pre' & suffix' & raw' & zip' & cs' & cur' & HR & R' & Hrem & Hlen & Hall');
      [lia | cbn [length] in Hfuel; lia |].
    exists r', pre', suffix', raw', zip', cs', cur'.
    rewrite HR. cbn [concat].
    rewrite (firstn_app_ge plen cur), (skipn_app_ge plen cur) by lia.
    rewrite (len_app cur), <- app_assoc.
    split.
    { do 3 f_equal.
      destruct (Z.ltb_spec (len (c ++ concat cs)) (plen - len cur));
        destruct (Z.ltb_spec (len cur + len (c ++ concat cs)) plen); try reflexivity; lia. }
    split; [exact R'|]. split; [exact Hrem|]. split; [cbn [length]; lia | exact Hall'].
Qed.

(** Reading to the end gives all that is left of the plaintext. *)
Lemma ReadAll_reading (a : Algorithm) (obj : list byte) :
  len obj < 2 ^ 63 ->
  forall fuel cs r r0 pre suffix raw zip cur readFuel plen acc,
    Forall (fun c => len c < 2 ^ 63) cs ->
    parseTrailerIfNeeded r = Done (r0, None) ->
    reading a obj r0 pre suffix raw zip cs cur ->
    0 < plen -> (length cs < readFuel)%nat ->
    (length (cur ++ concat cs) < fuel)%nat ->
    exists r',
      ReadAll fuel readFuel r plen acc = Done (r', (acc ++ cur ++ concat cs, None)).
Proof.
  intros Hobj fuel.
  induction fuel as [|fuel IH];
    intros cs r r0 pre suffix raw zip cur readFuel plen acc Hall Hparse R Hp Hrf Hf; [lia|].
  cbn [ReadAll]. unfold Read. rewrite Hparse. cbn [bind].
  destruct (Read_loop_reading a obj Hobj cs Hall r0 _ _ _ _ _ readFuel plen [] R
              ltac:(lia) Hrf)
    as (r' & pre' & suffix' & raw' & zip' & cs' & cur' & HR & R' & Hrem & Hlen & Hall').
  rewrite HR. cbn [bind app].
  destruct (Z.ltb_spec (len (cur ++ concat cs)) plen) as [Hlt|Hge].
  - exists r'. rewrite firstn_all2 by (unfold len in Hlt; lia). reflexivity.
  - assert (Ht' : trailer r' <> None) by apply R'.
    destruct (IH cs' r' r' pre' suffix' raw' zip' cur' readFuel plen
                 (acc ++ firstn (Z.to_nat plen) (cur ++ concat cs)))
      as (r'' & HA); try assumption.
    + now apply parse_opened.
    + lia.
    + rewrite Hrem, length_skipn. unfold len in Hge. lia.
    + exists r''. rewrite HA. rewrite Hrem, <- app_assoc, firstn_skipn. reflexivity.
Qed.


(** *** The chunks of a plaintext *)

Lemma blocks_facts (bs : Z) :
  0 < bs ->
  forall (n : nat) (p : list byte), (length p <= n)%nat ->
    concat (blocks bs p) = p /\ Forall (fun c => c <> []) (blocks bs p).
Proof.
  intros Hbs. induction n as [|n IH]; intros p Hn.
  - destruct p; [|cbn [length] in Hn; lia].
    rewrite blocks_nil by lia. split; [reflexivity | constructor].
  - destruct p as [|b p]; [rewrite blocks_nil by lia; split; [reflexivity | constructor]|].
    assert (Hl : 0 < len (b :: p)) by (rewrite len_cons; pose proof (len_nonneg p); lia).
    rewrite (blocks_unfold bs (b :: p) Hbs Hl).
    set (m := Z.to_nat (if len (b :: p) >? bs then bs else len (b :: p))).
    assert (Hm : (0 < m)%nat) by (unfold m; destruct (_ >? _); lia).
    destruct (IH (skipn m (b :: p))) as [Hc Hf].
    { rewrite length_skipn. cbn [length] in *. lia. }
    split.
    + cbn [concat]. rewrite Hc. apply firstn_skipn.
    + constructor; [|exact Hf]. destruct m; [lia | discriminate].
Qed.

Lemma concat_blocks (bs : Z) (p : list byte) : 0 < bs -> concat (blocks bs p) = p.
Proof. intros H. apply (blocks_facts bs H (length p) p). lia. Qed.

Lemma blocks_nonempty (bs : Z) (p : list byte) :
  0 < bs -> Forall (fun c => c <> []) (blocks bs p).
Proof. intros H. apply (blocks_facts bs H (length p) p). lia. Qed.

Lemma length_concat_nonempty (l : list (list byte)) :
  Forall (fun c => c <> []) l -> (length l <= length (concat l))%nat.
Proof.
  induction 1 as [|c l Hc Hl IH]; [cbn; lia|].
  cbn [concat length]. rewrite length_app.
  destruct c; [congruence | cbn [length]; lia].
Qed.

Lemma len_in_concat (l : list (list byte)) (c : list byte) :
  In c l -> len c <= len (concat l).
Proof.
  induction l as [|d l IH]; [contradiction|].
  intros [->|H]; cbn [concat]; rewrite len_app.
  - pose proof (len_nonneg (concat l)). lia.
  - specialize (IH H). pose proof (len_nonneg d). lia.
Qed.

(** C1, as the code allows it.  For every plaintext [p], the empty one
    included, every algorithm type the reader knows and whose codec gives
    back what it is given, and every chunk size, the object the compressor
    writes when the [zip_off] of its records counts from the start of the
    object (the first record at [headerSize], the offset the reader starts
    from and seeks to) reads back as [p]: [Read] called with a buffer of
    [plen > 0] bytes until io.EOF returns exactly the bytes of [p]. *)
Theorem compress_roundtrip (t cs : Z) (a : Algorithm) (p : list byte) (plen : Z)
    (fuel readFuel : nat) :
  AlgorithmFromType t = Some a -> 0 <= t < 256 -> codec_ok a ->
  0 < cs -> 0 < plen -> len p < 2 ^ 63 ->
  (length p < readFuel)%nat -> (length p < fuel)%nat ->
  exists obj,
    compress_at headerSize t cs p = Some obj /\
    (len obj < 2 ^ 63 ->
     exists r', ReadAll fuel readFuel (NewReader (mkRawR obj 0)) plen []
                = Done (r', (p, None))).
Proof.
  intros Ha Ht Hok Hcs Hplen Hp Hrf Hf.
  pose proof (blocks_nonempty cs p Hcs) as Hne.
  pose proof (concat_blocks cs p Hcs) as Hcat.
  set (bl := blocks cs p) in *.
  destruct (lay_laid a (makeHeader t ++ [] ) bl Hok Hne 0 headerSize (makeHeader t) [])
    as (body & recs & fin & Hlay & Hraw & Hzip & _ & Hb & Hrec); [reflexivity|].
  rewrite (compress_at_lay headerSize t cs a p Hcs Ha). fold bl. rewrite Hlay.
  eexists. split; [reflexivity|]. intros Hobj.
  set (idx := closing_index recs fin) in *.
  set (obj := object t body idx) in *.
  set (e := mkRecord (fst fin) (snd fin)).
  rewrite Hcat in Hraw.
  pose proof (len_nonneg p) as Hp0. pose proof (len_nonneg body) as Hb0.
  assert (Hlen : len obj = 12 + len body + len (index_bytes idx) + 16).
  { unfold obj, object. rewrite !len_app, len_trailer_marshal, len_makeHeader.
    unfold headerSize, trailerSize. lia. }
  pose proof (len_nonneg (index_bytes idx)) as Hi0.
  assert (Hfin : 0 <= fst fin < 2 ^ 63 /\ 0 <= snd fin < 2 ^ 63)
    by (unfold headerSize in *; lia).
  assert (Hidx : forall x, In x idx -> 0 <= rawOff x < 2 ^ 63 /\ 0 <= zipOff x < 2 ^ 63).
  { assert (He : 0 <= rawOff e < 2 ^ 63 /\ 0 <= zipOff e < 2 ^ 63) by (cbn; lia).
    assert (Hr : forall x, In x recs -> 0 <= rawOff x < 2 ^ 63 /\ 0 <= zipOff x < 2 ^ 63).
    { intros x Hx. specialize (Hb x Hx). unfold headerSize in *. lia. }
    intros x Hx. unfold idx, closing_index in Hx. fold e in Hx.
    destruct recs as [|r0 recs'].
    - destruct Hx as [<-|[<-|[]]]; exact He.
    - apply in_app_or in Hx. destruct Hx as [Hx|[<-|[]]]; [apply Hr; exact Hx | exact He]. }
  pose proof (parse_object t a body idx Ht Ha Hidx Hobj) as Hparse. fold obj in Hparse.
  destruct (lay_laid a obj bl Hok Hne 0 headerSize (makeHeader t)
              (index_bytes idx ++ trailer_marshal (mkTrailer (len (index_bytes idx)))))
    as (body' & recs' & fin' & Hlay' & _ & _ & Hlaid & _ & _); [reflexivity|].
  rewrite Hlay in Hlay'. injection Hlay' as <- <- <-.
  specialize (Hlaid eq_refl). fold e in Hlaid.
  assert (Hall : Forall (fun c => len c < 2 ^ 63) bl).
  { apply Forall_forall. intros c Hc. pose proof (len_in_concat bl c Hc). rewrite Hcat in H. lia. }
  assert (Hnum : (length bl <= length p)%nat).
  { pose proof (length_concat_nonempty bl Hne). rewrite Hcat in H. exact H. }
  assert (R : exists pre suffix,
             reading a obj
               (mkReader (mkRawR obj headerSize) idx (NewChunkBuffer (Some []))
                         (Some (mkTrailer (len (index_bytes idx))))
                         headerSize 0 false (Some a) [])
               pre suffix 0 headerSize bl []).
  { destruct recs as [|r0 recs'] eqn:Er.
    - assert (Hbl : bl = []).
      { clearbody bl. destruct bl; [reflexivity|].
        exfalso. apply Hrec; [discriminate | reflexivity]. }
      assert (He0 : e = mkRecord 0 headerSize).
      { unfold e. rewrite Hbl in Hlay. cbn [lay] in Hlay.
        injection Hlay as _ <-. reflexivity. }
      exists [e], [e]. unfold reading. simpl_reader.
      cbn [NewChunkBuffer readOff size buf Z.to_nat skipn].
      split; [reflexivity|].
      rewrite Hbl, He0.
      repeat split; try discriminate; try (cbn; lia).
      + apply laid_end.
      + intros x [<-|[]]. cbn. lia.
    - exists [], idx. unfold reading. simpl_reader.
      cbn [NewChunkBuffer readOff size buf Z.to_nat skipn].
      repeat split; try discriminate; try (cbn; lia); try contradiction.
      exact Hlaid. }
  destruct R as (pre & suffix & R).
  destruct (ReadAll_reading a obj Hobj fuel bl _ _ pre suffix 0 headerSize [] readFuel plen []
              Hall Hparse R Hplen) as (r' & HA).
  - lia.
  - cbn [app]. rewrite Hcat. exact Hf.
  - exists r'. rewrite HA. cbn [app]. now rewrite Hcat.
Qed.

End WithCodecs.

Lemma sample_well_formed :
  well_formed (codecs := toy_codecs) sample_object sample_index 1.
Proof.
  unfold well_formed. split.
  - exists 0, [x41]. split; [reflexivity|]. split; [lia | discriminate].
  - split; [cbn; lia|]. split.
    + unfold ordered, sample_index. repeat constructor; cbn; lia.
    + repeat split; try reflexivity; try (cbn; lia).
Qed.

(** C3, at the failing input: the index of [decreasing_object] goes from
    (4, 16) down to (0, 12); the parse reports no error, keeps both records,
    and seeks on the reader succeed. *)
Example parse_accepts_decreasing_index :
  exists r r',
    parseTrailerIfNeeded (codecs := toy_codecs) (NewReader (mkRawR decreasing_object 0))
    = Done (r, None) /\
    index r = decreasing_index /\
    Seek (codecs := toy_codecs) (NewReader (mkRawR decreasing_object 0)) 0 SeekEnd
    = Done (r', (0, None)).
Proof.
  do 2 eexists. split; [vm_compute; reflexivity|].
  split; [reflexivity | vm_compute; reflexivity].
Qed.

(** C1 as stated fails: with the offsets of the data model ([zip_off]
    counted in the body, the first record at 0) the object for the one-byte
    plaintext "A" reads back as the empty string. *)
Lemma roundtrip_fails_with_body_offsets :
  exists obj r',
    compress (codecs := toy_codecs) 0 targetChunkSize [x41] = Some obj /\
    ReadAll (codecs := toy_codecs) 4 4 (NewReader (mkRawR obj 0)) 1 []
    = Done (r', ([], None)).
Proof.
  do 2 eexists. split; [vm_compute; reflexivity|]. vm_compute. reflexivity.
Qed.

Lemma toy_mark_ok : codec_ok toy_mark.
Proof.
  intros c Hc. exists (x01 :: c). repeat split. discriminate.
Qed.

(** A run of C1: six bytes, chunks of four, the codec that marks. *)
Lemma compress_roundtrip_witness :
  let p := [x41; x42; x43; x44; x45; x46] in
  exists obj r',
    compress_at (codecs := toy_codecs) headerSize 1 4 p = Some obj /\
    ReadAll (codecs := toy_codecs) 7 7 (NewReader (mkRawR obj 0)) 4 [] = Done (r', (p, None)).
Proof.
  intros p.
  destruct (compress_roundtrip (codecs := toy_codecs) 1 4 toy_mark p 4 7 7)
    as (obj & Hc & Hr).
  - reflexivity.
  - lia.
  - exact toy_mark_ok.
  - lia.
  - lia.
  - vm_compute. reflexivity.
  - cbn. lia.
  - cbn. lia.
  - assert (Hl : len obj < 2 ^ 63).
    { vm_compute in Hc. injection Hc as <-. vm_compute. reflexivity. }
    destruct (Hr Hl) as (r' & HA).
    exists obj, r'. split; [exact Hc | exact HA].
Defined.

(** C2 as stated fails: relative to the end, a positive offset is
    refused. *)
Lemma Seek_end_positive_fails :
  well_formed (codecs := toy_codecs) sample_object sample_index 1 /\
  Seek (codecs := toy_codecs) (NewReader (mkRawR sample_object 0)) 1 SeekEnd
  = Done (NewReader (mkRawR sample_object 0), (0, Some EOF)).
Proof. split; [exact sample_well_formed | reflexivity]. Qed.

(** A run of C2: an absolute seek to offset 5 of the one-byte stream. *)
Lemma Seek_beyond_end_witness :
  exists r',
    Seek (codecs := toy_codecs) (NewReader (mkRawR sample_object 0)) 5 SeekStart
    = Done (r', (5, None)) /\
    zipSeekOffset r' = 5 /\
    Read (codecs := toy_codecs) 1 r' 3 = Done (r', ([], Some EOF)).
Proof.
  pose proof (Seek_beyond_end (codecs := toy_codecs) sample_object sample_index 1
                (NewReader (mkRawR sample_object 0)) 5 SeekStart
                sample_well_formed (or_introl eq_refl)) as H.
  cbv zeta in H. cbn [SeekStart SeekEnd Z.eqb andb] in H.
  destruct H as (r' & H1 & H2 & _ & _ & H5).
  - lia.
  - vm_compute. discriminate.
  - exists r'. split; [exact H1|]. split; [exact H2|]. apply H5. lia.
Defined.

(** A run of C7. *)
Lemma Seek_end_is_size_witness :
  exists r',
    Seek (codecs := toy_codecs) (NewReader (mkRawR sample_object 0)) 0 SeekEnd
    = Done (r', (1, None)).
Proof.
  destruct (Seek_end_is_size (codecs := toy_codecs) sample_object sample_index 1
              (NewReader (mkRawR sample_object 0)) sample_well_formed (or_introl eq_refl))
    as (r' & H & _).
  exists r'. exact H.
Defined.

(** C8 as stated fails for a reader whose object does not parse: the error
    of the parse comes first. *)
Lemma Seek_negative_on_bad_object :
  exists r',
    Seek (codecs := toy_codecs) (NewReader (mkRawR (repeat x00 44) 0)) (-1) SeekStart
    = Done (r', (0, Some ErrBadMagic)).
Proof. eexists. vm_compute. reflexivity. Qed.

(** A run of C8. *)
Lemma Seek_negative_target_witness :
  exists r',
    Seek (codecs := toy_codecs) (NewReader (mkRawR sample_object 0)) (-1) SeekStart
    = Done (r', (0, Some EOF)).
Proof.
  assert (P : exists r0, parseTrailerIfNeeded (codecs := toy_codecs)
                (NewReader (mkRawR sample_object 0)) = Done (r0, None)).
  { eexists. vm_compute. reflexivity. }
  destruct P as (r0 & P).
  destruct (Seek_negative_target (codecs := toy_codecs) _ r0 (-1) SeekStart P)
    as (r' & H & _).
  - intros C. discriminate C.
  - cbn. lia.
  - exists r'. exact H.
Defined.

End CompressFacts.

(** ** More on the chunk buffer *)

Module ChunkBufMore.

Import ChunkBuf GoFacts ChunkBufFacts.

(** X1.  For a buffer whose offsets are in bounds and a destination of
    [plen] bytes, [Read] copies [min plen (Len c)] bytes, starting at the
    read offset, and advances the read offset by that count; it returns
    io.EOF exactly when fewer than [plen] bytes were left (also when it
    copied some), and a nil error otherwise; the backing bytes, [size] and
    the write offset are unchanged and the buffer stays in bounds. *)
Theorem Read_copies_min (c : ChunkBuffer) (plen : Z) :
  in_bounds c -> 0 <= plen ->
  let n := Z.min plen (Len c) in
  exists c',
    Read c plen = Done (c', (firstn (Z.to_nat n) (skipn (Z.to_nat (readOff c)) (buf c)),
                             if Len c <? plen then Some EOF else None)) /\
    readOff c' = readOff c + n /\ Len c' = Len c - n /\
    buf c' = buf c /\ size c' = size c /\ writeOff c' = writeOff c /\
    in_bounds c'.
Proof.
  intros (Hr & Hw & Hs & Hm) Hp n.
  unfold Len in *. unfold maxInt in Hm.
  assert (Hn : 0 <= n <= size c - readOff c) by (unfold n; lia).
  unfold Read. rewrite slice_ok by lia. cbn [bind].
  rewrite len_slice by lia.
  replace (Z.min plen (size c - readOff c)) with n by reflexivity.
  rewrite wrap64_small by lia.
  eexists. split.
  - f_equal. f_equal. f_equal.
    + rewrite firstn_firstn. f_equal. lia.
    + unfold n. destruct (Z.ltb_spec (Z.min plen (size c - readOff c)) plen);
        destruct (Z.ltb_spec (size c - readOff c) plen); try reflexivity; lia.
  - cbn [buf readOff writeOff size]. unfold in_bounds. cbn [buf readOff writeOff size].
    repeat split; try lia; try assumption.
Qed.


(** X2.  For a buffer in bounds, a seek whose target [t] (the offset itself,
    or the offset added to the read offset or to [size]) is in
    [0, 2^63) returns [min t size] with a nil error: a target beyond the
    contents is clamped to [size].  The read and the write offset are both
    set to that value, the contents are unchanged, and the buffer stays in
    bounds. *)
Theorem Seek_clamps (c : ChunkBuffer) (off wh t : Z) :
  in_bounds c ->
  (wh = SeekStart /\ t = off) \/ (wh = SeekCurrent /\ t = readOff c + off) \/
  (wh = SeekEnd /\ t = size c + off) ->
  0 <= t < 2 ^ 63 ->
  exists c',
    Seek c off wh = (c', (Z.min t (size c), None)) /\
    readOff c' = Z.min t (size c) /\ writeOff c' = Z.min t (size c) /\
    Len c' = Z.max 0 (size c - t) /\
    buf c' = buf c /\ size c' = size c /\ in_bounds c'.
Proof.
  intros (Hr & Hw & Hs & Hm) Hwh Ht.
  assert (E : Seek c off wh =
              (mkChunkBuffer (buf c) (Z.min t (size c)) (Z.min t (size c)) (size c),
               (Z.min t (size c), None))).
  { unfold Seek.
    destruct Hwh as [(-> & ->)|[(-> & ->)|(-> & ->)]]; cbn [Z.eqb SeekStart SeekCurrent SeekEnd Pos.eqb].
    - reflexivity.
    - rewrite wrap64_small by lia. reflexivity.
    - rewrite wrap64_small by lia. reflexivity. }
  eexists. split; [exact E|].
  unfold Len, in_bounds. cbn [buf readOff writeOff size].
  repeat split; try lia; assumption.
Qed.

Lemma step_in_bounds (c : ChunkBuffer) (o : op) :
  in_bounds c -> safe_op (size c) o ->
  exists c', step c o = Done c' /\ in_bounds c' /\ size c' = size c.
Proof.
  intros Hb Hs. pose proof Hb as (Hr & Hw & Hsz & Hm). unfold maxInt in Hm.
  assert (Hm' : size c <= maxInt) by (unfold maxInt; lia).
  destruct o as [p|n|off wh|w]; cbn [step safe_op] in *.
  - unfold Write. rewrite slice_ok by lia. cbn [bind]. rewrite len_slice by lia.
    pose proof (len_nonneg p) as Hp.
    set (n := Z.min (size c - writeOff c) (len p)).
    assert (Hn : 0 <= n <= size c - writeOff c) by (unfold n; lia).
    rewrite wrap64_small by lia. rewrite Z.max_l by lia.
    eexists. split; [reflexivity|]. cbn [fst]. split; [|reflexivity].
    unfold in_bounds. cbn [buf readOff writeOff size].
    rewrite !len_app, !len_firstn, len_skipn by lia.
    repeat split; try lia.
  - unfold Read. rewrite slice_ok by lia. cbn [bind]. rewrite len_slice by lia.
    set (k := Z.min (Z.of_nat n) (size c - readOff c)).
    assert (Hk : 0 <= k <= size c - readOff c) by (unfold k; lia).
    rewrite wrap64_small by lia.
    eexists. split; [reflexivity|]. cbn [fst]. split; [|reflexivity].
    unfold in_bounds. cbn [buf readOff writeOff size]. repeat split; try lia.
  - eexists. split; [reflexivity|]. unfold Seek.
    destruct Hs as [(-> & Ho)|(-> & Ho)];
      cbn [Z.eqb SeekStart SeekCurrent SeekEnd Pos.eqb];
      [|rewrite wrap64_small by lia];
      cbn [fst]; unfold in_bounds; cbn [buf readOff writeOff size];
      repeat split; try lia.
  - unfold WriteTo. rewrite slice_ok by lia. cbn [bind].
    unfold sink_write. destruct (fault w (calls w)).
    + eexists. split; [reflexivity|]. cbn [fst]. split; [assumption | reflexivity].
    + rewrite len_slice by lia. rewrite wrap64_small by lia.
      eexists. split; [reflexivity|]. cbn [fst]. split; [|reflexivity].
      unfold in_bounds. cbn [buf readOff writeOff size]. repeat split; try lia.
Qed.

(** X3.  Any run of [Write], [Read], [WriteTo] (into any writer, failing
    or not) and of seeks that are absolute and not negative, or relative to
    the end and inside the contents, started on a buffer in bounds, returns
    without a panic, leaves the buffer in bounds and does not change
    [size]. *)
Theorem run_in_bounds (c : ChunkBuffer) (ops : list op) :
  in_bounds c -> Forall (safe_op (size c)) ops ->
  exists c', run c ops = Done c' /\ in_bounds c' /\ size c' = size c.
Proof.
  revert c. induction ops as [|o ops IH]; intros c Hb Hs.
  - exists c. split; [reflexivity|]. split; [assumption | reflexivity].
  - inversion Hs as [|? ? Ho Hrest]; subst.
    destruct (step_in_bounds c o Hb Ho) as (c1 & E1 & Hb1 & Hs1).
    rewrite <- Hs1 in Hrest.
    destruct (IH c1 Hb1 Hrest) as (c' & E' & Hb' & Hs').
    exists c'. cbn [run]. rewrite E1. cbn [bind]. rewrite E'.
    split; [reflexivity|]. split; [assumption | congruence].
Qed.

(** X4.  What is written at an offset is read back from it: after
    [Seek(off, io.SeekStart)], a [Write(p)] that fits ([off + len p <= size])
    stores all of [p] with a nil error, and after a second
    [Seek(off, io.SeekStart)] a [Read] into [len p] bytes returns exactly [p]
    with a nil error. *)
Theorem Write_Seek_Read (c : ChunkBuffer) (off : Z) (p : list byte) :
  in_bounds c -> 0 <= off -> off + len p <= size c ->
  exists c1 c2,
    Write (fst (Seek c off SeekStart)) p = Done (c1, (len p, None)) /\
    Read (fst (Seek c1 off SeekStart)) (len p) = Done (c2, (p, None)) /\
    size c2 = size c /\ readOff c2 = off + len p.
Proof.
  intros (Hr & Hw & Hs & Hm) Ho Hfit. unfold maxInt in Hm.
  pose proof (len_nonneg p) as Hp.
  unfold Seek at 1. cbn [Z.eqb SeekStart SeekCurrent SeekEnd Pos.eqb fst].
  rewrite Z.min_l by lia.
  unfold Write. cbn [buf readOff writeOff size].
  rewrite slice_ok by lia. cbn [bind]. rewrite len_slice by lia.
  rewrite (Z.min_r (size c - off) (len p)) by lia.
  rewrite wrap64_small by lia. rewrite Z.max_l by lia.
  do 2 eexists. split; [reflexivity|].
  unfold Seek. cbn [Z.eqb SeekStart SeekCurrent SeekEnd Pos.eqb fst buf readOff writeOff size].
  rewrite Z.min_l by lia.
  unfold Read. cbn [buf readOff writeOff size].
  assert (Hl : len (firstn (Z.to_nat off) (buf c) ++ firstn (Z.to_nat (len p)) p
                    ++ skipn (Z.to_nat (off + len p)) (buf c)) = size c).
  { rewrite !len_app, !len_firstn, len_skipn by lia. lia. }
  rewrite slice_ok by lia. cbn [bind]. rewrite len_slice by lia.
  rewrite (Z.min_l (len p) (size c - off)) by lia.
  rewrite wrap64_small by lia. rewrite Z.ltb_irrefl.
  assert (Hgot : firstn (Z.to_nat (len p))
                   (firstn (Z.to_nat (size c - off))
                      (skipn (Z.to_nat off)
                         (firstn (Z.to_nat off) (buf c) ++ firstn (Z.to_nat (len p)) p
                          ++ skipn (Z.to_nat (off + len p)) (buf c)))) = p).
  { rewrite firstn_firstn, Nat.min_l by lia.
    rewrite skipn_app.
    assert (Hf : length (firstn (Z.to_nat off) (buf c)) = Z.to_nat off).
    { rewrite length_firstn. unfold len in Hs. lia. }
    rewrite Hf, Nat.sub_diag. cbn [skipn].
    rewrite (skipn_all2 (firstn (Z.to_nat off) (buf c))) by lia. cbn [app].
    unfold len. rewrite Nat2Z.id. rewrite firstn_all.
    rewrite firstn_app, firstn_all, Nat.sub_diag. cbn [firstn]. now rewrite app_nil_r. }
  rewrite Hgot.
  split; [reflexivity|]. split; reflexivity.
Qed.

(** X5.  [WriteTo] on a buffer in bounds hands the unread bytes to the
    writer in one call.  When the writer accepts them it returns their
    count, [Len c], with a nil error and the buffer is left with nothing to
    read; when the writer fails it returns 0 and the writer's error and
    leaves the buffer as it was. *)
Theorem WriteTo_drains (c : ChunkBuffer) (w : Sink) :
  in_bounds c ->
  match fault w (calls w) with
  | None =>
      exists c',
        WriteTo c w = Done (c', mkSink (accepted w ++ [skipn (Z.to_nat (readOff c)) (buf c)])
                                       (S (calls w)) (fault w),
                            (Len c, None)) /\
        Len c' = 0 /\ buf c' = buf c /\ in_bounds c'
  | Some e =>
      WriteTo c w = Done (c, mkSink (accepted w) (S (calls w)) (fault w), (0, Some e))
  end.
Proof.
  intros (Hr & Hw & Hs & Hm). unfold maxInt in Hm.
  unfold WriteTo. rewrite slice_ok by lia. cbn [bind]. unfold sink_write.
  assert (Hsl : firstn (Z.to_nat (len (buf c) - readOff c)) (skipn (Z.to_nat (readOff c)) (buf c))
                = skipn (Z.to_nat (readOff c)) (buf c)).
  { apply firstn_all2. rewrite length_skipn. unfold len. lia. }
  destruct (fault w (calls w)) as [e|].
  - reflexivity.
  - rewrite Hsl. rewrite len_skipn by lia. rewrite Z.max_r by lia.
    rewrite wrap64_small by lia.
    eexists. split.
    + unfold Len. rewrite Hs. reflexivity.
    + unfold Len, in_bounds, maxInt. cbn [buf readOff writeOff size].
      repeat split; try lia.
Qed.

Lemma three_in_bounds : in_bounds (NewChunkBuffer (Some [x01; x02; x03])).
Proof. apply NewChunkBuffer_in_bounds. vm_compute. discriminate. Qed.

Lemma Read_copies_min_witness :
  exists c',
    Read (NewChunkBuffer (Some [x01; x02; x03])) 5
    = Done (c', ([x01; x02; x03], Some EOF)) /\ Len c' = 0.
Proof.
  destruct (Read_copies_min (NewChunkBuffer (Some [x01; x02; x03])) 5 three_in_bounds)
    as (c' & H1 & _ & H3 & _); [lia|].
  exists c'. split; [exact H1 | exact H3].
Defined.

Lemma Seek_clamps_witness :
  exists c',
    Seek (NewChunkBuffer (Some [x01; x02; x03])) 5 SeekStart = (c', (3, None)) /\
    readOff c' = 3 /\ writeOff c' = 3.
Proof.
  destruct (Seek_clamps (NewChunkBuffer (Some [x01; x02; x03])) 5 SeekStart 5 three_in_bounds)
    as (c' & H1 & H2 & H3 & _).
  - left. split; reflexivity.
  - lia.
  - exists c'. split; [exact H1|]. split; [exact H2 | exact H3].
Defined.

Lemma run_in_bounds_witness :
  exists c',
    run (NewChunkBuffer (Some [x01; x02; x03]))
        [OpWrite [x09]; OpSeek 7 SeekStart; OpRead 5; OpSeek (-2) SeekEnd;
         OpWriteTo NewSink; OpWrite [x08; x08]]
    = Done c' /\ in_bounds c'.
Proof.
  destruct (run_in_bounds (NewChunkBuffer (Some [x01; x02; x03]))
              [OpWrite [x09]; OpSeek 7 SeekStart; OpRead 5; OpSeek (-2) SeekEnd;
               OpWriteTo NewSink; OpWrite [x08; x08]] three_in_bounds)
    as (c' & H1 & H2 & _).
  - apply Forall_cons; [exact I|].
    apply Forall_cons; [left; split; [reflexivity | lia]|].
    apply Forall_cons; [exact I|].
    apply Forall_cons; [right; split; [reflexivity | cbn; lia]|].
    apply Forall_cons; [exact I|].
    apply Forall_cons; [exact I | apply Forall_nil].
  - exists c'. split; [exact H1 | exact H2].
Defined.

Lemma Write_Seek_Read_witness :
  let c := NewChunkBuffer (Some [x01; x02; x03]) in
  exists c1 c2,
    Write (fst (Seek c 1 SeekStart)) [x07; x08] = Done (c1, (2, None)) /\
    Read (fst (Seek c1 1 SeekStart)) 2 = Done (c2, ([x07; x08], None)).
Proof.
  intros c.
  destruct (Write_Seek_Read c 1 [x07; x08] three_in_bounds) as (c1 & c2 & H1 & H2 & _).
  - lia.
  - cbn. lia.
  - exists c1, c2. split; [exact H1 | exact H2].
Defined.

Lemma WriteTo_drains_witness :
  exists c',
    WriteTo (NewChunkBuffer (Some [x01; x02; x03])) NewSink
    = Done (c', mkSink [[x01; x02; x03]] 1 (fun _ => None), (3, None)) /\
    Len c' = 0.
Proof.
  pose proof (WriteTo_drains (NewChunkBuffer (Some [x01; x02; x03])) NewSink three_in_bounds)
    as H.
  cbn [fault NewSink calls] in H. destruct H as (c' & H1 & H2 & _).
  exists c'. split; [exact H1 | exact H2].
Defined.

End ChunkBufMore.

(** ** More on the encrypting writer *)

Module EncryptMore.

Import Encrypt GoFacts EncryptFacts.

Lemma full_blocks_step (bs : Z) (b : list byte) :
  0 < bs <= len b ->
  full_blocks bs b = firstn (Z.to_nat bs) b :: full_blocks bs (skipn (Z.to_nat bs) b) /\
  residue bs b = residue bs (skipn (Z.to_nat bs) b).
Proof.
  intros H. unfold full_blocks, residue.
  rewrite len_skipn by lia. rewrite Z.max_r by lia.
  assert (Hq : len b / bs = (len b - bs) / bs + 1).
  { replace (len b) with ((len b - bs) + 1 * bs) at 1 by lia.
    now rewrite Z.div_add by lia. }
  assert (Hq0 : 0 <= (len b - bs) / bs) by (apply Z.div_pos; lia).
  rewrite Hq.
  replace (Z.to_nat ((len b - bs) / bs + 1)) with (S (Z.to_nat ((len b - bs) / bs))) by lia.
  split.
  - cbn [seq map]. f_equal.
    rewrite <- seq_shift, map_map.
    apply map_ext. intros i. rewrite skipn_skipn. do 2 f_equal. lia.
  - rewrite skipn_skipn. f_equal. lia.
Qed.

Lemma full_blocks_short (bs : Z) (b : list byte) :
  len b < bs -> full_blocks bs b = [] /\ residue bs b = b.
Proof.
  intros H. pose proof (len_nonneg b). unfold full_blocks, residue.
  rewrite Z.div_small by lia. split; reflexivity.
Qed.

(** Cutting at the block size loses nothing. *)
Lemma concat_full_residue (bs : Z) (n : nat) :
  0 < bs -> forall b : list byte, (length b <= n)%nat ->
  concat (full_blocks bs b) ++ residue bs b = b.
Proof.
  intros Hbs. induction n as [|n IH]; intros b Hn.
  - destruct b; [|cbn in Hn; lia].
    destruct (full_blocks_short bs []) as (-> & ->); [rewrite (@len_nil byte); lia|].
    reflexivity.
  - destruct (Z_lt_le_dec (len b) bs) as [Hlt|Hge].
    + destruct (full_blocks_short bs b Hlt) as (-> & ->). reflexivity.
    + destruct (full_blocks_step bs b) as (-> & ->); [lia|].
      cbn [concat]. rewrite <- app_assoc, IH.
      * apply firstn_skipn.
      * rewrite length_skipn. unfold len in Hge. lia.
Qed.

(** Full blocks in front of a string are its first blocks. *)
Lemma blocks_app_full (bs : Z) (packs : list (list byte)) (r : list byte) :
  0 < bs -> Forall (fun x => len x = bs) packs ->
  blocks bs (concat packs ++ r) = packs ++ blocks bs r.
Proof.
  intros Hbs H. induction H as [|x packs Hx _ IH]; [reflexivity|].
  cbn [concat app]. rewrite <- app_assoc.
  rewrite blocks_step by (rewrite len_app; pose proof (len_nonneg (concat packs ++ r)); lia).
  replace (Z.to_nat bs) with (length x) by (unfold len in Hx; lia).
  rewrite firstn_app, firstn_all, Nat.sub_diag, skipn_app, skipn_all, Nat.sub_diag.
  cbn [firstn skipn app]. rewrite app_nil_r. now rewrite IH.
Qed.

Lemma full_blocks_all_full (bs : Z) (b : list byte) :
  0 < bs -> Forall (fun x => len x = bs) (full_blocks bs b).
Proof.
  intros Hbs. apply Forall_forall. intros x Hx. now apply (full_blocks_full bs b).
Qed.

Section WithSuite.
Context {suite : Suite}.

(** The loop of [Write] on a reliable sink: it flushes the full blocks of
    the buffer and keeps the residue. *)
Lemma Write_loop_spec (fuel : nat) (w : Writer) :
  reliable (sink w) -> 0 < maxBlockSize w -> 8 <= len (nonce w) ->
  (length (rbuf w) < fuel)%nat ->
  exists w',
    Write_loop fuel w = Done (w', None) /\
    rbuf w' = residue (maxBlockSize w) (rbuf w) /\
    headerWritten w' = headerWritten w /\
    accepted (sink w') =
      accepted (sink w)
      ++ frames_from (key w) (flags w) (skipn 8 (nonce w)) (blockCount w)
                     (full_blocks (maxBlockSize w) (rbuf w)).
Proof.
  revert w. induction fuel as [|fuel IH]; intros w Hr Hbs Hn Hf; [lia|].
  cbn [Write_loop].
  destruct (len (rbuf w) >=? maxBlockSize w) eqn:E.
  2:{ assert (Hlt : len (rbuf w) < maxBlockSize w).
      { destruct (Z.geb_spec (len (rbuf w)) (maxBlockSize w)); [discriminate | lia]. }
      destruct (full_blocks_short _ _ Hlt) as (-> & ->).
      exists w. cbn [frames_from]. rewrite app_nil_r. repeat split. }
  assert (Hge : maxBlockSize w <= len (rbuf w)).
  { destruct (Z.geb_spec (len (rbuf w)) (maxBlockSize w)); [lia | discriminate]. }
  destruct (full_blocks_step (maxBlockSize w) (rbuf w)) as (-> & ->); [lia|].
  unfold Next. replace (maxBlockSize w <? 0) with false by (symmetry; apply Z.ltb_ge; lia).
  cbn [bind].
  rewrite flushPack_reliable by assumption.
  cbn [bind with_rbuf sink nonce key flags rbuf blockCount headerWritten maxBlockSize].
  match goal with |- context [Write_loop fuel ?w1] => destruct (IH w1) as (w' & H1 & H2 & H3 & H4) end.
  - exact Hr.
  - exact Hbs.
  - cbn [nonce]. rewrite len_app. unfold len at 1. rewrite length_le_bytes.
    pose proof (len_nonneg (skipn 8 (nonce w))). lia.
  - cbn [rbuf]. rewrite length_skipn. unfold len in Hge. lia.
  - exists w'. split; [exact H1|]. split; [exact H2|]. split; [exact H3|].
    rewrite H4.
    cbn [sink accepted nonce key flags rbuf blockCount maxBlockSize frames_from].
    rewrite skipn_8_counter. rewrite <- app_assoc. cbn [app].
    do 3 f_equal. apply frames_from_congr.
    unfold wrapu64. now rewrite Z.mod_mod by lia.
Qed.

(** X6.  [Write(p)] on a writer over a sink that accepts every write, with
    a positive block size: it returns [len p] and a nil error; it emits the
    header if it is not out yet, then one frame for each full block that was
    already buffered before the call; the bytes of [p] are only appended to
    what is left in the buffer, so the blocks they complete are flushed by a
    later [Write] or by [Close]. *)
Theorem Write_buffers (fuel : nat) (w : Writer) (p : list byte) :
  reliable (sink w) -> 0 < maxBlockSize w -> 8 <= len (nonce w) ->
  (length (rbuf w) < fuel)%nat ->
  let bs := maxBlockSize w in
  let hdr := if headerWritten w then []
             else [GenerateHeader (key w) (maxBlockSize w) (flags w)] in
  exists w',
    Write fuel w p = Done (w', (len p, None)) /\
    rbuf w' = residue bs (rbuf w) ++ p /\
    headerWritten w' = true /\
    accepted (sink w') =
      accepted (sink w) ++ hdr
      ++ frames_from (key w) (flags w) (skipn 8 (nonce w)) (blockCount w)
                     (full_blocks bs (rbuf w)).
Proof.
  intros Hr Hbs Hn Hf bs hdr. unfold Write, emitHeaderIfNeeded.
  destruct (headerWritten w) eqn:Eh.
  - destruct (Write_loop_spec fuel w Hr Hbs Hn Hf) as (w' & H1 & H2 & H3 & H4).
    rewrite H1. cbn [bind]. eexists. split; [reflexivity|].
    cbn [with_rbuf rbuf headerWritten sink]. rewrite H2, H3, H4.
    split; [reflexivity|]. split; [exact Eh|]. reflexivity.
  - rewrite sink_write_reliable by assumption.
    match goal with |- context [Write_loop fuel ?w1] =>
      destruct (Write_loop_spec fuel w1) as (w' & H1 & H2 & H3 & H4) end.
    + intros i. apply Hr.
    + exact Hbs.
    + exact Hn.
    + exact Hf.
    + rewrite H1. cbn [bind]. eexists. split; [reflexivity|].
      cbn [with_rbuf rbuf headerWritten sink]. rewrite H2, H3, H4.
      cbn [sink accepted key flags nonce blockCount maxBlockSize rbuf headerWritten].
      split; [reflexivity|]. split; [reflexivity|]. unfold hdr.
      rewrite <- app_assoc. reflexivity.
Qed.

Lemma Write_loop_stream k fl bs (fuel : nat) (w : Writer) (packs : list (list byte)) :
  emitted k fl bs w packs -> 0 < bs -> (length (rbuf w) < fuel)%nat ->
  exists w',
    Write_loop fuel w = Done (w', None) /\
    emitted k fl bs w' (packs ++ full_blocks bs (rbuf w)) /\
    rbuf w' = residue bs (rbuf w).
Proof.
  revert w packs. induction fuel as [|fuel IH]; intros w packs He Hbs Hf; [lia|].
  pose proof He as (Hk & Hfl & Hb & Hr & Hh & Hn & Ht & Hc & Ha).
  cbn [Write_loop]. rewrite Hb.
  destruct (len (rbuf w) >=? bs) eqn:E.
  2:{ assert (Hlt : len (rbuf w) < bs).
      { destruct (Z.geb_spec (len (rbuf w)) bs); [discriminate | lia]. }
      destruct (full_blocks_short _ _ Hlt) as (-> & ->).
      exists w. rewrite app_nil_r.
      split; [reflexivity|]. split; [exact He | reflexivity]. }
  assert (Hge : bs <= len (rbuf w)).
  { destruct (Z.geb_spec (len (rbuf w)) bs); [lia | discriminate]. }
  destruct (full_blocks_step bs (rbuf w)) as (-> & ->); [lia|].
  unfold Next. replace (bs <? 0) with false by (symmetry; apply Z.ltb_ge; lia).
  cbn [bind].
  set (w0 := with_rbuf w (skipn (Z.to_nat bs) (rbuf w))).
  assert (He0 : emitted k fl bs w0 packs) by (apply emitted_with_rbuf; exact He).
  destruct (flushPack_reliable_fields w0 (firstn (Z.to_nat bs) (rbuf w)))
    as (w1 & res & E1 & _); [exact Hr | exact Hn |].
  rewrite E1. cbn [bind].
  destruct (flushPack_emitted _ _ _ _ _ _ _ _ He0 E1) as (He1 & Hr1).
  destruct (IH w1 _ He1 Hbs) as (w' & H1 & H2 & H3).
  - rewrite Hr1. unfold w0. cbn [with_rbuf rbuf]. rewrite length_skipn.
    unfold len in Hge. lia.
  - exists w'. split; [exact H1|]. rewrite Hr1 in H2, H3. unfold w0 in H2, H3.
    cbn [with_rbuf rbuf] in H2, H3. rewrite <- app_assoc in H2. cbn [app] in H2.
    split; assumption.
Qed.

Lemma Close_loop_stream k fl bs (fuel : nat) (w : Writer) (packs : list (list byte)) :
  emitted k fl bs w packs -> 0 < bs -> (length (rbuf w) < fuel)%nat ->
  exists w',
    Close_loop fuel w = Done (w', None) /\
    emitted k fl bs w' (packs ++ blocks bs (rbuf w)) /\
    rbuf w' = [].
Proof.
  revert w packs. induction fuel as [|fuel IH]; intros w packs He Hbs Hf; [lia|].
  pose proof He as (Hk & Hfl & Hb & Hr & Hh & Hn & Ht & Hc & Ha).
  cbn [Close_loop]. rewrite Hb.
  destruct (len (rbuf w) >? 0) eqn:E.
  2:{ assert (len (rbuf w) = 0).
      { pose proof (len_nonneg (rbuf w)).
        destruct (Z.gtb_spec (len (rbuf w)) 0); [discriminate | lia]. }
      exists w. rewrite (len_zero_nil _ H), blocks_nil, app_nil_r by lia.
      split; [reflexivity|]. split; [exact He | reflexivity]. }
  apply Z.gtb_lt in E.
  rewrite (blocks_unfold bs (rbuf w)) by lia.
  set (n := if len (rbuf w) >? bs then bs else len (rbuf w)).
  assert (Hn0 : 0 < n) by (unfold n; destruct (_ >? _); lia).
  unfold Next. replace (n <? 0) with false by (symmetry; apply Z.ltb_ge; lia).
  cbn [bind].
  set (w0 := with_rbuf w (skipn (Z.to_nat n) (rbuf w))).
  assert (He0 : emitted k fl bs w0 packs) by (apply emitted_with_rbuf; exact He).
  destruct (flushPack_reliable_fields w0 (firstn (Z.to_nat n) (rbuf w)))
    as (w1 & res & E1 & _); [exact Hr | exact Hn |].
  rewrite E1. cbn [bind].
  destruct (flushPack_emitted _ _ _ _ _ _ _ _ He0 E1) as (He1 & Hr1).
  destruct (IH w1 _ He1 Hbs) as (w' & H1 & H2 & H3).
  - rewrite Hr1. unfold w0. cbn [with_rbuf rbuf]. rewrite length_skipn.
    unfold len in E. lia.
  - exists w'. split; [exact H1|]. rewrite Hr1 in H2. unfold w0 in H2.
    cbn [with_rbuf rbuf] in H2. rewrite <- app_assoc in H2. cbn [app] in H2.
    split; assumption.
Qed.

(** What has gone through a writer that is fed the plaintext [plain]: the
    frames of full blocks are out, the rest is buffered. *)
Lemma WriteAll_stream k fl bs (fuel : nat) (ps : list (list byte)) :
  0 < bs ->
  forall (w : Writer) (packs : list (list byte)),
    emitted k fl bs w packs -> Forall (fun x => len x = bs) packs ->
    (length (rbuf w ++ concat ps) < fuel)%nat ->
    exists w',
      WriteAll fuel w ps = Done (w', None) /\
      emitted k fl bs w' (blocks bs (concat packs ++ rbuf w ++ concat ps)) /\
      rbuf w' = [].
Proof.
  intros Hbs. induction ps as [|p ps IH]; intros w packs He Hfull Hf.
  - cbn [WriteAll concat]. rewrite app_nil_r in *.
    unfold Close. rewrite (emitted_header _ _ _ _ _ He).
    destruct (Close_loop_stream _ _ _ fuel _ _ He Hbs Hf) as (w' & H1 & H2 & H3).
    exists w'. rewrite blocks_app_full by assumption.
    split; [exact H1|]. split; [exact H2 | exact H3].
  - cbn [WriteAll concat]. unfold Write. rewrite (emitted_header _ _ _ _ _ He).
    destruct (Write_loop_stream _ _ _ fuel _ _ He Hbs) as (w1 & H1 & H2 & H3).
    { rewrite length_app in Hf. lia. }
    rewrite H1. cbn [bind].
    destruct (IH (with_rbuf w1 (rbuf w1 ++ p)) (packs ++ full_blocks bs (rbuf w)))
      as (w' & E1 & E2 & E3).
    + apply emitted_with_rbuf. exact H2.
    + apply Forall_app. split; [assumption | now apply full_blocks_all_full].
    + cbn [with_rbuf rbuf]. rewrite H3. rewrite !length_app in *.
      pose proof (concat_full_residue bs (length (rbuf w)) Hbs (rbuf w) (le_n _)) as Hc.
      apply (f_equal (@length byte)) in Hc. rewrite length_app in Hc.
      cbn [concat] in Hf. rewrite length_app in Hf. lia.
    + exists w'. split; [exact E1|]. split; [|exact E3].
      cbn [with_rbuf rbuf] in E2. rewrite H3 in E2.
      rewrite concat_app in E2. rewrite <- !app_assoc in E2.
      rewrite (app_assoc (concat (full_blocks bs (rbuf w)))) in E2.
      rewrite (concat_full_residue bs (length (rbuf w)) Hbs (rbuf w) (le_n _)) in E2.
      exact E2.
Qed.

(** X7.  The encrypted stream depends on the plaintext only, not on how
    it was cut into [Write] calls: writing the slices [ps] to a new writer
    over an empty sink that accepts every write and closing it hands the
    sink the header, then the frames of the blocks of [concat ps] at the
    block size, numbered from 0, the last block short when the length is
    not a multiple of the block size; the buffer ends empty. *)
Theorem Write_Close_stream (s : Sink) (k : list byte) (fl bs : Z)
    (ps : list (list byte)) (fuel : nat) :
  reliable s -> accepted s = [] -> 0 < bs ->
  (length (concat ps) < fuel)%nat ->
  exists w',
    WriteAll fuel (NewWriterWithBlockSize s k fl bs) ps = Done (w', None) /\
    rbuf w' = [] /\
    accepted (sink w') =
      GenerateHeader k bs fl
      :: frames_from k fl (repeat x00 4) 0 (blocks bs (concat ps)).
Proof.
  intros Hr Ha Hbs Hf.
  destruct (emitted_init s k fl bs Hr Ha) as (w0 & E0 & He0 & Hb0).
  assert (Hgo : exists w', WriteAll fuel w0 ps = Done (w', None) /\
                  emitted k fl bs w' (blocks bs (concat ps)) /\ rbuf w' = []).
  { destruct (WriteAll_stream k fl bs fuel ps Hbs w0 [] He0 (Forall_nil _))
      as (w' & H1 & H2 & H3).
    - rewrite Hb0. exact Hf.
    - exists w'. rewrite Hb0 in H2. cbn [concat app] in H2.
      split; [exact H1|]. split; [exact H2 | exact H3]. }
  destruct Hgo as (w' & H1 & H2 & H3).
  exists w'. split; [|split; [exact H3 | apply H2]].
  rewrite <- H1.
  destruct ps as [|p ps]; cbn [WriteAll]; unfold Close, Write.
  - rewrite E0. rewrite (emitted_header _ _ _ _ _ He0). reflexivity.
  - rewrite E0. rewrite (emitted_header _ _ _ _ _ He0). reflexivity.
Qed.


Lemma defaultDecBufferSize_pos : 0 < defaultDecBufferSize < 2 ^ 32.
Proof. split; reflexivity. Qed.

Lemma ReadFull_full (data : list byte) (fin : option error) (n : Z) :
  0 < n <= len data ->
  ReadFull (mkSource data fin) n =
  (mkSource (skipn (Z.to_nat n) data) fin, (firstn (Z.to_nat n) data, None)).
Proof.
  intros H. unfold ReadFull. cbn [pending final].
  replace (n <=? 0) with false by (symmetry; apply Z.leb_gt; lia).
  replace (n <=? len data) with true by (symmetry; apply Z.leb_le; lia).
  reflexivity.
Qed.

Lemma ReadFull_short (data : list byte) (n : Z) :
  len data < n -> 0 < n ->
  ReadFull (mkSource data None) n =
  (mkSource [] None,
   (data, match data with [] => Some EOF | _ => Some ErrUnexpectedEOF end)).
Proof.
  intros H Hn. unfold ReadFull. cbn [pending final].
  replace (n <=? 0) with false by (symmetry; apply Z.leb_gt; lia).
  replace (n <=? len data) with false by (symmetry; apply Z.leb_gt; lia).
  reflexivity.
Qed.

(** The loop of [ReadFrom] when the block size is the size of its scratch
    buffer: one frame for each block of the source. *)
Lemma ReadFrom_loop_stream k fl (fuel : nat) :
  forall (w : Writer) (packs : list (list byte)) (data : list byte) (n nprev : Z),
    emitted k fl defaultDecBufferSize w packs -> rbuf w = [] ->
    nprev = -1 \/ nprev = defaultDecBufferSize ->
    0 <= n -> n + len data < 2 ^ 63 ->
    (Z.to_nat (len data / defaultDecBufferSize) < fuel)%nat ->
    exists w',
      ReadFrom_loop fuel w (mkSource data None) n nprev
      = Done (w', mkSource [] None, (n + len data, None)) /\
      emitted k fl defaultDecBufferSize w' (packs ++ blocks defaultDecBufferSize data) /\
      rbuf w' = [].
Proof.
  pose proof defaultDecBufferSize_pos as HB.
  induction fuel as [|fuel IH]; intros w packs data n nprev He Hrb Hprev Hn Hlen Hf; [lia|].
  pose proof He as (Hk & Hfl & Hb & Hr & Hh & Hnn & Ht & Hc & Ha).
  pose proof (len_nonneg data) as Hd.
  cbn [ReadFrom_loop].
  destruct (Z_lt_le_dec (len data) defaultDecBufferSize) as [Hlt|Hge].
  - rewrite ReadFull_short by lia.
    assert (Heof : is_eof (match data with [] => Some EOF | _ => Some ErrUnexpectedEOF end) = true)
      by (destruct data; reflexivity).
    assert (Hnil : is_nil (match data with [] => Some EOF | _ => Some ErrUnexpectedEOF end) = false)
      by (destruct data; reflexivity).
    rewrite Heof, Hnil. cbn [negb andb]. rewrite andb_false_r.
    rewrite wrap64_small by lia.
    destruct data as [|d0 data'].
    + rewrite (@len_nil byte). cbn [Z.gtb Z.compare bind].
      exists w. rewrite blocks_nil, app_nil_r, Z.add_0_r by lia.
      split; [reflexivity|]. split; [exact He | exact Hrb].
    + set (data := d0 :: data') in *.
      assert (Hpos : 0 < len data) by (unfold data, len; cbn [length]; lia).
      replace (len data >? 0) with true by (symmetry; apply Z.gtb_lt; lia).
      destruct (flushPack_reliable_fields w data) as (w1 & res & E1 & _);
        [exact Hr | exact Hnn |].
      rewrite E1. cbn [bind].
      destruct (flushPack_emitted _ _ _ _ _ _ _ _ He E1) as (He1 & Hr1).
      exists (with_rbuf w1 []). rewrite blocks_short by lia.
      split; [reflexivity|]. split; [now apply emitted_with_rbuf | reflexivity].
  - rewrite ReadFull_full by lia.
    cbn [is_nil is_eof negb andb].
    rewrite andb_true_r.
    assert (Hfl' : len (firstn (Z.to_nat defaultDecBufferSize) data) = defaultDecBufferSize) by (rewrite len_firstn; lia).
    rewrite Hfl'.
    rewrite wrap64_small by lia.
    replace ((nprev >=? 0) && negb (nprev =? maxBlockSize w)) with false.
    2:{ rewrite Hb. destruct Hprev as [->| ->]; [reflexivity|].
        rewrite Z.eqb_refl. cbn [negb]. now rewrite andb_false_r. }
    replace (defaultDecBufferSize >? 0) with true by (symmetry; apply Z.gtb_lt; lia).
    destruct (flushPack_reliable_fields w (firstn (Z.to_nat defaultDecBufferSize) data)) as (w1 & res & E1 & _);
      [exact Hr | exact Hnn |].
    rewrite E1. cbn [bind].
    destruct (flushPack_emitted _ _ _ _ _ _ _ _ He E1) as (He1 & Hr1).
    assert (Hq : len data / defaultDecBufferSize = (len data - defaultDecBufferSize) / defaultDecBufferSize + 1).
    { replace (len data) with ((len data - defaultDecBufferSize) + 1 * defaultDecBufferSize) at 1 by lia.
      now rewrite Z.div_add by lia. }
    assert (Hq0 : 0 <= (len data - defaultDecBufferSize) / defaultDecBufferSize) by (apply Z.div_pos; lia).
    destruct (IH (with_rbuf w1 []) (packs ++ [firstn (Z.to_nat defaultDecBufferSize) data])
                 (skipn (Z.to_nat defaultDecBufferSize) data) (n + defaultDecBufferSize) defaultDecBufferSize) as (w' & H1 & H2 & H3).
    + now apply emitted_with_rbuf.
    + reflexivity.
    + now right.
    + lia.
    + rewrite len_skipn by lia. lia.
    + rewrite len_skipn by lia. rewrite Z.max_r by lia. lia.
    + exists w'. rewrite H1. rewrite len_skipn by lia. rewrite Z.max_r by lia.
      split; [f_equal; f_equal; f_equal; lia|].
      rewrite blocks_step by lia. rewrite <- app_assoc in H2. cbn [app] in H2.
      split; [exact H2 | exact H3].
Qed.

(** X8.  [ReadFrom] on a new writer whose block size is the size of the
    scratch buffer ([defaultDecBufferSize]), from a source that holds [data]
    and ends with io.EOF, over a sink that accepts every write: it returns
    [len data] and a nil error, consumes the source, and hands the sink the
    header and then the frames of the blocks of [data], the same stream
    that [Write] and [Close] produce for [data]. *)
Theorem ReadFrom_frames (s : Sink) (k : list byte) (fl : Z) (data : list byte)
    (fuel : nat) :
  reliable s -> accepted s = [] -> len data < 2 ^ 63 ->
  (Z.to_nat (len data / defaultDecBufferSize) < fuel)%nat ->
  exists w',
    ReadFrom fuel (NewWriterWithBlockSize s k fl defaultDecBufferSize) (mkSource data None)
    = Done (w', mkSource [] None, (len data, None)) /\
    rbuf w' = [] /\
    accepted (sink w') =
      GenerateHeader k defaultDecBufferSize fl
      :: frames_from k fl (repeat x00 4) 0 (blocks defaultDecBufferSize data).
Proof.
  intros Hr Ha Hlen Hf.
  destruct (emitted_init s k fl defaultDecBufferSize Hr Ha) as (w0 & E0 & He0 & Hb0).
  unfold ReadFrom. rewrite E0. rewrite Hb0, (@len_nil byte). cbn [Z.gtb Z.compare].
  destruct (ReadFrom_loop_stream k fl fuel w0 [] data 0 (-1) He0 Hb0) as (w' & H1 & H2 & H3).
  - now left.
  - lia.
  - lia.
  - exact Hf.
  - exists w'. rewrite H1. split; [reflexivity|]. split; [exact H3 | apply H2].
Qed.


(** X9.  [ReadFrom] cuts the source at the size of its scratch buffer, not
    at the block size of the writer.  When the two differ and the source
    holds two scratch buffers or more, it fails with [ErrBadBlockSize] at
    the second read: by then the header and one frame (the first scratch
    buffer) have been written, the second buffer has been taken from the
    source and dropped, and the count returned is twice the scratch size. *)
Theorem ReadFrom_bad_block_size (s : Sink) (k : list byte) (fl bs : Z)
    (data : list byte) (fuel : nat) :
  reliable s -> accepted s = [] ->
  bs <> defaultDecBufferSize ->
  2 * defaultDecBufferSize <= len data ->
  let first := firstn (Z.to_nat defaultDecBufferSize) data in
  exists w',
    ReadFrom (S (S fuel)) (NewWriterWithBlockSize s k fl bs) (mkSource data None)
    = Done (w', mkSource (skipn (Z.to_nat (2 * defaultDecBufferSize)) data) None,
            (2 * defaultDecBufferSize, Some ErrBadBlockSize)) /\
    accepted (sink w') =
      [GenerateHeader k bs fl; nonce_of 0; Seal k fl (nonce_of 0) first].
Proof.
  intros Hr Ha Hbs Hlen first.
  pose proof defaultDecBufferSize_pos as HB.
  destruct (emitted_init s k fl bs Hr Ha) as (w0 & E0 & He0 & Hb0).
  pose proof He0 as (Hk & Hfl & Hb & Hr0 & Hh & Hnn & Ht & Hc & Ha0).
  unfold ReadFrom. rewrite E0. rewrite Hb0, (@len_nil byte). cbn [Z.gtb Z.compare].
  cbn [ReadFrom_loop].
  rewrite ReadFull_full by lia.
  cbn [is_nil is_eof negb andb Z.geb Z.compare].
  assert (Hfl' : len first = defaultDecBufferSize) by (unfold first; rewrite len_firstn; lia).
  fold first. rewrite Hfl'.
  replace (defaultDecBufferSize >? 0) with true by (symmetry; apply Z.gtb_lt; lia).
  destruct (flushPack_reliable_fields w0 first)
    as (w1 & res & E1 & Hacc & _ & _ & _ & _ & _ & Hbs1 & _); [exact Hr0 | exact Hnn |].
  rewrite E1. cbn [bind].
  rewrite ReadFull_full by (rewrite len_skipn by lia; lia).
  cbn [is_nil is_eof negb andb].
  cbn [with_rbuf maxBlockSize]. rewrite Hbs1, Hb.
  replace (defaultDecBufferSize >=? 0) with true by (symmetry; apply Z.geb_le; lia).
  replace (defaultDecBufferSize =? bs) with false by (symmetry; apply Z.eqb_neq; lia).
  cbn [negb andb].
  rewrite len_firstn by lia. rewrite len_skipn by lia.
  rewrite (wrap64_small (0 + defaultDecBufferSize)) by lia.
  rewrite Z.min_l by lia.
  rewrite wrap64_small by lia.
  rewrite skipn_skipn, <- Z2Nat.inj_add by lia.
  replace (defaultDecBufferSize + defaultDecBufferSize) with (2 * defaultDecBufferSize) by lia.
  replace (0 + defaultDecBufferSize + defaultDecBufferSize) with (2 * defaultDecBufferSize) by lia.
  eexists. split; [reflexivity|].
  cbn [with_rbuf sink]. rewrite Hacc, Ha0, Hk, Hfl, Ht. cbn [frames_from app].
    rewrite Hc. rewrite (@len_nil (list byte)). reflexivity.
Qed.

(** The loop of [Close] returns without an error only with an empty buffer. *)
Lemma Close_loop_drained (fuel : nat) (w w' : Writer) :
  Close_loop fuel w = Done (w', None) -> rbuf w' = [].
Proof.
  revert w. induction fuel as [|fuel IH]; intros w; cbn [Close_loop].
  - destruct (len (rbuf w) >? 0) eqn:E; [discriminate|].
    intros H. injection H as <-. apply len_zero_nil.
    pose proof (len_nonneg (rbuf w)).
    destruct (Z.gtb_spec (len (rbuf w)) 0); [discriminate | lia].
  - destruct (len (rbuf w) >? 0) eqn:E.
    + destruct (Next _ _) as [[pack rest]| |]; cbn [bind]; try discriminate.
      destruct (flushPack _ _) as [[w1 [n [e|]]]| |]; cbn [bind]; try discriminate.
      apply IH.
    + intros H. injection H as <-. apply len_zero_nil.
      pose proof (len_nonneg (rbuf w)).
      destruct (Z.gtb_spec (len (rbuf w)) 0); [discriminate | lia].
Qed.

(** X10.  After a [Close] that returned no error the buffer is empty and
    the header is out, and a second [Close] returns no error and changes
    nothing: it writes nothing more to the sink. *)
Theorem Close_twice (fuel fuel' : nat) (w w' : Writer) :
  Close fuel w = Done (w', None) ->
  Close fuel' w' = Done (w', None) /\ rbuf w' = [] /\ headerWritten w' = true.
Proof.
  intros H.
  assert (Hh : headerWritten w' = true).
  { apply (step_header fuel w w' OpClose). cbn [step]. rewrite H. reflexivity. }
  assert (Hb : rbuf w' = []).
  { unfold Close in H. destruct (emitHeaderIfNeeded w) as [w0 [e|]]; [discriminate|].
    now apply Close_loop_drained in H. }
  split; [|split; assumption].
  unfold Close. rewrite (emitHeaderIfNeeded_written _ Hh).
  destruct fuel'; cbn [Close_loop]; rewrite Hb; reflexivity.
Qed.

(** X11.  When the sink rejects the write of the header, [Write] returns 0
    and the sink's error, buffers nothing and has written nothing; the
    writer has marked the header as written all the same, so the next call
    does not emit it again. *)
Theorem Write_header_rejected (fuel : nat) (w : Writer) (p : list byte) (e : error) :
  headerWritten w = false ->
  fault (sink w) (calls (sink w)) = Some e ->
  exists w',
    Write fuel w p = Done (w', (0, Some e)) /\
    headerWritten w' = true /\
    accepted (sink w') = accepted (sink w) /\
    rbuf w' = rbuf w /\
    emitHeaderIfNeeded w' = (w', None).
Proof.
  intros Hh Hf. unfold Write, emitHeaderIfNeeded at 1. rewrite Hh.
  unfold sink_write. rewrite Hf.
  eexists. split; [reflexivity|]. repeat split.
Qed.

(** X12.  When [Write] finds a full block in the buffer and the sink
    rejects the write of its nonce, [Write] returns 0 and the sink's error:
    the block has been taken out of the buffer and is lost, the block
    counter has not moved, nothing reached the sink, and [p] is not
    buffered. *)
Theorem Write_flush_rejected (fuel : nat) (w : Writer) (p : list byte) (e : error) :
  headerWritten w = true -> 0 <= maxBlockSize w <= len (rbuf w) ->
  8 <= len (nonce w) ->
  fault (sink w) (calls (sink w)) = Some e ->
  exists w',
    Write (S fuel) w p = Done (w', (0, Some e)) /\
    rbuf w' = skipn (Z.to_nat (maxBlockSize w)) (rbuf w) /\
    blockCount w' = blockCount w /\
    accepted (sink w') = accepted (sink w).
Proof.
  intros Hh Hbs Hn Hf. unfold Write. rewrite (emitHeaderIfNeeded_written _ Hh).
  cbn [Write_loop].
  replace (len (rbuf w) >=? maxBlockSize w) with true by (symmetry; apply Z.geb_le; lia).
  unfold Next. replace (maxBlockSize w <? 0) with false by (symmetry; apply Z.ltb_ge; lia).
  cbn [bind]. unfold flushPack, PutUint64.
  cbn [with_rbuf nonce blockCount sink key flags rbuf headerWritten maxBlockSize].
  replace (len (nonce w) <? 8) with false by (symmetry; apply Z.ltb_ge; lia).
  cbn [bind]. unfold sink_write. rewrite Hf. cbn [bind].
  eexists. split; [reflexivity|]. repeat split.
Qed.

(** With the block size 0 the loop of [Write] flushes empty blocks and
    never leaves. *)
Lemma Write_loop_zero (fuel : nat) :
  forall w : Writer,
    maxBlockSize w = 0 -> reliable (sink w) -> 8 <= len (nonce w) ->
    Write_loop fuel w = OutOfFuel.
Proof.
  induction fuel as [|fuel IH]; intros w Hbs Hr Hn; cbn [Write_loop]; rewrite Hbs.
  - replace (len (rbuf w) >=? 0) with true; [reflexivity|].
    symmetry. apply Z.geb_le. apply len_nonneg.
  - replace (len (rbuf w) >=? 0) with true
      by (symmetry; apply Z.geb_le; apply len_nonneg).
    unfold Next. cbn [Z.ltb Z.compare bind Z.to_nat firstn skipn].
    destruct (flushPack_reliable_fields (with_rbuf w (rbuf w)) [])
      as (w1 & res & E1 & _ & Hfault & Hnonce & _ & _ & _ & Hbs1 & _); [exact Hr | exact Hn |].
    rewrite E1. cbn [bind]. apply IH.
    + rewrite Hbs1. exact Hbs.
    + intros i. rewrite Hfault. apply Hr.
    + rewrite Hnonce. cbn [with_rbuf nonce].
      rewrite len_app. unfold len at 1. rewrite length_le_bytes.
      pose proof (len_nonneg (skipn 8 (nonce w))). lia.
Qed.

(** X13.  [Write] does not return when the block size of the writer is not
    positive: with the block size 0 its loop flushes empty blocks for ever
    (the model runs out of every loop budget), and with a negative block
    size [bytes.Buffer.Next] panics on the first turn. *)
Theorem Write_without_block_size (fuel : nat) (w : Writer) (p : list byte) :
  maxBlockSize w <= 0 -> reliable (sink w) -> 8 <= len (nonce w) ->
  (maxBlockSize w = 0 -> Write fuel w p = OutOfFuel) /\
  (maxBlockSize w < 0 -> Write (S fuel) w p = Panic).
Proof.
  intros Hbs Hr Hn.
  assert (E : exists w0, emitHeaderIfNeeded w = (w0, None) /\
                maxBlockSize w0 = maxBlockSize w /\ reliable (sink w0) /\
                nonce w0 = nonce w).
  { unfold emitHeaderIfNeeded. destruct (headerWritten w).
    - exists w. repeat split; assumption.
    - rewrite sink_write_reliable by assumption. eexists. split; [reflexivity|].
      cbn [maxBlockSize sink nonce]. repeat split. intros i. apply Hr. }
  destruct E as (w0 & E0 & Hb0 & Hr0 & Hn0).
  unfold Write. rewrite E0. split; intros H.
  - rewrite Write_loop_zero; [reflexivity | congruence | assumption | congruence].
  - cbn [Write_loop]. rewrite Hb0.
    replace (len (rbuf w0) >=? maxBlockSize w) with true
      by (symmetry; apply Z.geb_le; pose proof (len_nonneg (rbuf w0)); lia).
    unfold Next. replace (maxBlockSize w <? 0) with true by (symmetry; apply Z.ltb_lt; lia).
    reflexivity.
Qed.

Lemma ReadFull_fails (data : list byte) (e : error) (n : Z) :
  len data < n -> 0 < n ->
  ReadFull (mkSource data (Some e)) n = (mkSource [] (Some e), (data, Some e)).
Proof.
  intros H Hn. unfold ReadFull. cbn [pending final].
  replace (n <=? 0) with false by (symmetry; apply Z.leb_gt; lia).
  replace (n <=? len data) with false by (symmetry; apply Z.leb_gt; lia).
  reflexivity.
Qed.

(** The loop of [ReadFrom] on a source that fails: the full blocks before
    the failure are framed, the bytes of the failing read are dropped. *)
Lemma ReadFrom_loop_source_error k fl (e : error) (fuel : nat) :
  is_eof (Some e) = false ->
  forall (w : Writer) (packs : list (list byte)) (data : list byte) (n nprev : Z),
    emitted k fl defaultDecBufferSize w packs -> rbuf w = [] ->
    nprev = -1 \/ nprev = defaultDecBufferSize ->
    0 <= n -> n + len data < 2 ^ 63 ->
    (Z.to_nat (len data / defaultDecBufferSize) < fuel)%nat ->
    exists w',
      ReadFrom_loop fuel w (mkSource data (Some e)) n nprev
      = Done (w', mkSource [] (Some e),
              (n + defaultDecBufferSize * (len data / defaultDecBufferSize), Some e)) /\
      emitted k fl defaultDecBufferSize w'
              (packs ++ full_blocks defaultDecBufferSize data) /\
      rbuf w' = [].
Proof.
  intros He.
  pose proof defaultDecBufferSize_pos as HB.
  induction fuel as [|fuel IH]; intros w packs data n nprev Hem Hrb Hprev Hn Hlen Hf; [lia|].
  pose proof Hem as (Hk & Hfl & Hb & Hr & Hh & Hnn & Ht & Hc & Ha).
  pose proof (len_nonneg data) as Hd.
  cbn [ReadFrom_loop].
  destruct (Z_lt_le_dec (len data) defaultDecBufferSize) as [Hlt|Hge].
  - rewrite ReadFull_fails by lia.
    rewrite He. cbn [is_nil negb andb].
    destruct (full_blocks_short _ _ Hlt) as (-> & _).
    rewrite Z.div_small, Z.mul_0_r, Z.add_0_r, app_nil_r by lia.
    exists w. split; [reflexivity|]. split; [exact Hem | exact Hrb].
  - rewrite ReadFull_full by lia.
    cbn [is_nil is_eof negb andb].
    rewrite andb_true_r.
    assert (Hfl' : len (firstn (Z.to_nat defaultDecBufferSize) data) = defaultDecBufferSize)
      by (rewrite len_firstn; lia).
    rewrite Hfl'.
    rewrite wrap64_small by lia.
    replace ((nprev >=? 0) && negb (nprev =? maxBlockSize w)) with false.
    2:{ rewrite Hb. destruct Hprev as [->| ->]; [reflexivity|].
        rewrite Z.eqb_refl. cbn [negb]. now rewrite andb_false_r. }
    replace (defaultDecBufferSize >? 0) with true by (symmetry; apply Z.gtb_lt; lia).
    destruct (flushPack_reliable_fields w (firstn (Z.to_nat defaultDecBufferSize) data))
      as (w1 & res & E1 & _); [exact Hr | exact Hnn |].
    rewrite E1. cbn [bind].
    destruct (flushPack_emitted _ _ _ _ _ _ _ _ Hem E1) as (He1 & Hr1).
    assert (Hq : len data / defaultDecBufferSize
                 = (len data - defaultDecBufferSize) / defaultDecBufferSize + 1).
    { replace (len data) with ((len data - defaultDecBufferSize) + 1 * defaultDecBufferSize)
        at 1 by lia.
      now rewrite Z.div_add by lia. }
    assert (Hq0 : 0 <= (len data - defaultDecBufferSize) / defaultDecBufferSize)
      by (apply Z.div_pos; lia).
    destruct (IH (with_rbuf w1 [])
                 (packs ++ [firstn (Z.to_nat defaultDecBufferSize) data])
                 (skipn (Z.to_nat defaultDecBufferSize) data)
                 (n + defaultDecBufferSize) defaultDecBufferSize) as (w' & H1 & H2 & H3).
    + now apply emitted_with_rbuf.
    + reflexivity.
    + now right.
    + lia.
    + rewrite len_skipn by lia. lia.
    + rewrite len_skipn by lia. rewrite Z.max_r by lia. lia.
    + exists w'. rewrite H1. rewrite len_skipn by lia. rewrite Z.max_r by lia.
      split; [f_equal; f_equal; f_equal; rewrite Hq; lia|].
      destruct (full_blocks_step defaultDecBufferSize data) as (-> & _); [lia|].
      rewrite <- app_assoc in H2. cbn [app] in H2.
      split; [exact H2 | exact H3].
Qed.

(** X26.  [ReadFrom] from a source that fails with an error other than
    io.EOF and io.ErrUnexpectedEOF, on a new writer whose block size is the
    scratch size, over a sink that accepts every write: it returns the
    source's error; the full scratch buffers read before the failure have
    been framed and are counted, the bytes that the failing read delivered
    are dropped and not counted. *)
Theorem ReadFrom_source_error (s : Sink) (k : list byte) (fl : Z) (data : list byte)
    (e : error) (fuel : nat) :
  reliable s -> accepted s = [] -> len data < 2 ^ 63 ->
  e <> EOF -> e <> ErrUnexpectedEOF ->
  (Z.to_nat (len data / defaultDecBufferSize) < fuel)%nat ->
  exists w',
    ReadFrom fuel (NewWriterWithBlockSize s k fl defaultDecBufferSize)
             (mkSource data (Some e))
    = Done (w', mkSource [] (Some e),
            (defaultDecBufferSize * (len data / defaultDecBufferSize), Some e)) /\
    accepted (sink w') =
      GenerateHeader k defaultDecBufferSize fl
      :: frames_from k fl (repeat x00 4) 0 (full_blocks defaultDecBufferSize data).
Proof.
  intros Hr Ha Hlen He1 He2 Hf.
  assert (He : is_eof (Some e) = false) by (destruct e; try reflexivity; congruence).
  destruct (emitted_init s k fl defaultDecBufferSize Hr Ha) as (w0 & E0 & He0 & Hb0).
  unfold ReadFrom. rewrite E0. rewrite Hb0, (@len_nil byte). cbn [Z.gtb Z.compare].
  destruct (ReadFrom_loop_source_error k fl e fuel He w0 [] data 0 (-1) He0 Hb0)
    as (w' & H1 & H2 & H3).
  - now left.
  - lia.
  - lia.
  - exact Hf.
  - exists w'. rewrite H1. split; [reflexivity | apply H2].
Qed.

End WithSuite.

Lemma NewSink_reliable : reliable NewSink.
Proof. intros k. reflexivity. Qed.

Lemma Write_buffers_witness :
  let w := mkWriter NewSink [] (repeat x00 12) [] [x01; x02; x03; x04; x05] 0 true 2 0 in
  exists w',
    Write (suite := toy_suite) 6 w [x06] = Done (w', (1, None)) /\
    rbuf w' = [x05; x06] /\
    accepted (sink w') =
      frames_from (suite := toy_suite) [] 0 (repeat x00 4) 0 [[x01; x02]; [x03; x04]].
Proof.
  intros w.
  destruct (Write_buffers (suite := toy_suite) 6 w [x06]) as (w' & H1 & H2 & _ & H4).
  - exact NewSink_reliable.
  - reflexivity.
  - vm_compute. discriminate.
  - cbn. lia.
  - exists w'. split; [exact H1|]. split; [exact H2 | exact H4].
Defined.

Lemma Write_Close_stream_witness :
  exists w',
    WriteAll (suite := toy_suite) 6 (NewWriterWithBlockSize NewSink [] 0 2)
             [[x01; x02; x03]; [x04; x05]] = Done (w', None) /\
    accepted (sink w') =
      GenerateHeader (Suite := toy_suite) [] 2 0
      :: frames_from (suite := toy_suite) [] 0 (repeat x00 4) 0
           [[x01; x02]; [x03; x04]; [x05]].
Proof.
  destruct (Write_Close_stream (suite := toy_suite) NewSink [] 0 2
              [[x01; x02; x03]; [x04; x05]] 6) as (w' & H1 & _ & H3).
  - exact NewSink_reliable.
  - reflexivity.
  - lia.
  - cbn. lia.
  - exists w'. split; [exact H1 | exact H3].
Defined.

Lemma ReadFrom_frames_witness :
  exists w',
    ReadFrom (suite := toy_suite) 1
             (NewWriterWithBlockSize NewSink [] 0 defaultDecBufferSize)
             (mkSource [x01; x02; x03] None)
    = Done (w', mkSource [] None, (3, None)) /\
    accepted (sink w') =
      GenerateHeader (Suite := toy_suite) [] defaultDecBufferSize 0
      :: frames_from (suite := toy_suite) [] 0 (repeat x00 4) 0 [[x01; x02; x03]].
Proof.
  destruct (ReadFrom_frames (suite := toy_suite) NewSink [] 0 [x01; x02; x03] 1)
    as (w' & H1 & _ & H3).
  - exact NewSink_reliable.
  - reflexivity.
  - reflexivity.
  - vm_compute. lia.
  - exists w'. split; [exact H1 | exact H3].
Defined.

Lemma ReadFrom_bad_block_size_witness :
  let data := repeat x00 (Z.to_nat (2 * defaultDecBufferSize)) in
  exists w',
    ReadFrom (suite := toy_suite) 2 (NewWriterWithBlockSize NewSink [] 0 4096)
             (mkSource data None)
    = Done (w', mkSource (skipn (Z.to_nat (2 * defaultDecBufferSize)) data) None,
            (2 * defaultDecBufferSize, Some ErrBadBlockSize)).
Proof.
  intros data.
  destruct (ReadFrom_bad_block_size (suite := toy_suite) NewSink [] 0 4096 data 0)
    as (w' & H1 & _).
  - exact NewSink_reliable.
  - reflexivity.
  - discriminate.
  - unfold data. rewrite len_repeat. pose proof defaultDecBufferSize_pos. lia.
  - exists w'. exact H1.
Defined.

Lemma Close_twice_witness :
  exists w',
    Close (suite := toy_suite) 1 (NewWriterWithBlockSize NewSink [] 0 2) = Done (w', None) /\
    Close (suite := toy_suite) 0 w' = Done (w', None).
Proof.
  assert (C : exists w', Close (suite := toy_suite) 1 (NewWriterWithBlockSize NewSink [] 0 2)
                         = Done (w', None)) by (eexists; reflexivity).
  destruct C as (w' & C).
  destruct (Close_twice (suite := toy_suite) 1 0 _ w' C) as (H & _).
  exists w'. split; [exact C | exact H].
Defined.

Lemma Write_header_rejected_witness :
  let w := NewWriterWithBlockSize (failing_at 0 [] 0) [] 0 2 in
  exists w',
    Write (suite := toy_suite) 1 w [x01] = Done (w', (0, Some (ErrOther 1))) /\
    headerWritten w' = true /\ accepted (sink w') = [].
Proof.
  intros w.
  destruct (Write_header_rejected (suite := toy_suite) 1 w [x01] (ErrOther 1))
    as (w' & H1 & H2 & H3 & _).
  - reflexivity.
  - reflexivity.
  - exists w'. split; [exact H1|]. split; [exact H2 | exact H3].
Defined.

Lemma Write_flush_rejected_witness :
  let w := mkWriter (failing_at 1 [[x00]] 1) [] (repeat x00 12) []
                    [x01; x02; x03] 0 true 2 0 in
  exists w',
    Write (suite := toy_suite) 1 w [x04] = Done (w', (0, Some (ErrOther 1))) /\
    rbuf w' = [x03] /\ blockCount w' = 0.
Proof.
  intros w.
  destruct (Write_flush_rejected (suite := toy_suite) 0 w [x04] (ErrOther 1))
    as (w' & H1 & H2 & H3 & _).
  - reflexivity.
  - cbn. lia.
  - vm_compute. discriminate.
  - reflexivity.
  - exists w'. split; [exact H1|]. split; [exact H2 | exact H3].
Defined.

Lemma Write_without_block_size_witness :
  Write (suite := toy_suite) 9 (NewWriterWithBlockSize NewSink [] 0 0) [x01] = OutOfFuel.
Proof.
  apply (Write_without_block_size (suite := toy_suite) 9
           (NewWriterWithBlockSize NewSink [] 0 0) [x01]).
  - cbn. lia.
  - exact NewSink_reliable.
  - vm_compute. discriminate.
  - reflexivity.
Defined.

Lemma ReadFrom_source_error_witness :
  exists w',
    ReadFrom (suite := toy_suite) 1
             (NewWriterWithBlockSize NewSink [] 0 defaultDecBufferSize)
             (mkSource [x01; x02; x03] (Some (ErrOther 7)))
    = Done (w', mkSource [] (Some (ErrOther 7)), (0, Some (ErrOther 7))) /\
    accepted (sink w') = [GenerateHeader (Suite := toy_suite) [] defaultDecBufferSize 0].
Proof.
  destruct (ReadFrom_source_error (suite := toy_suite) NewSink [] 0 [x01; x02; x03]
              (ErrOther 7) 1) as (w' & H1 & H2).
  - exact NewSink_reliable.
  - reflexivity.
  - reflexivity.
  - discriminate.
  - discriminate.
  - vm_compute. lia.
  - exists w'. split; [exact H1 | exact H2].
Defined.

End EncryptMore.

(** ** More on the decompressing reader *)

Module CompressMore.

Import GoFacts ChunkBuf Compress CompressWriter CompressFacts.

Lemma laid_raw_lower a obj raw zip recs cs :
  laid a obj raw zip recs cs -> forall x, In x recs -> raw <= rawOff x.
Proof.
  induction 1 as [raw zip | raw zip z c rest cs front back Ho Hf Hz Hd Hl IH];
    intros x Hx.
  - destruct Hx as [<-|[]]. cbn. lia.
  - pose proof (len_nonneg c).
    destruct Hx as [<-|Hx]; [cbn; lia|]. specialize (IH x Hx). lia.
Qed.

Lemma laid_length a obj raw zip recs cs :
  laid a obj raw zip recs cs -> length recs = S (length cs).
Proof. induction 1; cbn [length]; congruence. Qed.

(** The chunk that holds the plaintext offset [o]. *)
Lemma laid_split a obj raw zip recs cs :
  laid a obj raw zip recs cs ->
  forall o, raw <= o < raw + len (concat cs) ->
  exists recs1 ra za rest cs1 c cs2,
    recs = recs1 ++ mkRecord ra za :: rest /\
    cs = cs1 ++ c :: cs2 /\
    laid a obj ra za (mkRecord ra za :: rest) (c :: cs2) /\
    ra = raw + len (concat cs1) /\ ra <= o < ra + len c /\
    (forall x, In x recs1 -> rawOff x <= ra /\ zipOff x <= za).
Proof.
  induction 1 as [raw zip | raw zip z c rest cs front back Ho Hf Hz Hd Hl IH];
    intros o Hoff.
  - cbn [concat] in Hoff. rewrite (@len_nil byte) in Hoff. lia.
  - cbn [concat] in Hoff. rewrite len_app in Hoff.
    pose proof (len_nonneg c) as Hc.
    destruct (Z_lt_le_dec o (raw + len c)) as [Hin|Hout].
    + exists [], raw, zip, rest, [], c, cs. cbn [app concat].
      rewrite (@len_nil byte).
      split; [reflexivity|]. split; [reflexivity|].
      split; [eapply laid_cons; eassumption|].
      split; [lia|]. split; [lia|]. intros x [].
    + destruct (IH o) as (recs1 & ra & za & rest' & cs1 & c' & cs2 & E1 & E2 & L & Hra & Hin & Hlow);
        [lia|].
      exists (mkRecord raw zip :: recs1), ra, za, rest', (c :: cs1), c', cs2.
      split; [rewrite E1; reflexivity|]. split; [rewrite E2; reflexivity|].
      split; [exact L|]. split; [cbn [concat]; rewrite len_app; lia|].
      split; [lia|].
      intros x [<-|Hx]; [|apply Hlow; exact Hx]. cbn [rawOff zipOff].
      pose proof (len_nonneg (concat cs1)).
      assert (In (mkRecord ra za) rest) by (rewrite E1; apply in_or_app; right; left; reflexivity).
      pose proof (laid_zip_lower _ _ _ _ _ _ Hl _ H0). cbn [zipOff] in *. lia.
Qed.

Lemma skipn_concat_split (cs1 : list (list byte)) (c : list byte) (cs2 : list (list byte)) (k : Z) :
  0 <= k ->
  skipn (Z.to_nat (len (concat cs1) + k)) (concat (cs1 ++ c :: cs2))
  = skipn (Z.to_nat k) c ++ match Z_lt_le_dec k (len c) with
                            | left _ => concat cs2
                            | right _ => skipn (Z.to_nat (k - len c)) (concat cs2)
                            end.
Proof.
  intros Hk. rewrite concat_app. cbn [concat].
  pose proof (len_nonneg (concat cs1)).
  rewrite skipn_app_ge by lia.
  replace (len (concat cs1) + k - len (concat cs1)) with k by lia.
  destruct (Z_lt_le_dec k (len c)).
  - rewrite skipn_app_le by lia. reflexivity.
  - rewrite skipn_app_ge by lia.
    rewrite (skipn_all2 c) by (unfold len in *; lia). reflexivity.
Qed.

Section WithCodecs.
Context {codecs : Codecs}.

(** Loading a chunk, with the reader it leaves. *)
Lemma readZipChunk_loads a obj r pre raw zip rest c cs cur :
  len obj < 2 ^ 63 -> len c < 2 ^ 63 ->
  reading a obj r pre (mkRecord raw zip :: rest) raw zip (c :: cs) cur ->
  exists r1 raw1 zip1,
    readZipChunk r = Done (r1, (Some c, None)) /\
    reading a obj r1 (pre ++ [mkRecord raw zip]) rest raw1 zip1 cs c /\
    chunkBuf r1 = NewChunkBuffer (Some c) /\
    zipSeekOffset r1 = raw /\ isInitialRead r1 = false /\ index r1 = index r.
Proof.
  intros Hobj Hc (Hi & Hl & Hpre & Hraw & Ht & Ha & Hd & Hr & Hs & Hlt & Hcur).
  inversion Hl as [|raw' zip' z c' rest' cs' front back Ho Hf Hz Hdec Hl' E1 E2 E3 E4].
  subst raw' zip' c' rest' cs'.
  assert (Hzb : len front + len z <= len obj).
  { rewrite Ho, !len_app. pose proof (len_nonneg back). lia. }
  assert (Hf0 := len_nonneg front).
  destruct rest as [|r2 rest2]; [inversion Hl'|].
  assert (Hr2 : r2 = mkRecord (raw + len c) (zip + len z)) by (inversion Hl'; reflexivity).
  unfold readZipChunk, fixZipChunk.
  cbn [rawSeekOffset set_chunkBuf]. rewrite Hraw.
  rewrite (chunkLookup_mid _ zip false pre (mkRecord raw zip) r2 rest2).
  2:{ cbn [index]. exact Hi. }
  2:{ intros x Hx. apply in_app_or in Hx. cbn [field].
      destruct Hx as [Hx|[<-|[]]]; [apply Hpre; exact Hx | cbn; lia]. }
  2:{ intros x Hx. cbn [field]. pose proof (laid_zip_lower _ _ _ _ _ _ Hl' x Hx). lia. }
  cbn [bind].
  assert (Hz2 : zipOff r2 = zip + len z) by (rewrite Hr2; reflexivity).
  cbn [zipOff rawOff]. rewrite Hz2.
  replace (zip + len z - zip) with (len z) by lia.
  rewrite wrap64_small by lia.
  replace (len z =? 0) with false by (symmetry; apply Z.eqb_neq; lia).
  rewrite raw_Seek_start by lia.
  simpl_reader. rewrite Hd.
  pose proof (raw_CopyN_at obj front z back Ho) as Hcopy. rewrite Hf in Hcopy.
  rewrite Hcopy. simpl_reader. rewrite Ha, Hdec.
  eexists. exists (raw + len c), (zip + len z). split; [reflexivity|].
  simpl_reader.
  split; [|repeat split].
  unfold reading, NewChunkBuffer.
  simpl_reader. cbn [readOff size buf Z.to_nat skipn].
  split; [rewrite Hi, <- app_assoc; reflexivity|].
  split; [exact Hl'|].
  split.
  { intros x Hx. apply in_app_or in Hx.
    destruct Hx as [Hx|[<-|[]]]; [specialize (Hpre x Hx); lia | cbn; lia]. }
  pose proof (len_nonneg c).
  repeat split; try assumption; try lia.
Qed.


Lemma laid_last a obj raw zip recs cs :
  laid a obj raw zip recs cs ->
  exists pre l,
    recs = pre ++ [l] /\ rawOff l = raw + len (concat cs) /\ zip <= zipOff l /\
    (forall x, In x recs -> rawOff x <= rawOff l /\ zipOff x <= zipOff l).
Proof.
  induction 1 as [raw zip | raw zip z c rest cs front back Ho Hf Hz Hd Hl IH].
  - exists [], (mkRecord raw zip). cbn [app concat rawOff zipOff].
    rewrite (@len_nil byte). repeat split; try lia; destruct H as [<-|[]]; cbn; lia.
  - destruct IH as (pre & l & E & Hr & Hzl & Hmax).
    exists (mkRecord raw zip :: pre), l. pose proof (len_nonneg c).
    split; [rewrite E; reflexivity|].
    split; [cbn [concat]; rewrite len_app; lia|]. split; [lia|].
    intros x [<-|Hx]; [|apply Hmax; exact Hx].
    pose proof (len_nonneg (concat cs)). cbn [rawOff zipOff]. lia.
Qed.

(** A seek into the chunk [c] that starts at the plaintext offset [ra]. *)
Lemma seekStart_into a obj r zip0 cs recs1 ra za rest c cs2 o :
  opened a obj r zip0 cs -> len obj < 2 ^ 63 ->
  index r = recs1 ++ mkRecord ra za :: rest ->
  laid a obj ra za (mkRecord ra za :: rest) (c :: cs2) ->
  (forall x, In x recs1 -> rawOff x <= ra /\ zipOff x <= za) ->
  0 <= ra <= o -> o < ra + len c -> len c < 2 ^ 63 ->
  exists r2 raw1 zip1,
    seekStart r o = Done (r2, (o, None)) /\
    reading a obj r2 (recs1 ++ [mkRecord ra za]) rest raw1 zip1 cs2
            (skipn (Z.to_nat (o - ra)) c) /\
    zipSeekOffset r2 = ra /\ opened a obj r2 zip0 cs /\ index r2 = index r.
Proof.
  intros (Hlaid & Hne & Ht & Ha & Hd & Hinit & Hrb & Hsb & Hlb) Hobj Hi Hl Hlow Hra Ho Hc.
  pose proof (laid_length _ _ _ _ _ _ Hlaid) as Hlen.
  assert (H2 : (2 <= length (index r))%nat).
  { destruct cs; [congruence|]. cbn [length] in Hlen. lia. }
  inversion Hl as [|raw' zip' z c' rest' cs' front back Hobj' Hf Hz Hdec Hl' E1 E2 E3 E4].
  subst raw' zip' c' rest' cs'.
  destruct rest as [|b post]; [inversion Hl'|].
  unfold seekStart. rewrite parse_opened by assumption. cbn [bind].
  replace (o <? 0) with false by (symmetry; apply Z.ltb_ge; lia).
  rewrite (chunkLookup_mid r o true recs1 (mkRecord ra za) b post Hi).
  2:{ intros x Hx. apply in_app_or in Hx. cbn [field].
      destruct Hx as [Hx|[<-|[]]]; [specialize (Hlow x Hx); lia | cbn; lia]. }
  2:{ intros x Hx. cbn [field]. pose proof (laid_raw_lower _ _ _ _ _ _ Hl' x Hx). lia. }
  cbn [bind].
  destruct (chunkLookup_total r (zipSeekOffset r) true H2) as (p1 & p2 & Hc2 & _).
  rewrite Hc2. cbn [bind].
  cbn [isInitialRead set_zipSeekOffset set_rawSeekOffset]. rewrite Hinit.
  rewrite orb_true_r. cbn [zipOff rawOff].
  match goal with |- context [readZipChunk ?r0] => set (r' := r0) end.
  assert (R : reading a obj r' recs1 (mkRecord ra za :: b :: post) ra za (c :: cs2)
                      (skipn (Z.to_nat (readOff (chunkBuf r))) (buf (chunkBuf r)))).
  { unfold reading, r'. simpl_reader.
    split; [exact Hi|]. split; [exact Hl|].
    split; [intros x Hx; apply Hlow; exact Hx|].
    repeat split; try assumption; lia. }
  destruct (readZipChunk_loads a obj r' recs1 ra za (b :: post) c cs2 _ Hobj Hc R)
    as (r1 & raw1 & zip1 & E & R1 & Hcb & Hz1 & Hinit1 & Hidx1).
  rewrite E. cbn [bind].
  rewrite wrap64_small by lia.
  rewrite Hcb. unfold ChunkBuf.Seek, NewChunkBuffer.
  cbn [Z.eqb Pos.eqb SeekStart SeekCurrent SeekEnd size buf].
  pose proof (len_nonneg c) as Hc0.
  rewrite Z.min_l by lia.
  eexists. exists raw1, zip1. split; [reflexivity|].
  destruct R1 as (Ri & Rl & Rpre & Rraw & Rt & Ra & Rd & _).
  split; [|split; [|split]].
  - unfold reading. simpl_reader. cbn [readOff size buf].
    repeat split; try assumption; lia.
  - simpl_reader. exact Hz1.
  - unfold opened. simpl_reader. cbn [readOff size buf].
    rewrite Hidx1. unfold r'. simpl_reader.
    repeat split; try assumption; lia.
  - simpl_reader. rewrite Hidx1. reflexivity.
Qed.

(** A seek to the plaintext offset [o], then a read to the end. *)
Lemma seekStart_then_ReadAll (a : Algorithm) (obj : list byte) (r : Reader) (zip0 : Z)
    (cs : list (list byte)) (o plen : Z) (fuel readFuel : nat) :
  opened a obj r zip0 cs -> len obj < 2 ^ 63 -> len (concat cs) < 2 ^ 63 ->
  0 <= o <= len (concat cs) -> 0 < plen ->
  (length cs < readFuel)%nat -> (length (concat cs) < fuel)%nat ->
  exists r1 r2,
    seekStart r o = Done (r1, (o, None)) /\
    ReadAll fuel readFuel r1 plen [] =
      Done (r2, (skipn (Z.to_nat o) (concat cs), None)).
Proof.
  intros Hop Hobj Htot Ho Hplen Hrf Hf.
  pose proof Hop as (Hlaid & Hne & Ht & Ha & Hd & Hinit & Hrb & Hsb & Hlb).
  assert (Hall : Forall (fun c => len c < 2 ^ 63) cs).
  { apply Forall_forall. intros c Hc. pose proof (len_in_concat cs c Hc). lia. }
  destruct (Z_lt_le_dec o (len (concat cs))) as [Hin|Hend].
  - destruct (laid_split _ _ _ _ _ _ Hlaid o)
      as (recs1 & ra & za & rest & cs1 & c & cs2 & E1 & E2 & L & Hra & Hoc & Hlow); [lia|].
    pose proof (len_nonneg (concat cs1)) as Hc1.
    assert (Hc : len c < 2 ^ 63).
    { rewrite Forall_forall in Hall. apply Hall. rewrite E2.
      apply in_or_app. right. left. reflexivity. }
    destruct (seekStart_into a obj r zip0 cs recs1 ra za rest c cs2 o Hop Hobj E1 L Hlow)
      as (r2 & raw1 & zip1 & Es & R & Hz & Hop2 & _); try lia.
    exists r2. rewrite Es.
    assert (Hall2 : Forall (fun c => len c < 2 ^ 63) cs2).
    { rewrite E2 in Hall. apply Forall_app in Hall. destruct Hall as (_ & Hall).
      now inversion Hall. }
    destruct (ReadAll_reading a obj Hobj fuel cs2 r2 r2 (recs1 ++ [mkRecord ra za]) rest
                raw1 zip1 (skipn (Z.to_nat (o - ra)) c) readFuel plen []
                Hall2) as (r3 & HA).
    + apply parse_opened. apply R.
    + exact R.
    + exact Hplen.
    + rewrite E2, length_app in Hrf. cbn [length] in Hrf. lia.
    + assert (Hle : (length (skipn (Z.to_nat (o - ra)) c ++ concat cs2)
                     <= length (concat cs))%nat).
      { rewrite E2, concat_app, !length_app. cbn [concat]. rewrite length_app.
        rewrite length_skipn. lia. }
      lia.
    + exists r3. split; [reflexivity|]. rewrite HA. cbn [app].
      do 3 f_equal.
      replace o with (len (concat cs1) + (o - ra)) at 2 by lia.
      rewrite E2, skipn_concat_split by lia.
      destruct (Z_lt_le_dec (o - ra) (len c)); [reflexivity | lia].
  - assert (Heq : o = len (concat cs)) by lia.
    destruct (laid_last _ _ _ _ _ _ Hlaid) as (pre & l & E & Hrl & Hzl & Hmax).
    pose proof (laid_length _ _ _ _ _ _ Hlaid) as Hlen.
    assert (H2 : (2 <= length (index r))%nat).
    { destruct cs; [congruence|]. cbn [length] in Hlen. lia. }
    rewrite (seekStart_at_end r pre l o Ht Hinit E H2 Hmax) by lia.
    exists (at_end r l o).
    destruct fuel as [|fuel]; [lia|]. destruct readFuel as [|readFuel]; [lia|].
    cbn [ReadAll].
    rewrite (Read_at_end readFuel r pre l o plen Ht E) by
      (try exact Hplen; intros x Hx; apply Hmax; exact Hx).
    cbn [bind app]. eexists. split; [reflexivity|].
    rewrite Heq, skipn_len_all. reflexivity.
Qed.


(** X14.  Seek consistency.  On a reader that has parsed an object whose
    index delimits the chunks [cs], [Seek(o, io.SeekStart)] with
    [0 <= o <= len (concat cs)] returns [o] and a nil error, and reading from
    there to the end yields the plaintext from offset [o] on,
    [skipn o (concat cs)]. *)
Theorem Seek_then_ReadAll (a : Algorithm) (obj : list byte) (r : Reader) (zip0 : Z)
    (cs : list (list byte)) (o plen : Z) (fuel readFuel : nat) :
  opened a obj r zip0 cs -> len obj < 2 ^ 63 -> len (concat cs) < 2 ^ 63 ->
  0 <= o <= len (concat cs) -> 0 < plen ->
  (length cs < readFuel)%nat -> (length (concat cs) < fuel)%nat ->
  exists r1 r2,
    Seek r o SeekStart = Done (r1, (o, None)) /\
    ReadAll fuel readFuel r1 plen [] =
      Done (r2, (skipn (Z.to_nat o) (concat cs), None)).
Proof.
  intros Hop Hobj Htot Ho Hplen Hrf Hf.
  change (Seek r o SeekStart) with (seekStart r o).
  now apply (seekStart_then_ReadAll a obj r zip0 cs).
Qed.

(** X15.  On a reader that has parsed an object of [total] plaintext
    bytes, [Seek(-k, io.SeekEnd)] with [0 <= k <= total] returns [total - k]
    and a nil error, and reading from there to the end yields the last [k]
    bytes of the plaintext. *)
Theorem Seek_from_end_reads_tail (a : Algorithm) (obj : list byte) (r : Reader)
    (zip0 : Z) (cs : list (list byte)) (k plen : Z) (fuel readFuel : nat) :
  opened a obj r zip0 cs -> len obj < 2 ^ 63 -> len (concat cs) < 2 ^ 63 ->
  0 <= k <= len (concat cs) -> 0 < plen ->
  (length cs < readFuel)%nat -> (length (concat cs) < fuel)%nat ->
  let total := len (concat cs) in
  exists r1 r2,
    Seek r (- k) SeekEnd = Done (r1, (total - k, None)) /\
    ReadAll fuel readFuel r1 plen [] =
      Done (r2, (skipn (Z.to_nat (total - k)) (concat cs), None)).
Proof.
  intros Hop Hobj Htot Hk Hplen Hrf Hf total.
  pose proof Hop as (Hlaid & Hne & Ht & _).
  destruct (laid_last _ _ _ _ _ _ Hlaid) as (pre & l & E & Hrl & _ & _).
  unfold Seek. cbn [Z.eqb Pos.eqb SeekEnd].
  replace (- k >? 0) with false
    by (symmetry; rewrite Z.gtb_ltb; apply Z.ltb_ge; lia).
  rewrite parse_opened by assumption. cbn [bind].
  assert (Hnil : index r <> []) by (rewrite E; destruct pre; discriminate).
  rewrite index_at_last by exact Hnil. cbn [bind].
  assert (Hl : last_record (index r) = l).
  { unfold last_record. rewrite E. apply last_last. }
  rewrite Hl, Hrl. rewrite wrap64_small by (fold total; lia).
  replace (0 + len (concat cs) + - k) with (total - k) by (unfold total; lia).
  apply (seekStart_then_ReadAll a obj r zip0 cs); try assumption.
  unfold total. lia.
Qed.

(** X16.  After [Seek(o, io.SeekStart)] to an offset inside the plaintext,
    the plaintext cursor that the reader stores is not [o] but the raw
    offset of the record of the chunk that holds [o] (the last record at or
    before [o]): [fixZipChunk] overwrites the cursor when it loads the chunk.
    So [Seek(0, io.SeekCurrent)] after it returns the start of that chunk. *)
Theorem Seek_cursor_at_chunk_start (a : Algorithm) (obj : list byte) (r : Reader)
    (zip0 : Z) (cs : list (list byte)) (o : Z) :
  opened a obj r zip0 cs -> len obj < 2 ^ 63 -> len (concat cs) < 2 ^ 63 ->
  0 <= o < len (concat cs) ->
  exists recs1 x rest r1 r2,
    index r = recs1 ++ x :: rest /\
    rawOff x <= o /\ (forall y, In y rest -> o < rawOff y) /\
    Seek r o SeekStart = Done (r1, (o, None)) /\
    zipSeekOffset r1 = rawOff x /\
    Seek r1 0 SeekCurrent = Done (r2, (rawOff x, None)).
Proof.
  intros Hop Hobj Htot Ho.
  pose proof Hop as (Hlaid & _).
  assert (Hall : Forall (fun c => len c < 2 ^ 63) cs).
  { apply Forall_forall. intros c Hc. pose proof (len_in_concat cs c Hc). lia. }
  destruct (laid_split _ _ _ _ _ _ Hlaid o)
    as (recs1 & ra & za & rest & cs1 & c & cs2 & E1 & E2 & L & Hra & Hoc & Hlow); [lia|].
  pose proof (len_nonneg (concat cs1)) as Hc1.
  assert (Hc : len c < 2 ^ 63).
  { rewrite Forall_forall in Hall. apply Hall. rewrite E2.
    apply in_or_app. right. left. reflexivity. }
  destruct (seekStart_into a obj r zip0 cs recs1 ra za rest c cs2 o Hop Hobj E1 L Hlow)
    as (r1 & raw1 & zip1 & Es & R & Hz & Hop1 & Hidx); try lia.
  rewrite <- Hidx in E1.
  destruct (seekStart_into a obj r1 zip0 cs recs1 ra za rest c cs2 ra Hop1 Hobj E1 L Hlow)
    as (r2 & raw2 & zip2 & Es2 & _); try lia.
  exists recs1, (mkRecord ra za), rest, r1, r2. cbn [rawOff].
  split; [rewrite <- Hidx; exact E1|]. split; [lia|].
  split.
  { intros y Hy. inversion L as [|? ? z ? ? ? front back _ _ _ _ L']. subst.
    pose proof (laid_raw_lower _ _ _ _ _ _ L' y Hy). lia. }
  split; [exact Es|]. split; [exact Hz|].
  unfold Seek. cbn [Z.eqb Pos.eqb SeekStart SeekCurrent SeekEnd].
  rewrite Hz, Z.add_0_r, wrap64_small by lia. exact Es2.
Qed.


Lemma sink_accepts (w : Sink) (p : list byte) :
  reliable w ->
  sink_write w p = (mkSink (accepted w ++ [p]) (S (calls w)) (fault w), (len p, None)).
Proof. intros H. unfold sink_write. now rewrite H. Qed.

(** The loop of [WriteTo] hands the chunks that are left to the writer, one
    call for each. *)
Lemma WriteTo_loop_reading (a : Algorithm) (obj : list byte) :
  len obj < 2 ^ 63 ->
  forall cs r pre suffix raw zip cur fuel w written,
    reading a obj r pre suffix raw zip cs cur ->
    reliable w -> 0 <= written -> written + len (concat cs) < 2 ^ 63 ->
    (length cs < fuel)%nat ->
    exists r' w',
      WriteTo_loop fuel r w written = Done (r', w', (written + len (concat cs), None)) /\
      accepted w' = accepted w ++ cs /\ reliable w'.
Proof.
  intros Hobj cs.
  induction cs as [|c cs IH];
    intros r pre suffix raw zip cur fuel w written R Hw Hwr Htot Hfuel;
    (destruct fuel as [|fuel]; [cbn [length] in Hfuel; lia|]);
    cbn [WriteTo_loop].
  - destruct R as (Hi & Hl & Hpre & Hraw & Ht & Ha & Hd & Hr & Hsz & Hlt & Hc1).
    inversion Hl as [raw' zip' E1 E2 E3 E4|]. subst raw' zip' suffix.
    rewrite (readZipChunk_at_end r pre (mkRecord raw zip)); try assumption.
    2:{ intros x Hx. rewrite Hi in Hx. apply in_app_or in Hx.
        destruct Hx as [Hx|[<-|[]]]; [apply Hpre; exact Hx | cbn; lia]. }
    cbn [bind concat]. rewrite (@len_nil byte), Z.add_0_r, app_nil_r.
    do 2 eexists. split; [reflexivity|]. split; [reflexivity | exact Hw].
  - assert (Hsuf : exists rest, suffix = mkRecord raw zip :: rest).
    { destruct R as (_ & Hl & _). inversion Hl. eauto. }
    destruct Hsuf as (rest & ->).
    cbn [concat] in Htot. rewrite len_app in Htot.
    pose proof (len_nonneg c) as Hc0. pose proof (len_nonneg (concat cs)) as Hcs0.
    assert (Hc : len c < 2 ^ 63) by lia.
    destruct (readZipChunk_reading _ _ _ _ _ _ _ _ _ _ Hobj Hc R)
      as (r2 & raw1 & zip1 & Hz & R2).
    rewrite Hz. cbn [bind].
    rewrite sink_accepts by assumption.
    rewrite wrap64_small by lia.
    match goal with |- context [WriteTo_loop fuel r2 ?w1 _] =>
      destruct (IH r2 _ _ _ _ _ fuel w1 (written + len c) R2) as (r' & w' & E & Hacc & Hrel)
    end.
    + intros i. apply Hw.
    + lia.
    + lia.
    + cbn [length] in Hfuel. lia.
    + exists r', w'. rewrite E. cbn [concat]. rewrite len_app.
      split; [f_equal; f_equal; f_equal; lia|]. split; [|exact Hrel].
      rewrite Hacc. cbn [accepted]. rewrite <- app_assoc. reflexivity.
Qed.

(** X17.  [WriteTo] on a reader over a parsed object, into a writer that
    accepts every write, hands it first what is left in the chunk buffer (in
    one call, also when that is nothing) and then every remaining chunk
    decoded, one call each, in order; it returns the number of plaintext
    bytes written and a nil error. *)
Theorem WriteTo_plaintext (a : Algorithm) (obj : list byte) (r r0 : Reader)
    (pre suffix : list record) (raw zip : Z) (cs : list (list byte)) (cur : list byte)
    (w : Sink) (fuel : nat) :
  len obj < 2 ^ 63 ->
  parseTrailerIfNeeded r = Done (r0, None) ->
  reading a obj r0 pre suffix raw zip cs cur ->
  reliable w -> len (cur ++ concat cs) < 2 ^ 63 ->
  (length cs < fuel)%nat ->
  exists r' w',
    WriteTo fuel r w = Done (r', w', (len (cur ++ concat cs), None)) /\
    accepted w' = accepted w ++ cur :: cs.
Proof.
  intros Hobj Hparse R Hw Htot Hfuel.
  pose proof (reading_len_cur _ _ _ _ _ _ _ _ _ R) as Hlen.
  pose proof R as (Hi & Hl & Hpre & Hraw & Ht & Ha & Hd & Hr & Hsz & Hlt & Hcur).
  rewrite len_app in Htot.
  pose proof (len_nonneg cur) as Hc0. pose proof (len_nonneg (concat cs)) as Hcs0.
  unfold WriteTo. rewrite Hparse. cbn [bind].
  unfold ChunkBuf.WriteTo. rewrite slice_ok by lia. cbn [bind].
  rewrite sink_accepts by assumption.
  assert (Hrest : firstn (Z.to_nat (len (buf (chunkBuf r0)) - readOff (chunkBuf r0)))
                    (skipn (Z.to_nat (readOff (chunkBuf r0))) (buf (chunkBuf r0))) = cur).
  { rewrite Hcur. apply firstn_all2. unfold len in *. lia. }
  rewrite Hrest. cbn [bind].
  rewrite (wrap64_small (readOff (chunkBuf r0) + len cur)) by lia.
  rewrite (wrap64_small (0 + len cur)) by lia.
  match goal with |- context [WriteTo_loop fuel ?r1 ?w1 _] =>
    destruct (WriteTo_loop_reading a obj Hobj cs r1 pre suffix raw zip [] fuel w1 (0 + len cur))
      as (r' & w' & E & Hacc & _)
  end.
  - unfold reading. simpl_reader. cbn [readOff size buf].
    repeat split; try assumption; try lia.
    apply skipn_all2. unfold len in *. lia.
  - intros i. apply Hw.
  - lia.
  - lia.
  - exact Hfuel.
  - exists r', w'. rewrite E. rewrite len_app.
    split; [reflexivity|]. rewrite Hacc. cbn [accepted].
    rewrite <- app_assoc. reflexivity.
Qed.

(** X18.  [Read] into [plen] bytes on a reader over a parsed object, with
    [rest] the plaintext not yet read: it returns the first
    [min plen (len rest)] bytes of [rest], crossing chunk borders as needed,
    with a nil error when [rest] holds [plen] bytes or more, and with io.EOF
    (together with the bytes) when it holds fewer; the reader is left at the
    byte after the last one returned. *)
Theorem Read_fills (a : Algorithm) (obj : list byte) (r r0 : Reader)
    (pre suffix : list record) (raw zip : Z) (cs : list (list byte)) (cur : list byte)
    (plen : Z) (fuel : nat) :
  len obj < 2 ^ 63 -> Forall (fun c => len c < 2 ^ 63) cs ->
  parseTrailerIfNeeded r = Done (r0, None) ->
  reading a obj r0 pre suffix raw zip cs cur ->
  0 <= plen -> (length cs < fuel)%nat ->
  exists r',
    Read fuel r plen =
      Done (r', (firstn (Z.to_nat plen) (cur ++ concat cs),
                 if len (cur ++ concat cs) <? plen then Some EOF else None)) /\
    exists pre' suffix' raw' zip' cs' cur',
      reading a obj r' pre' suffix' raw' zip' cs' cur' /\
      cur' ++ concat cs' = skipn (Z.to_nat plen) (cur ++ concat cs).
Proof.
  intros Hobj Hall Hparse R Hp Hfuel.
  unfold Read. rewrite Hparse. cbn [bind].
  destruct (Read_loop_reading a obj Hobj cs Hall r0 _ _ _ _ _ fuel plen [] R Hp Hfuel)
    as (r' & pre' & suffix' & raw' & zip' & cs' & cur' & HR & R' & Hrem & _).
  exists r'. rewrite HR. cbn [app]. split; [reflexivity|].
  exists pre', suffix', raw', zip', cs', cur'. split; assumption.
Qed.


(** With no record in the index every lookup indexes out of range. *)
Lemma chunkLookup_empty (r : Reader) (off : Z) (isRawOff : bool) :
  index r = [] -> chunkLookup r off isRawOff = Panic.
Proof. intros H. unfold chunkLookup. rewrite H. reflexivity. Qed.

Lemma Read_empty_index (r : Reader) (fuel : nat) (plen : Z) :
  trailer r <> None -> index r = [] -> Len (chunkBuf r) = 0 -> 0 < plen ->
  Read (S fuel) r plen = Panic.
Proof.
  intros Ht Hi Hl Hp. unfold Read. rewrite parse_opened by assumption.
  cbn [bind Read_loop]. unfold serveChunk. rewrite Hl. cbn [Z.eqb negb bind].
  replace (plen =? 0) with false by (symmetry; apply Z.eqb_neq; lia).
  unfold readZipChunk, fixZipChunk.
  rewrite chunkLookup_empty by (simpl_reader; exact Hi). reflexivity.
Qed.

(** X19.  A reader whose parsed index holds no record (the trailer of the
    object gives an index size below 16) panics with an index out of range
    on every [Read] into a buffer that is not empty, on every absolute seek
    to an offset that is not negative, and on every seek relative to the
    end. *)
Theorem empty_index_panics (r : Reader) :
  trailer r <> None -> index r = [] ->
  (forall fuel plen, Len (chunkBuf r) = 0 -> 0 < plen -> Read (S fuel) r plen = Panic) /\
  (forall off, 0 <= off -> Seek r off SeekStart = Panic) /\
  (forall off, off <= 0 -> Seek r off SeekEnd = Panic).
Proof.
  intros Ht Hi. split; [|split].
  - intros fuel plen Hl Hp. now apply Read_empty_index.
  - intros off Ho. change (Seek r off SeekStart) with (seekStart r off).
    unfold seekStart. rewrite parse_opened by assumption. cbn [bind].
    replace (off <? 0) with false by (symmetry; apply Z.ltb_ge; lia).
    rewrite chunkLookup_empty by exact Hi. reflexivity.
  - intros off Ho. unfold Seek. cbn [Z.eqb Pos.eqb SeekEnd].
    replace (off >? 0) with false
      by (symmetry; rewrite Z.gtb_ltb; apply Z.ltb_ge; lia).
    rewrite parse_opened by assumption. cbn [bind]. rewrite Hi. reflexivity.
Qed.

(** X20.  On a stream shorter than the 12-byte header the first [Read] and
    the first [Seek] fail with the error of [io.ReadFull]: io.EOF when the
    stream is empty, io.ErrUnexpectedEOF otherwise; no byte is returned and
    the trailer stays unparsed. *)
Theorem truncated_header (d : list byte) (fuel : nat) (plen off : Z) :
  len d < headerSize ->
  let e := match d with [] => EOF | _ => ErrUnexpectedEOF end in
  exists r',
    Read fuel (NewReader (mkRawR d 0)) plen = Done (r', ([], Some e)) /\
    Seek (NewReader (mkRawR d 0)) off SeekStart = Done (r', (0, Some e)) /\
    trailer r' = None.
Proof.
  intros Hd e.
  assert (Hp : parseTrailerIfNeeded (NewReader (mkRawR d 0)) =
               Done (set_rawR (NewReader (mkRawR d 0)) (mkRawR d (0 + len d)), Some e)).
  { unfold parseTrailerIfNeeded, NewReader. cbn [trailer rawR].
    unfold raw_ReadFull, raw_take. cbn [pos data Z.to_nat skipn headerSize Z.leb Z.compare].
    rewrite firstn_all2 by (unfold len, headerSize in Hd; lia).
    replace (len d =? headerSize) with false by (symmetry; apply Z.eqb_neq; lia).
    unfold e. destruct d; reflexivity. }
  eexists. split; [|split].
  - unfold Read. rewrite Hp. reflexivity.
  - change (Seek (NewReader (mkRawR d 0)) off SeekStart)
      with (seekStart (NewReader (mkRawR d 0)) off).
    unfold seekStart. rewrite Hp. reflexivity.
  - reflexivity.
Qed.

End WithCodecs.

(** X21.  [chunkLookup] on an index of two records or more that splits
    into the records at or before [off] ([pre]) and the records after it
    ([post]), compared by raw or by zip offset: it returns the last record
    of [pre] and the first of [post]; the first and the second record of
    the index when [pre] is empty; the last record twice when [post] is
    empty. *)
Theorem chunkLookup_located (r : Reader) (off : Z) (isRawOff : bool)
    (pre post : list record) :
  index r = pre ++ post -> (2 <= length (index r))%nat ->
  (forall x, In x pre -> field isRawOff x <= off) ->
  (forall x, In x post -> off < field isRawOff x) ->
  let d := mkRecord 0 0 in
  chunkLookup r off isRawOff =
  Done (match pre with
        | [] => (nth 0 post d, nth 1 post d)
        | _ => (last pre d, match post with [] => last pre d | b :: _ => b end)
        end).
Proof.
  intros Hi H2 Hlo Hhi d.
  destruct pre as [|p0 pre'].
  - cbn [app] in Hi. destruct post as [|a [|b post']];
      try (rewrite Hi in H2; cbn [length] in H2; lia).
    rewrite chunkLookup_unfold. cbv zeta.
    rewrite (Search_spec _ 0).
    + cbn [Nat.eqb]. rewrite Hi. reflexivity.
    + lia.
    + intros x Hx. lia.
    + intros x Hx. rewrite Z.gtb_ltb. apply Z.ltb_lt. apply Hhi.
      rewrite Hi. apply nth_In. rewrite Hi in Hx. lia.
  - assert (Hne : p0 :: pre' <> []) by discriminate.
    pose proof (index_split_last (p0 :: pre') Hne) as Hsp.
    unfold last_record in Hsp. fold d in Hsp.
    set (l := last (p0 :: pre') d) in *.
    destruct post as [|b post'].
    + rewrite app_nil_r in Hi.
      apply (chunkLookup_end r off isRawOff (removelast (p0 :: pre')) l).
      * rewrite Hi. exact Hsp.
      * intros x Hx. apply Hlo. rewrite <- Hi. exact Hx.
    + apply (chunkLookup_mid r off isRawOff (removelast (p0 :: pre')) l b post').
      * rewrite Hi. rewrite Hsp at 1. rewrite <- app_assoc. reflexivity.
      * intros x Hx. apply Hlo. rewrite Hsp. exact Hx.
      * exact Hhi.
Qed.

Section WithCodecs.
Context {codecs : Codecs}.







Lemma parse_index_records (count : nat) :
  forall buf idx idx',
    parse_index count buf (mkRecord (-1) (-1)) idx = (idx', None) ->
    exists new,
      idx' = idx ++ new /\ length new = count /\
      Forall (fun x => 0 <= rawOff x /\ 0 <= zipOff x) new.
Proof.
  induction count as [|count IH]; intros buf idx idx'; cbn [parse_index].
  - intros H. injection H as <-. exists []. rewrite app_nil_r. repeat split. constructor.
  - cbn [rawOff zipOff].
    destruct (Z.geb_spec (-1) (rawOff (record_unmarshal buf))) as [|Hr]; [discriminate|].
    destruct (Z.geb_spec (-1) (zipOff (record_unmarshal buf))) as [|Hz]; [discriminate|].
    intros H. apply IH in H. destruct H as (new & -> & Hlen & Hall).
    exists (record_unmarshal buf :: new). rewrite <- app_assoc.
    split; [reflexivity|]. split; [cbn [length]; lia|].
    constructor; [lia | exact Hall].
Qed.

(** X23.  What a successful first parse establishes: the trailer and the
    algorithm are set; [indexSize / 16] records (a rest of the index below
    16 bytes is ignored) have been appended to the index, each with a raw and
    a zip offset that is not negative; the compressed cursor is at the
    header size, the plaintext cursor at 0, the stream positioned behind the
    header, and the chunk buffer untouched. *)
Theorem parse_postcondition (r r1 : Reader) :
  trailer r = None ->
  parseTrailerIfNeeded r = Done (r1, None) ->
  exists t new,
    trailer r1 = Some t /\ algo r1 <> None /\
    index r1 = index r ++ new /\
    length new = Z.to_nat (indexSize t / indexChunkSize) /\
    Forall (fun x => 0 <= rawOff x /\ 0 <= zipOff x) new /\
    rawSeekOffset r1 = headerSize /\ zipSeekOffset r1 = 0 /\
    pos (rawR r1) = headerSize /\ chunkBuf r1 = chunkBuf r.
Proof.
  intros Ht. unfold parseTrailerIfNeeded. rewrite Ht.
  destruct (raw_ReadFull (rawR r) headerSize) as [raw1 [hb [e1|]]]; [discriminate|].
  destruct (readHeader hb) as [hdr|e2]; [|discriminate].
  simpl_reader.
  destruct (raw_Seek raw1 (- trailerSize) SeekEnd) as [raw2 [n2 [e3|]]]; [discriminate|].
  simpl_reader.
  destruct (raw_ReadFull raw2 trailerSize) as [raw3 [tb [e4|]]]; [discriminate|].
  simpl_reader.
  destruct (negb (len tb =? trailerSize)); [discriminate|].
  destruct (AlgorithmFromType (halgo hdr)) as [al|]; [|discriminate].
  simpl_reader.
  destruct (raw_Seek raw3 _ SeekEnd) as [raw4 [n4 [e5|]]]; [discriminate|].
  simpl_reader.
  destruct (_ >? maxInt); [discriminate|].
  destruct (raw_ReadFull raw4 _) as [raw5 [ib [e6|]]]; [discriminate|].
  simpl_reader.
  destruct (parse_index _ _ _ _) as [idx [e7|]] eqn:E7; [discriminate|].
  simpl_reader.
  destruct (raw_Seek raw5 headerSize SeekStart) as [raw6 [n6 [e8|]]] eqn:E8; [discriminate|].
  intros H. injection H as <-. simpl_reader.
  apply parse_index_records in E7. destruct E7 as (new & -> & Hlen & Hall).
  exists (trailer_unmarshal tb), new.
  split; [reflexivity|]. split; [discriminate|]. split; [reflexivity|].
  split; [exact Hlen|]. split; [exact Hall|].
  split; [reflexivity|]. split; [reflexivity|]. split; [|reflexivity].
  unfold raw_Seek in E8.
  cbn [SeekStart SeekCurrent SeekEnd Z.eqb orb negb headerSize Z.ltb Z.compare] in E8.
  injection E8 as <- _. reflexivity.
Qed.

(** X24.  When the index says that the chunk at the compressed cursor ends
    behind the end of the stream, a [Read] into a buffer that is not empty
    returns no byte and io.EOF: [io.CopyN] reports the short chunk as io.EOF,
    and the reader hands that on as the end of the data. *)
Theorem Read_chunk_beyond_stream (r : Reader) (pre : list record) (x y : record)
    (post : list record) (fuel : nat) (plen : Z) :
  trailer r <> None -> index r = pre ++ x :: y :: post ->
  (forall e, In e (pre ++ [x]) -> zipOff e <= rawSeekOffset r) ->
  (forall e, In e (y :: post) -> rawSeekOffset r < zipOff e) ->
  0 <= zipOff x -> zipOff y < 2 ^ 63 ->
  len (data (rawR r)) < zipOff y ->
  Len (chunkBuf r) = 0 -> 0 < plen ->
  exists r', Read (S fuel) r plen = Done (r', ([], Some EOF)).
Proof.
  intros Ht Hi Hlo Hhi Hx Hy Hshort Hl Hp.
  assert (Hxy : zipOff x < zipOff y).
  { assert (zipOff x <= rawSeekOffset r)
      by (apply Hlo; apply in_or_app; right; left; reflexivity).
    assert (rawSeekOffset r < zipOff y) by (apply Hhi; left; reflexivity). lia. }
  unfold Read. rewrite parse_opened by assumption.
  cbn [bind Read_loop]. unfold serveChunk. rewrite Hl. cbn [Z.eqb negb bind].
  replace (plen =? 0) with false by (symmetry; apply Z.eqb_neq; lia).
  unfold readZipChunk, fixZipChunk.
  rewrite (chunkLookup_mid _ (rawSeekOffset r) false pre x y post)
    by (simpl_reader; assumption).
  simpl_reader.
  rewrite wrap64_small by lia.
  replace (zipOff y - zipOff x =? 0) with false by (symmetry; apply Z.eqb_neq; lia).
  rewrite raw_Seek_start by lia.
  simpl_reader.
  unfold raw_CopyN.
  replace (zipOff y - zipOff x <=? 0) with false by (symmetry; apply Z.leb_gt; lia).
  unfold raw_take. simpl_reader.
  assert (Hgot : len (firstn (Z.to_nat (zipOff y - zipOff x))
                        (skipn (Z.to_nat (zipOff x)) (data (rawR r))))
                 <> zipOff y - zipOff x).
  { rewrite len_firstn by lia. pose proof (len_nonneg (data (rawR r))).
    rewrite len_skipn by lia. lia. }
  apply Z.eqb_neq in Hgot. rewrite Hgot. simpl_reader.
  eexists. reflexivity.
Qed.

Lemma laid_hd a obj raw zip recs cs :
  laid a obj raw zip recs cs -> exists tl, recs = mkRecord raw zip :: tl.
Proof. intros H. inversion H; eauto. Qed.

Lemma laid_same_start a obj raw zip raw' zip' recs cs cs' :
  laid a obj raw zip recs cs -> laid a obj raw' zip' recs cs' -> raw' = raw.
Proof.
  intros H H'. apply laid_hd in H. apply laid_hd in H'.
  destruct H as (tl & ->). destruct H' as (tl' & E). now injection E.
Qed.

(** Serving from the chunk buffer moves the plaintext cursor by the bytes
    served. *)
Lemma serveChunk_cursor (r r1 : Reader) (plen plen1 : Z) (acc acc1 : list byte) :
  serveChunk r plen acc = Done (r1, plen1, acc1, None) ->
  - 2 ^ 63 <= zipSeekOffset r < 2 ^ 63 ->
  - 2 ^ 63 <= zipSeekOffset r + (plen - plen1) < 2 ^ 63 ->
  zipSeekOffset r1 = zipSeekOffset r + (plen - plen1).
Proof.
  unfold serveChunk. destruct (negb (Len (chunkBuf r) =? 0)).
  - destruct (ChunkBuf.Read (chunkBuf r) plen) as [[cb [got err]]| |]; cbn [bind];
      try discriminate.
    destruct err as [e|].
    + destruct e; try discriminate.
      intros H Hz Hz1. injection H as <- <- _.
      simpl_reader.
      replace (plen - (plen - len got)) with (len got) in * by lia.
      now apply wrap64_small.
    + intros H Hz Hz1. injection H as <- <- _.
      simpl_reader.
      replace (plen - (plen - len got)) with (len got) in * by lia.
      now apply wrap64_small.
  - intros H Hz Hz1. injection H as <- <- _. lia.
Qed.

(** The loop of [Read] with the plaintext cursor: it stays the raw offset
    of the next chunk minus what is left in the chunk buffer. *)
Lemma Read_loop_cursor (a : Algorithm) (obj : list byte) :
  len obj < 2 ^ 63 ->
  forall cs r pre suffix raw zip cur fuel plen acc,
    reading a obj r pre suffix raw zip cs cur ->
    zipSeekOffset r = raw - len cur -> 0 <= raw - len cur ->
    raw + len (concat cs) < 2 ^ 63 ->
    0 <= plen -> (length cs < fuel)%nat ->
    exists r' pre' suffix' raw' zip' cs' cur',
      Read_loop fuel r plen acc =
        Done (r', (acc ++ firstn (Z.to_nat plen) (cur ++ concat cs),
                   if len (cur ++ concat cs) <? plen then Some EOF else None)) /\
      reading a obj r' pre' suffix' raw' zip' cs' cur' /\
      cur' ++ concat cs' = skipn (Z.to_nat plen) (cur ++ concat cs) /\
      zipSeekOffset r' = raw' - len cur' /\
      raw' + len (concat cs') = raw + len (concat cs) /\
      (length cs' <= length cs)%nat.
Proof.
  intros Hobj cs.
  induction cs as [|c cs IH];
    intros r pre suffix raw zip cur fuel plen acc R Hz Hz0 Htot Hp Hfuel;
    (destruct fuel as [|fuel]; [cbn [length] in Hfuel; lia|]);
    cbn [Read_loop];
    destruct (serveChunk_reading _ _ _ _ _ _ _ _ _ plen acc R Hp) as (r1 & Hs & R1);
    rewrite Hs; cbn [bind];
    pose proof (len_nonneg cur) as Hcur0;
    assert (Hz1 : zipSeekOffset r1 = zipSeekOffset r + Z.min plen (len cur))
      by (match type of Htot with _ + len ?x < _ => pose proof (len_nonneg x) end;
          rewrite (serveChunk_cursor _ _ _ _ _ _ Hs); lia);
    destruct (Z.eqb_spec (plen - Z.min plen (len cur)) 0) as [E|E].
  - assert (Hle : plen <= len cur) by lia.
    replace (Z.min plen (len cur)) with plen in * by lia.
    exists r1, pre, suffix, raw, zip, [], (skipn (Z.to_nat plen) cur).
    cbn [concat]. rewrite !app_nil_r.
    replace (len cur <? plen) with false by (symmetry; apply Z.ltb_ge; lia).
    split; [reflexivity|]. split; [exact R1|]. split; [reflexivity|].
    split; [rewrite len_skipn by lia; lia|]. split; [reflexivity | lia].
  - assert (Hgt : len cur < plen) by lia.
    replace (Z.min plen (len cur)) with (len cur) in * by lia.
    rewrite skipn_len_all in R1. rewrite firstn_len_all.
    destruct R1 as (Hi & Hl & Hpre & Hraw & Ht & Ha & Hd & Hr & Hsz & Hlt & Hc1).
    inversion Hl as [raw' zip' E1 E2 E3 E4|]. subst raw' zip' suffix.
    rewrite (readZipChunk_at_end r1 pre (mkRecord raw zip)); try assumption.
    2:{ intros x Hx. rewrite Hi in Hx. apply in_app_or in Hx.
        destruct Hx as [Hx|[<-|[]]]; [apply Hpre; exact Hx | cbn; lia]. }
    cbn [bind concat]. rewrite !app_nil_r.
    exists (set_chunkBuf r1 (mkChunkBuffer [] 0 0 0)), pre, [mkRecord raw zip], raw, zip,
           [], [].
    replace (len cur <? plen) with true by (symmetry; apply Z.ltb_lt; lia).
    rewrite firstn_all2 by (unfold len in *; lia).
    rewrite skipn_all2 by (unfold len in *; lia).
    split; [reflexivity|].
    split.
    { unfold reading. simpl_reader. cbn [readOff size buf Z.to_nat skipn].
      repeat split; try assumption; try lia. }
    split; [reflexivity|]. simpl_reader. rewrite (@len_nil byte).
    split; [lia|]. split; [reflexivity | lia].
  - assert (Hle : plen <= len cur) by lia.
    replace (Z.min plen (len cur)) with plen in * by lia.
    exists r1, pre, suffix, raw, zip, (c :: cs), (skipn (Z.to_nat plen) cur).
    pose proof (len_nonneg (concat (c :: cs))).
    replace (len (cur ++ concat (c :: cs)) <? plen) with false
      by (symmetry; apply Z.ltb_ge; rewrite len_app; lia).
    rewrite firstn_app_le, skipn_app_le by lia.
    split; [reflexivity|]. split; [exact R1|]. split; [reflexivity|].
    split; [rewrite len_skipn by lia; lia|]. split; [reflexivity | lia].
  - assert (Hgt : len cur < plen) by lia.
    replace (Z.min plen (len cur)) with (len cur) in * by lia.
    rewrite skipn_len_all in R1. rewrite firstn_len_all.
    assert (Hsuf : exists rest, suffix = mkRecord raw zip :: rest).
    { destruct R1 as (_ & Hl & _). inversion Hl. eauto. }
    destruct Hsuf as (rest & ->).
    cbn [concat] in Htot. rewrite len_app in Htot.
    pose proof (len_nonneg c) as Hc0. pose proof (len_nonneg (concat cs)) as Hcs0.
    assert (Hc : len c < 2 ^ 63) by lia.
    destruct (readZipChunk_loads _ _ _ _ _ _ _ _ _ _ Hobj Hc R1)
      as (r2 & raw1 & zip1 & Hzc & R2 & _ & Hz2 & _ & _).
    assert (Hraw1 : raw1 = raw + len c).
    { destruct R1 as (_ & Hl & _). destruct R2 as (_ & Hl2 & _).
      inversion Hl as [|? ? z ? ? ? front back _ _ _ _ Hl']. subst.
      exact (laid_same_start _ _ _ _ _ _ _ _ _ Hl' Hl2). }
    rewrite Hzc. cbn [bind].
    destruct (IH r2 _ _ _ _ _ fuel (plen - len cur) (acc ++ cur) R2)
      as (r' & pre' & suffix' & raw' & zip' & cs' & cur' & HR & R' & Hrem & Hz' & Hsum & Hlen);
      [lia | lia | lia | lia | cbn [length] in Hfuel; lia |].
    exists r', pre', suffix', raw', zip', cs', cur'.
    rewrite HR. cbn [concat].
    rewrite (firstn_app_ge plen cur), (skipn_app_ge plen cur) by lia.
    rewrite (len_app cur), <- app_assoc.
    split.
    { do 3 f_equal.
      destruct (Z.ltb_spec (len (c ++ concat cs)) (plen - len cur));
        destruct (Z.ltb_spec (len cur + len (c ++ concat cs)) plen); try reflexivity; lia. }
    split; [exact R'|]. split; [exact Hrem|]. split; [exact Hz'|].
    split; [rewrite len_app; lia | cbn [length]; lia].
Qed.

(** X25.  In a sequential pass the plaintext cursor is exact.  On a reader
    over a parsed object whose cursor stands at the raw offset of the next
    chunk minus what is left in the chunk buffer (as it does after the
    parse), [Read] into [plen] bytes returns the next bytes of the plaintext
    and moves the cursor by the number of bytes it returned, and the cursor
    stands again as described, so the same holds for the next [Read]. *)
Theorem Read_advances_cursor (a : Algorithm) (obj : list byte) (r r0 : Reader)
    (pre suffix : list record) (raw zip : Z) (cs : list (list byte)) (cur : list byte)
    (plen : Z) (fuel : nat) :
  len obj < 2 ^ 63 ->
  parseTrailerIfNeeded r = Done (r0, None) ->
  reading a obj r0 pre suffix raw zip cs cur ->
  zipSeekOffset r0 = raw - len cur -> 0 <= zipSeekOffset r0 ->
  raw + len (concat cs) < 2 ^ 63 ->
  0 <= plen -> (length cs < fuel)%nat ->
  let rest := cur ++ concat cs in
  exists r',
    Read fuel r plen =
      Done (r', (firstn (Z.to_nat plen) rest,
                 if len rest <? plen then Some EOF else None)) /\
    zipSeekOffset r' = zipSeekOffset r0 + Z.min plen (len rest) /\
    exists pre' suffix' raw' zip' cs' cur',
      reading a obj r' pre' suffix' raw' zip' cs' cur' /\
      cur' ++ concat cs' = skipn (Z.to_nat plen) rest /\
      zipSeekOffset r' = raw' - len cur' /\
      raw' + len (concat cs') = raw + len (concat cs) /\
      (length cs' <= length cs)%nat.
Proof.
  intros Hobj Hparse R Hz Hz0 Htot Hp Hfuel rest.
  unfold Read. rewrite Hparse. cbn [bind].
  destruct (Read_loop_cursor a obj Hobj cs r0 _ _ _ _ _ fuel plen [] R Hz
              ltac:(lia) Htot Hp Hfuel)
    as (r' & pre' & suffix' & raw' & zip' & cs' & cur' & HR & R' & Hrem & Hz' & Hsum & Hlen).
  rewrite HR. cbn [app]. fold rest in Hrem |- *.
  exists r'. split; [reflexivity|].
  split.
  - rewrite Hz', Hz.
    assert (Hl : len (cur' ++ concat cs') = len (skipn (Z.to_nat plen) rest))
      by (now rewrite Hrem).
    rewrite len_app in Hl. rewrite len_skipn in Hl by lia.
    pose proof (len_nonneg rest) as H0.
    assert (Hr : len rest = len cur + len (concat cs)) by (unfold rest; apply len_app).
    lia.
  - exists pre', suffix', raw', zip', cs', cur'.
    split; [exact R'|]. split; [exact Hrem|]. split; [exact Hz'|].
    split; [exact Hsum | exact Hlen].
Qed.

End WithCodecs.

Lemma two_chunk_parse :
  parseTrailerIfNeeded (codecs := toy_codecs) (NewReader (mkRawR two_chunk_object 0))
  = Done (two_chunk_reader, None).
Proof. vm_compute. reflexivity. Qed.

Lemma two_chunk_laid : laid toy_none two_chunk_object 0 12 two_chunk_index two_chunks.
Proof.
  unfold two_chunk_index, two_chunks.
  apply (laid_cons toy_none two_chunk_object 0 12 [x41; x42] [x41; x42] _ _
           (makeHeader 0)
           ([x43; x44] ++ index_bytes two_chunk_index
            ++ trailer_marshal (mkTrailer (len (index_bytes two_chunk_index)))));
    try reflexivity.
  apply (laid_cons toy_none two_chunk_object 2 14 [x43; x44] [x43; x44] _ _
           (makeHeader 0 ++ [x41; x42])
           (index_bytes two_chunk_index
            ++ trailer_marshal (mkTrailer (len (index_bytes two_chunk_index)))));
    try reflexivity.
  apply laid_end.
Qed.

Lemma two_chunk_opened : opened toy_none two_chunk_object two_chunk_reader 12 two_chunks.
Proof.
  unfold opened. split; [exact two_chunk_laid|].
  repeat split; try discriminate; try reflexivity; try (cbn; lia).
Qed.

Lemma two_chunk_reading :
  reading toy_none two_chunk_object two_chunk_reader [] two_chunk_index 0 12 two_chunks [].
Proof.
  unfold reading. split; [reflexivity|]. split; [exact two_chunk_laid|].
  split; [intros x []|].
  repeat split; try discriminate; try reflexivity; try (cbn; lia).
Qed.

Lemma two_chunk_small : len two_chunk_object < 2 ^ 63.
Proof. reflexivity. Qed.

Lemma Seek_then_ReadAll_witness :
  exists r1 r2,
    Seek (codecs := toy_codecs) two_chunk_reader 3 SeekStart = Done (r1, (3, None)) /\
    ReadAll (codecs := toy_codecs) 5 3 r1 2 [] = Done (r2, ([x44], None)).
Proof.
  destruct (Seek_then_ReadAll (codecs := toy_codecs) toy_none two_chunk_object
              two_chunk_reader 12 two_chunks 3 2 5 3 two_chunk_opened two_chunk_small)
    as (r1 & r2 & H1 & H2).
  - reflexivity.
  - cbn. lia.
  - lia.
  - cbn. lia.
  - cbn. lia.
  - exists r1, r2. split; [exact H1 | exact H2].
Defined.

Lemma Seek_from_end_reads_tail_witness :
  exists r1 r2,
    Seek (codecs := toy_codecs) two_chunk_reader (-1) SeekEnd = Done (r1, (3, None)) /\
    ReadAll (codecs := toy_codecs) 5 3 r1 2 [] = Done (r2, ([x44], None)).
Proof.
  destruct (Seek_from_end_reads_tail (codecs := toy_codecs) toy_none two_chunk_object
              two_chunk_reader 12 two_chunks 1 2 5 3 two_chunk_opened two_chunk_small)
    as (r1 & r2 & H1 & H2).
  - reflexivity.
  - cbn. lia.
  - lia.
  - cbn. lia.
  - cbn. lia.
  - exists r1, r2. split; [exact H1 | exact H2].
Defined.

Lemma Seek_cursor_at_chunk_start_witness :
  exists r1 r2,
    Seek (codecs := toy_codecs) two_chunk_reader 3 SeekStart = Done (r1, (3, None)) /\
    zipSeekOffset r1 = 2 /\
    Seek (codecs := toy_codecs) r1 0 SeekCurrent = Done (r2, (2, None)).
Proof.
  destruct (Seek_cursor_at_chunk_start (codecs := toy_codecs) toy_none two_chunk_object
              two_chunk_reader 12 two_chunks 3 two_chunk_opened two_chunk_small)
    as (recs1 & x & rest & r1 & r2 & _ & _ & _ & Es & Hz & Es2).
  - reflexivity.
  - cbn. lia.
  - assert (C : exists r1',
               Seek (codecs := toy_codecs) two_chunk_reader 3 SeekStart
               = Done (r1', (3, None)) /\ zipSeekOffset r1' = 2).
    { eexists. split; [vm_compute; reflexivity | reflexivity]. }
    destruct C as (r1' & C1 & C2).
    rewrite C1 in Es. injection Es as <-.
    assert (Hx : rawOff x = 2) by (rewrite <- Hz; exact C2).
    rewrite Hx in Es2.
    exists r1', r2. split; [exact C1|]. split; [exact C2 | exact Es2].
Defined.

Lemma WriteTo_plaintext_witness :
  exists r' w',
    WriteTo (codecs := toy_codecs) 3 (NewReader (mkRawR two_chunk_object 0)) NewSink
    = Done (r', w', (4, None)) /\
    accepted w' = [[]; [x41; x42]; [x43; x44]].
Proof.
  destruct (WriteTo_plaintext (codecs := toy_codecs) toy_none two_chunk_object
              (NewReader (mkRawR two_chunk_object 0)) two_chunk_reader
              [] two_chunk_index 0 12 two_chunks [] NewSink 3
              two_chunk_small two_chunk_parse two_chunk_reading EncryptMore.NewSink_reliable)
    as (r' & w' & H1 & H2).
  - reflexivity.
  - cbn. lia.
  - exists r', w'. split; [exact H1 | exact H2].
Defined.

Lemma Read_fills_witness :
  exists r',
    Read (codecs := toy_codecs) 3 (NewReader (mkRawR two_chunk_object 0)) 3
    = Done (r', ([x41; x42; x43], None)).
Proof.
  destruct (Read_fills (codecs := toy_codecs) toy_none two_chunk_object
              (NewReader (mkRawR two_chunk_object 0)) two_chunk_reader
              [] two_chunk_index 0 12 two_chunks [] 3 3 two_chunk_small)
    as (r' & H1 & _).
  - repeat constructor.
  - exact two_chunk_parse.
  - exact two_chunk_reading.
  - lia.
  - cbn. lia.
  - exists r'. exact H1.
Defined.

Lemma empty_index_panics_witness :
  parseTrailerIfNeeded (codecs := toy_codecs) (NewReader (mkRawR no_record_object 0))
  = Done (no_record_reader, None) /\
  Read (codecs := toy_codecs) 1 no_record_reader 1 = Panic /\
  Seek (codecs := toy_codecs) no_record_reader 0 SeekStart = Panic /\
  Seek (codecs := toy_codecs) no_record_reader 0 SeekEnd = Panic.
Proof.
  destruct (empty_index_panics (codecs := toy_codecs) no_record_reader) as (H1 & H2 & H3).
  - discriminate.
  - reflexivity.
  - split; [vm_compute; reflexivity|].
    split; [apply H1; [reflexivity | lia]|].
    split; [apply H2; lia | apply H3; lia].
Defined.

Lemma truncated_header_witness :
  exists r',
    Read (codecs := toy_codecs) 1 (NewReader (mkRawR [x63; x7a] 0)) 4
    = Done (r', ([], Some ErrUnexpectedEOF)) /\
    Seek (codecs := toy_codecs) (NewReader (mkRawR [x63; x7a] 0)) 0 SeekStart
    = Done (r', (0, Some ErrUnexpectedEOF)).
Proof.
  destruct (truncated_header (codecs := toy_codecs) [x63; x7a] 1 4 0) as (r' & H1 & H2 & _).
  - reflexivity.
  - exists r'. split; [exact H1 | exact H2].
Defined.

Lemma chunkLookup_located_witness :
  chunkLookup two_chunk_reader 3 true = Done (mkRecord 2 14, mkRecord 4 16) /\
  chunkLookup two_chunk_reader 14 false = Done (mkRecord 2 14, mkRecord 4 16).
Proof.
  split.
  - apply (chunkLookup_located two_chunk_reader 3 true
             [mkRecord 0 12; mkRecord 2 14] [mkRecord 4 16]).
    + reflexivity.
    + cbn. lia.
    + intros x [<-|[<-|[]]]; cbn; lia.
    + intros x [<-|[]]. cbn. lia.
  - apply (chunkLookup_located two_chunk_reader 14 false
             [mkRecord 0 12; mkRecord 2 14] [mkRecord 4 16]).
    + reflexivity.
    + cbn. lia.
    + intros x [<-|[<-|[]]]; cbn; lia.
    + intros x [<-|[]]. cbn. lia.
Defined.


Lemma parse_postcondition_witness :
  exists new,
    index two_chunk_reader = [] ++ new /\ length new = 3%nat /\
    Forall (fun x => 0 <= rawOff x /\ 0 <= zipOff x) new /\
    rawSeekOffset two_chunk_reader = headerSize.
Proof.
  destruct (parse_postcondition (codecs := toy_codecs)
              (NewReader (mkRawR two_chunk_object 0)) two_chunk_reader eq_refl
              two_chunk_parse)
    as (t & new & Ht & _ & Hi & Hlen & Hall & Hraw & _).
  exists new. injection Ht as <-.
  split; [exact Hi|]. split; [exact Hlen|]. split; [exact Hall | exact Hraw].
Defined.

Lemma Read_chunk_beyond_stream_witness :
  parseTrailerIfNeeded (codecs := toy_codecs) (NewReader (mkRawR overlong_object 0))
  = Done (overlong_reader, None) /\
  exists r', Read (codecs := toy_codecs) 1 overlong_reader 4 = Done (r', ([], Some EOF)).
Proof.
  split; [vm_compute; reflexivity|].
  apply (Read_chunk_beyond_stream (codecs := toy_codecs) overlong_reader
           [] (mkRecord 0 12) (mkRecord 4 1000) [] 0 4).
  - discriminate.
  - reflexivity.
  - intros e [<-|[]]. unfold overlong_reader, headerSize. cbn. lia.
  - intros e [<-|[]]. unfold overlong_reader, headerSize. cbn. lia.
  - cbn. lia.
  - cbn. lia.
  - vm_compute. reflexivity.
  - reflexivity.
  - lia.
Defined.

Lemma Read_advances_cursor_witness :
  exists r',
    Read (codecs := toy_codecs) 3 (NewReader (mkRawR two_chunk_object 0)) 3
    = Done (r', ([x41; x42; x43], None)) /\
    zipSeekOffset r' = 3.
Proof.
  destruct (Read_advances_cursor (codecs := toy_codecs) toy_none two_chunk_object
              (NewReader (mkRawR two_chunk_object 0)) two_chunk_reader
              [] two_chunk_index 0 12 two_chunks [] 3 3 two_chunk_small
              two_chunk_parse two_chunk_reading)
    as (r' & H1 & H2 & _).
  - reflexivity.
  - cbn. lia.
  - cbn. lia.
  - lia.
  - cbn. lia.
  - exists r'. split; [exact H1 | exact H2].
Defined.

End CompressMore.
